(** * Event-history propagation and move engine of [Model.cpp]

    A shallow embedding of [src/Model.cpp] (the base class [Model] of the
    reversible-jump sampler) and the properties of its propagation engine,
    move proposer and initializer.

    Conventions of the embedding.
    - A [double] is a rational ([Q]).  The one product whose rounding
      decides which event is taken, [xx * (double)numEvents] in
      [chooseEventAtRandom], is rounded to binary64, to nearest and ties to
      even ([double_mul]); the other expressions are taken exactly.  An
      [int] is a [Z], and the one narrowing cast of the file,
      [(int)_eventCollection.size()], is written out with its wrap-around
      ([to_int]).
    - A pointer to a [Node] is the node it points to: the immutable topology is the
      inductive type [Node], whose constructor [NULL] is the null pointer;
      two pointers are compared through the node index.
    - A pointer to a [BranchEvent] is an address ([nat]) into the store [_events] of the
      model, or [None] for the null pointer.  The [BranchHistory] of a node,
      which is mutable, lives in the store [_histories], by node index.
    - A call that ends the process with [std::exit(1)] yields [FatalExit]; a
      dereference of a null pointer or of a past-the-end iterator yields
      [Undefined]. *)

From Stdlib Require Import List ZArith QArith Qround Qpower Qreduction Lia Lqa
  Bool String Arith Permutation.
Import ListNotations.

(** ** Outcomes of a call *)

Inductive Result (A : Type) : Type :=
| Ok (a : A)
| FatalExit
| Undefined.

Arguments Ok {A} a.
Arguments FatalExit {A}.
Arguments Undefined {A}.

Definition bind {A B : Type} (m : Result A) (k : A -> Result B) : Result B :=
  match m with
  | Ok a => k a
  | FatalExit => FatalExit
  | Undefined => Undefined
  end.

Notation "x <- m ;; k" := (bind m (fun x => k))
  (at level 61, m at next level, right associativity).

(** ** Collaborators: nodes, events, branch histories, random numbers *)

(** A pointer to a [BranchEvent]. *)
Definition EventPtr : Type := option nat.

Definition EventPtr_eqb (a b : EventPtr) : bool :=
  match a, b with
  | None, None => true
  | Some x, Some y => Nat.eqb x y
  | _, _ => false
  end.

(** [Node]: index, ancestor (by index; [None] at the root), time, map start,
    left and right descendant. *)
Inductive Node : Type :=
| NULL
| mkNode (index : nat) (anc : option nat) (time mapStart : Q)
         (lfDesc rtDesc : Node).

Definition isNULL (p : Node) : bool :=
  match p with NULL => true | _ => false end.

Definition getIndex (p : Node) : option nat :=
  match p with NULL => None | mkNode i _ _ _ _ _ => Some i end.

Definition getAnc (p : Node) : option nat :=
  match p with NULL => None | mkNode _ a _ _ _ _ => a end.

Definition getTime (p : Node) : Q :=
  match p with NULL => 0 | mkNode _ _ t _ _ _ => t end.

Definition getMapStart (p : Node) : Q :=
  match p with NULL => 0 | mkNode _ _ _ m _ _ => m end.

Definition getLfDesc (p : Node) : Node :=
  match p with NULL => NULL | mkNode _ _ _ _ l _ => l end.

Definition getRtDesc (p : Node) : Node :=
  match p with NULL => NULL | mkNode _ _ _ _ _ r => r end.

(** Pointer equality [p == q] on nodes. *)
Definition Node_eqb (p q : Node) : bool :=
  match getIndex p, getIndex q with
  | None, None => true
  | Some i, Some j => Nat.eqb i j
  | _, _ => false
  end.

(** [BranchEvent]: the owning node, the map time, the position saved for
    rollback, and the model-specific parameter vector. *)
Record BranchEvent : Type := mkBranchEvent {
  eventNode : Node;
  mapTime : Q;
  oldEventNode : Node;
  oldMapTime : Q;
  parameters : list Q
}.

Definition getEventNode (e : BranchEvent) : Node := eventNode e.

(** [BranchHistory]: the events on the branch, rootward first, and the two
    cached effective events. *)
Record BranchHistory : Type := mkBranchHistory {
  eventsOnBranch : list nat;
  nodeEvent : EventPtr;
  ancestralNodeEvent : EventPtr
}.

Definition getNodeEvent (b : BranchHistory) : EventPtr := nodeEvent b.

Definition setNodeEvent (x : EventPtr) (b : BranchHistory) : BranchHistory :=
  mkBranchHistory (eventsOnBranch b) x (ancestralNodeEvent b).

Definition setAncestralNodeEvent (x : EventPtr) (b : BranchHistory)
  : BranchHistory :=
  mkBranchHistory (eventsOnBranch b) (nodeEvent b) x.

Definition getNumberOfBranchEvents (b : BranchHistory) : Z :=
  Z.of_nat (List.length (eventsOnBranch b)).

(** Modelled from the spec: [BranchHistory::getLastEvent()] is not in the
    source; it is the most-tipward event currently on the branch, the last
    one of the ordered container, and NULL on an empty branch. *)
Definition getLastEvent (b : BranchHistory) : EventPtr :=
  last (map Some (eventsOnBranch b)) None.

Fixpoint eventBefore (prev : nat) (x : nat) (l : list nat) : EventPtr :=
  match l with
  | [] => None
  | y :: l' => if Nat.eqb y x then Some prev else eventBefore y x l'
  end.

(** Modelled from the spec: [BranchHistory::getLastEvent(x)], with an
    event argument, is not in the source; it is the event immediately rootward of [x] on its
    branch.  When [x] is the most rootward event of the branch, that is the
    event in force at the proximal end of the branch, the cached
    [ancestralNodeEvent]; an [x] that is not on the branch gives NULL. *)
Definition getLastEventFrom (x : nat) (b : BranchHistory) : EventPtr :=
  match eventsOnBranch b with
  | [] => None
  | y :: l => if Nat.eqb y x then ancestralNodeEvent b else eventBefore y x l
  end.

Definition Qlt_bool (a b : Q) : bool := negb (Qle_bool b a).

Fixpoint insertByMapTime (ev : nat -> BranchEvent) (x : nat) (l : list nat)
  : list nat :=
  match l with
  | [] => [x]
  | y :: l' =>
      if Qlt_bool (mapTime (ev x)) (mapTime (ev y)) then x :: l
      else y :: insertByMapTime ev x l'
  end.

(** Modelled from the spec: [BranchHistory::addEventToBranchHistory] is not
    in the source; the container is ordered by map position (positions grow
    tipward along a branch), ties are broken by insertion order, and the
    cached effective events are left as they are. *)
Definition addEventToBranchHistory (ev : nat -> BranchEvent) (x : nat)
  (b : BranchHistory) : BranchHistory :=
  mkBranchHistory (insertByMapTime ev x (eventsOnBranch b))
                  (nodeEvent b) (ancestralNodeEvent b).

Fixpoint eraseEvent (x : nat) (l : list nat) : list nat :=
  match l with
  | [] => []
  | y :: l' => if Nat.eqb y x then l' else y :: eraseEvent x l'
  end.

(** Modelled from the spec: [BranchHistory::popEventOffBranchHistory] is not
    in the source; it removes the event from the container and leaves the
    cached effective events stale. *)
Definition popEventOffBranchHistory (x : nat) (b : BranchHistory)
  : BranchHistory :=
  mkBranchHistory (eraseEvent x (eventsOnBranch b))
                  (nodeEvent b) (ancestralNodeEvent b).

(** Modelled from the spec: [MbRandom] is not in the source; the generator
    is the sequence of the unit draws it will produce and the number of
    draws consumed so far. *)
Record MbRandom : Type := mkMbRandom {
  draws : nat -> Q;
  consumed : nat
}.

(** [uniformRv()]: a real in [0,1). *)
Definition uniformRv (r : MbRandom) : Q * MbRandom :=
  (draws r (consumed r), mkMbRandom (draws r) (S (consumed r))).

(** Modelled from the spec: [uniformRv(lo, hi)] is one draw, scaled to a
    real in [lo,hi). *)
Definition uniformRvRange (lo hi : Q) (r : MbRandom) : Q * MbRandom :=
  let (u, r') := uniformRv r in (lo + u * (hi - lo), r').

Fixpoint burnIn (n : nat) (r : MbRandom) : MbRandom :=
  match n with
  | O => r
  | S n' => burnIn n' (snd (uniformRv r))
  end.

(** [Tree]: the root and the queries the model makes.  The two name
    lookups end the process themselves when a name cannot be resolved. *)
Record Tree : Type := mkTree {
  getRoot : Node;
  maxRootToTipLength : Q;
  getTotalMapLength : Q;
  mapEventToTree : Q -> Node;
  getNodeMRCA : string -> string -> Result Node;
  getNodeByName : string -> Result Node
}.

Record Settings : Type := mkSettings {
  getUpdateEventLocationScale : Q;
  getUpdateEventRateScale : Q;
  getLocalGlobalMoveRatio : Q;
  getPoissonRatePrior : Q;
  getEventDataInfile : string
}.

Definition Prior : Type := list Q.

(** The model-specific virtual methods of a concrete model, as far as the
    base class uses them: how the parameters of a new event are drawn, and
    the derived per-branch means as a function of the histories and the
    events. *)
Record ModelSpecific : Type := mkModelSpecific {
  drawParameters : MbRandom -> list Q * MbRandom;
  meanBranchParametersOf :
    (nat -> BranchHistory) -> (nat -> BranchEvent) -> nat -> list Q
}.

(** ** The model *)

Record Model : Type := mkModel {
  _rng : MbRandom;
  _tree : Tree;
  _settings : Settings;
  _prior : Prior;
  _gen : Z;
  _scale : Q;
  _updateEventRateScale : Q;
  _localGlobalMoveRatio : Q;
  _poissonRatePrior : Q;
  _eventRate : Q;
  _acceptCount : Z;
  _rejectCount : Z;
  _acceptLast : Z;
  _lastDeletedEventMapTime : Q;
  _eventCollection : list nat;
  _rootEvent : EventPtr;
  _lastEventModified : EventPtr;
  _specific : ModelSpecific;
  _histories : nat -> BranchHistory;
  _events : nat -> BranchEvent;
  _nextEvent : nat;
  _meanBranchParameters : nat -> list Q
}.

Definition with_rng (r : MbRandom) (m : Model) : Model :=
  mkModel r (_tree m) (_settings m) (_prior m) (_gen m) (_scale m)
    (_updateEventRateScale m) (_localGlobalMoveRatio m) (_poissonRatePrior m)
    (_eventRate m) (_acceptCount m) (_rejectCount m) (_acceptLast m)
    (_lastDeletedEventMapTime m) (_eventCollection m) (_rootEvent m)
    (_lastEventModified m) (_specific m) (_histories m) (_events m)
    (_nextEvent m) (_meanBranchParameters m).

Definition with_eventCollection (c : list nat) (m : Model) : Model :=
  mkModel (_rng m) (_tree m) (_settings m) (_prior m) (_gen m) (_scale m)
    (_updateEventRateScale m) (_localGlobalMoveRatio m) (_poissonRatePrior m)
    (_eventRate m) (_acceptCount m) (_rejectCount m) (_acceptLast m)
    (_lastDeletedEventMapTime m) c (_rootEvent m)
    (_lastEventModified m) (_specific m) (_histories m) (_events m)
    (_nextEvent m) (_meanBranchParameters m).

Definition with_lastEventModified (x : EventPtr) (m : Model) : Model :=
  mkModel (_rng m) (_tree m) (_settings m) (_prior m) (_gen m) (_scale m)
    (_updateEventRateScale m) (_localGlobalMoveRatio m) (_poissonRatePrior m)
    (_eventRate m) (_acceptCount m) (_rejectCount m) (_acceptLast m)
    (_lastDeletedEventMapTime m) (_eventCollection m) (_rootEvent m)
    x (_specific m) (_histories m) (_events m)
    (_nextEvent m) (_meanBranchParameters m).

Definition with_histories (h : nat -> BranchHistory) (m : Model) : Model :=
  mkModel (_rng m) (_tree m) (_settings m) (_prior m) (_gen m) (_scale m)
    (_updateEventRateScale m) (_localGlobalMoveRatio m) (_poissonRatePrior m)
    (_eventRate m) (_acceptCount m) (_rejectCount m) (_acceptLast m)
    (_lastDeletedEventMapTime m) (_eventCollection m) (_rootEvent m)
    (_lastEventModified m) (_specific m) h (_events m)
    (_nextEvent m) (_meanBranchParameters m).

Definition with_events (ev : nat -> BranchEvent) (m : Model) : Model :=
  mkModel (_rng m) (_tree m) (_settings m) (_prior m) (_gen m) (_scale m)
    (_updateEventRateScale m) (_localGlobalMoveRatio m) (_poissonRatePrior m)
    (_eventRate m) (_acceptCount m) (_rejectCount m) (_acceptLast m)
    (_lastDeletedEventMapTime m) (_eventCollection m) (_rootEvent m)
    (_lastEventModified m) (_specific m) (_histories m) ev
    (_nextEvent m) (_meanBranchParameters m).

Definition with_nextEvent (n : nat) (m : Model) : Model :=
  mkModel (_rng m) (_tree m) (_settings m) (_prior m) (_gen m) (_scale m)
    (_updateEventRateScale m) (_localGlobalMoveRatio m) (_poissonRatePrior m)
    (_eventRate m) (_acceptCount m) (_rejectCount m) (_acceptLast m)
    (_lastDeletedEventMapTime m) (_eventCollection m) (_rootEvent m)
    (_lastEventModified m) (_specific m) (_histories m) (_events m)
    n (_meanBranchParameters m).

Definition with_meanBranchParameters (d : nat -> list Q) (m : Model) : Model :=
  mkModel (_rng m) (_tree m) (_settings m) (_prior m) (_gen m) (_scale m)
    (_updateEventRateScale m) (_localGlobalMoveRatio m) (_poissonRatePrior m)
    (_eventRate m) (_acceptCount m) (_rejectCount m) (_acceptLast m)
    (_lastDeletedEventMapTime m) (_eventCollection m) (_rootEvent m)
    (_lastEventModified m) (_specific m) (_histories m) (_events m)
    (_nextEvent m) d.

(** Update of one cell of a store. *)
Definition update {A : Type} (i : nat) (f : A -> A) (h : nat -> A)
  : nat -> A :=
  fun j => if Nat.eqb j i then f (h i) else h j.

(** [p->getBranchHistory()->...] for a mutating call: null pointers have no
    branch history. *)
Definition onBranchHistory (p : Node) (f : BranchHistory -> BranchHistory)
  (m : Model) : Result Model :=
  match getIndex p with
  | None => Undefined
  | Some i => Ok (with_histories (update i f (_histories m)) m)
  end.

(** [Model::Model]: a hundred draws are discarded, then the scalars are
    set.  The branch histories belong to the nodes of the tree and the
    events to the heap; [_rootEvent] and [_lastEventModified] are left to
    the concrete model. *)
Definition newModel (rng : MbRandom) (tree : Tree) (settings : Settings)
  (prior : Prior) (specific : ModelSpecific)
  (histories : nat -> BranchHistory) (events : nat -> BranchEvent)
  (means : nat -> list Q) : Model :=
  mkModel (burnIn 100 rng) tree settings prior 0
    (getUpdateEventLocationScale settings * maxRootToTipLength tree)
    (getUpdateEventRateScale settings)
    (getLocalGlobalMoveRatio settings)
    (getPoissonRatePrior settings)
    (1 / getPoissonRatePrior settings)
    0 0 (-1) 0 [] None None specific histories events 0 means.

(** ** Propagation engine *)

(** [Model::forwardSetHistoriesRecursive], on the store of branch
    histories, the only part of the model it touches. *)
Fixpoint forwardSetHistoriesRecursive (p : Node) (h : nat -> BranchHistory)
  : Result (nat -> BranchHistory) :=
  match p with
  | NULL => Undefined
  | mkNode i a _ _ lf rt =>
      match a with
      | None => Undefined
      | Some ai =>
          let lastEvent := getNodeEvent (h ai) in
          let h1 := update i (setAncestralNodeEvent lastEvent) h in
          if (getNumberOfBranchEvents (h1 i) =? 0)%Z then
            let h2 := update i (setNodeEvent lastEvent) h1 in
            h3 <- match lf with
                  | NULL => Ok h2
                  | _ => forwardSetHistoriesRecursive lf h2
                  end ;;
            match rt with
            | NULL => Ok h3
            | _ => forwardSetHistoriesRecursive rt h3
            end
          else Ok h1
      end
  end.

(** [Model::forwardSetBranchHistories] *)
Definition forwardSetBranchHistories (x : EventPtr) (m : Model)
  : Result Model :=
  match x with
  | None => Undefined
  | Some e =>
      let myNode := getEventNode (_events m e) in
      match myNode with
      | NULL => Undefined
      | mkNode i _ _ _ lf rt =>
          if EventPtr_eqb x (_rootEvent m) then
            h1 <- forwardSetHistoriesRecursive lf (_histories m) ;;
            h2 <- forwardSetHistoriesRecursive rt h1 ;;
            Ok (with_histories h2 m)
          else if EventPtr_eqb x (getLastEvent (_histories m i)) then
            let h0 := update i (setNodeEvent x) (_histories m) in
            if negb (isNULL lf) && negb (isNULL rt) then
              h1 <- forwardSetHistoriesRecursive lf h0 ;;
              h2 <- forwardSetHistoriesRecursive rt h1 ;;
              Ok (with_histories h2 m)
            else Ok (with_histories h0 m)
          else Ok m
      end
  end.

(** ** Move proposer *)

(** Modelled from the spec: [setMeanBranchParameters] is pure virtual in
    the source; it recomputes the derived per-branch means from the
    histories and the events. *)
Definition setMeanBranchParameters (m : Model) : Model :=
  with_meanBranchParameters
    (meanBranchParametersOf (_specific m) (_histories m) (_events m)) m.

Fixpoint insertEventSet (x : nat) (l : list nat) : list nat :=
  match l with
  | [] => [x]
  | y :: l' =>
      if Nat.ltb x y then x :: l
      else if Nat.eqb x y then l
      else y :: insertEventSet x l'
  end.

(** Modelled from the spec: the comparator of [EventSet] is not in the
    source; the Registry is a set of events, unique by identity, iterated
    in one fixed total order (here the order of the addresses). *)
Definition EventSet_insert (x : nat) (m : Model) : Model :=
  with_eventCollection (insertEventSet x (_eventCollection m)) m.

(** Modelled from the spec: [newBranchEventWithRandomParameters] is pure
    virtual in the source; it allocates an event at map position [x], owned
    by the node the coordinate lookup gives, with freshly drawn parameters;
    the position saved for rollback starts as the position itself. *)
Definition newBranchEventWithRandomParameters (x : Q) (m : Model)
  : nat * Model :=
  let (ps, r) := drawParameters (_specific m) (_rng m) in
  let node := mapEventToTree (_tree m) x in
  let e := _nextEvent m in
  (e, with_rng r (with_nextEvent (S e)
        (with_events
           (update e (fun _ => mkBranchEvent node x node x ps) (_events m))
           m))).

(** [Model::addEventToTree(double x)] *)
Definition addEventToTreeAt (x : Q) (m : Model) : Result Model :=
  let (newEvent, m1) := newBranchEventWithRandomParameters x m in
  m2 <- onBranchHistory (getEventNode (_events m1 newEvent))
          (addEventToBranchHistory (_events m1) newEvent) m1 ;;
  let m3 := EventSet_insert newEvent m2 in
  m4 <- forwardSetBranchHistories (Some newEvent) m3 ;;
  let m5 := setMeanBranchParameters m4 in
  Ok (with_lastEventModified (Some newEvent) m5).

(** [Model::addEventToTree()] *)
Definition addEventToTree (m : Model) : Result Model :=
  match getRoot (_tree m) with
  | NULL => Undefined
  | root =>
      let aa := getMapStart root in
      let bb := getTotalMapLength (_tree m) in
      let (x, r) := uniformRvRange aa bb (_rng m) in
      addEventToTreeAt x (with_rng r m)
  end.

(** ** Binary64 arithmetic

    A finite [double] is a rational [m * 2^g] with [|m| < 2^53] and
    [-1074 <= g]; an operation gives the exact result rounded to such a
    number, to nearest and ties to even. *)

Definition pow2 (e : Z) : Q := 2 ^ e.

(** The exponent [E] of a positive rational: [2^E <= x < 2^(E+1)]. *)
Definition Qlog2 (x : Q) : Z :=
  let e0 := (Z.log2 (Qnum x) - Z.log2 (Zpos (Qden x)))%Z in
  if Qle_bool (pow2 e0) x then e0 else (e0 - 1)%Z.

(** The exponent of the unit in the last place of [x]: 53 significant bits,
    and the spacing of the subnormal numbers at the low end. *)
Definition ulpExponent (x : Q) : Z := Z.max (Qlog2 x - 52) (-1074).

(** The nearest integer, ties to even. *)
Definition nearestEven (q : Q) : Z :=
  let f := Qfloor q in
  match Qcompare (q - inject_Z f) (1 # 2) with
  | Lt => f
  | Gt => (f + 1)%Z
  | Eq => if Z.even f then f else (f + 1)%Z
  end.

(** A positive [x] on the grid of its binade, its significand rounded by
    [rnd]. *)
Definition roundPositive (rnd : Q -> Z) (x : Q) : Q :=
  let g := ulpExponent x in inject_Z (rnd (x / pow2 g)) * pow2 g.

Definition roundSigned (rnd : Q -> Z) (x : Q) : Q :=
  match Qcompare x 0 with
  | Eq => 0
  | Gt => roundPositive rnd x
  | Lt => - roundPositive rnd (- x)
  end.

(** Rounding to binary64; [None] is an overflow to infinity. *)
Definition round64 (x : Q) : option Q :=
  let y := roundSigned nearestEven x in
  if Qle_bool (pow2 1024) y || Qle_bool y (- pow2 1024) then None else Some y.

(** The product [x * y] of two [double]s. *)
Definition double_mul (x y : Q) : option Q := round64 (x * y).

(** A draw as the [double] that [uniformRv()] returns: the sequence of the
    generator being rational in the model, a draw stands for the binary64
    number at or next below it, in lowest terms; a draw that is a binary64
    number stands for itself. *)
Definition as_double (x : Q) : Q := Qred (roundSigned Qfloor x).

(** [x] is a binary64 number, in lowest terms. *)
Definition isDouble (x : Q) : Prop := as_double x = x.

Definition INT_MAX : Z := 2147483647.
Definition INT_MIN : Z := -2147483648.

(** The conversion of an unsigned size to [int], with its wrap-around. *)
Definition to_int (z : Z) : Z := (z + 2147483648) mod 4294967296 - 2147483648.

(** The conversion [(int)d] of a [double]: truncation toward zero,
    undefined out of the range of [int]. *)
Definition int_of_double (d : Q) : Result Z :=
  let z := Z.quot (Qnum d) (Zpos (Qden d)) in
  if (INT_MIN <=? z)%Z && (z <=? INT_MAX)%Z then Ok z else Undefined.

(** The loop [for (i = 0; i < chosen; i++) ++sit] on an iterator into the
    Registry, the iterator being the part of the sequence not yet passed. *)
Fixpoint advance (n : nat) (sit : list nat) : Result (list nat) :=
  match n with
  | O => Ok sit
  | S n' =>
      match sit with
      | [] => Undefined
      | _ :: rest => advance n' rest
      end
  end.

(** The index [(int)(xx * (double)numEvents)]: the product is the binary64
    product, and the conversion of an infinite product is undefined. *)
Definition chosenIndex (xx : Q) (numEvents : Z) : Result Z :=
  match double_mul xx (inject_Z numEvents) with
  | Some p => int_of_double p
  | None => Undefined
  end.

(** [Model::chooseEventAtRandom] *)
Definition chooseEventAtRandom (m : Model) : Result (nat * Model) :=
  let numEvents := to_int (Z.of_nat (List.length (_eventCollection m))) in
  if (numEvents =? 0)%Z then FatalExit
  else
    let (xx, r) := uniformRv (_rng m) in
    chosen <- chosenIndex (as_double xx) numEvents ;;
    sit <- advance (Z.to_nat chosen) (_eventCollection m) ;;
    match sit with
    | [] => Undefined
    | e :: _ => Ok (e, with_rng r m)
    end.

(** Modelled from the spec: [getNumberOfEvents] is declared in the header,
    not in the source; it is the size of the Registry, as an [int]. *)
Definition getNumberOfEvents (m : Model) : Z :=
  to_int (Z.of_nat (List.length (_eventCollection m))).

(** Modelled from the spec: [BranchEvent::moveEventLocal] is not in the
    source; it saves the position for rollback, adds the step to the map
    position and re-resolves the owning node from the new coordinate. *)
Definition moveEventLocal (step : Q) (e : nat) (m : Model) : Model :=
  let old := _events m e in
  let newPos := mapTime old + step in
  with_events
    (update e (fun _ => mkBranchEvent (mapEventToTree (_tree m) newPos) newPos
                          (eventNode old) (mapTime old) (parameters old))
       (_events m)) m.

(** Modelled from the spec: [BranchEvent::moveEventGlobal] is not in the
    source; it saves the position for rollback, draws the new position
    uniformly over the whole map, independently of the old one, and
    re-resolves the owning node. *)
Definition moveEventGlobal (e : nat) (m : Model) : Model :=
  let old := _events m e in
  let (newPos, r) := uniformRvRange 0 (getTotalMapLength (_tree m)) (_rng m) in
  with_rng r
    (with_events
       (update e (fun _ => mkBranchEvent (mapEventToTree (_tree m) newPos)
                             newPos (eventNode old) (mapTime old)
                             (parameters old))
          (_events m)) m).

(** Modelled from the spec: [BranchEvent::revertOldMapPosition] is not in
    the source; it restores the saved node and map position. *)
Definition revertOldMapPosition (e : nat) (m : Model) : Model :=
  let old := _events m e in
  with_events
    (update e (fun _ => mkBranchEvent (oldEventNode old) (oldMapTime old)
                          (oldEventNode old) (oldMapTime old)
                          (parameters old))
       (_events m)) m.

(** [e->getEventNode()->getBranchHistory()->getLastEvent(e)] *)
Definition getLastEventOnBranchOf (e : nat) (m : Model) : Result EventPtr :=
  match getIndex (getEventNode (_events m e)) with
  | None => Undefined
  | Some i => Ok (getLastEventFrom e (_histories m i))
  end.

(** [Model::eventMove] *)
Definition eventMove (local : bool) (m : Model) : Result Model :=
  m' <- (if (getNumberOfEvents m >? 0)%Z then
           c <- chooseEventAtRandom m ;;
           let (chosenEvent, m1) := c in
           previousEvent <- getLastEventOnBranchOf chosenEvent m1 ;;
           let m2 := with_lastEventModified (Some chosenEvent) m1 in
           m3 <- onBranchHistory (getEventNode (_events m2 chosenEvent))
                   (popEventOffBranchHistory chosenEvent) m2 ;;
           let m4 :=
             if local then
               let (u, r) := uniformRvRange 0 (_scale m3) (_rng m3) in
               let step := u - (1 # 2) * _scale m3 in
               moveEventLocal step chosenEvent (with_rng r m3)
             else moveEventGlobal chosenEvent m3 in
           m5 <- onBranchHistory (getEventNode (_events m4 chosenEvent))
                   (addEventToBranchHistory (_events m4) chosenEvent) m4 ;;
           m6 <- forwardSetBranchHistories previousEvent m5 ;;
           forwardSetBranchHistories (Some chosenEvent) m6
         else Ok m) ;;
  Ok (setMeanBranchParameters m').

(** [Model::eventLocalMove] and [Model::eventGlobalMove] *)
Definition eventLocalMove (m : Model) : Result Model := eventMove true m.
Definition eventGlobalMove (m : Model) : Result Model := eventMove false m.

(** [Model::revertMovedEventToPrevious] *)
Definition revertMovedEventToPrevious (m : Model) : Result Model :=
  match _lastEventModified m with
  | None => Undefined
  | Some e =>
      newLastEvent <- getLastEventOnBranchOf e m ;;
      m1 <- onBranchHistory (getEventNode (_events m e))
              (popEventOffBranchHistory e) m ;;
      let m2 := revertOldMapPosition e m1 in
      m3 <- onBranchHistory (getEventNode (_events m2 e))
              (addEventToBranchHistory (_events m2) e) m2 ;;
      m4 <- forwardSetBranchHistories newLastEvent m3 ;;
      m5 <- forwardSetBranchHistories (Some e) m4 ;;
      let m6 := with_lastEventModified None m5 in
      Ok (setMeanBranchParameters m6)
  end.

(** The sum of two [int]s; an overflow is undefined. *)
Definition int_add (a b : Z) : Result Z :=
  if (INT_MIN <=? a + b)%Z && (a + b <=? INT_MAX)%Z then Ok (a + b)%Z
  else Undefined.

(** [Model::countEventsInBranchHistory] *)
Fixpoint countEventsInBranchHistory (h : nat -> BranchHistory) (p : Node)
  : Result Z :=
  match p with
  | NULL => Undefined
  | mkNode i _ _ _ lf rt =>
      let count := getNumberOfBranchEvents (h i) in
      c1 <- match lf with
            | NULL => Ok count
            | _ => n <- countEventsInBranchHistory h lf ;; int_add count n
            end ;;
      match rt with
      | NULL => Ok c1
      | _ => n <- countEventsInBranchHistory h rt ;; int_add c1 n
      end
  end.

(** ** Initializer *)

(** One record of the event-data file, as the loop body reads it. *)
Record EventRecord : Type := mkEventRecord {
  species1 : string;
  species2 : string;
  eTime : Q;
  readParameters : list Q
}.

Definition NA : string := "NA".

(** The resolution of the tree position of a record (the three-way test on
    the two species names). *)
Definition resolveEventNode (r : EventRecord) (m : Model) : Result Node :=
  if negb (String.eqb (species1 r) NA) && negb (String.eqb (species2 r) NA)
  then getNodeMRCA (_tree m) (species1 r) (species2 r)
  else if negb (String.eqb (species1 r) NA) && String.eqb (species2 r) NA
  then getNodeByName (_tree m) (species1 r)
  else FatalExit.

(** Modelled from the spec: [setRootEventWithReadParameters] is pure virtual
    in the source; it installs the parameters just read onto the Root
    Event. *)
Definition setRootEventWithReadParameters (ps : list Q) (m : Model)
  : Result Model :=
  match _rootEvent m with
  | None => Undefined
  | Some e =>
      Ok (with_events
            (update e (fun b => mkBranchEvent (eventNode b) (mapTime b)
                                  (oldEventNode b) (oldMapTime b) ps)
               (_events m)) m)
  end.

(** Modelled from the spec: [newBranchEventWithReadParameters] is pure
    virtual in the source; it allocates an event on node [x] at the given
    map position, with the parameters just read. *)
Definition newBranchEventWithReadParameters (x : Node) (newMapTime : Q)
  (ps : list Q) (m : Model) : nat * Model :=
  let e := _nextEvent m in
  (e, with_nextEvent (S e)
        (with_events
           (update e (fun _ => mkBranchEvent x newMapTime x newMapTime ps)
              (_events m)) m)).

(** The body of the reading loop of
    [Model::initializeModelFromEventDataFile], for one record. *)
Definition initializeEvent (r : EventRecord) (m : Model) : Result Model :=
  x <- resolveEventNode r m ;;
  if Node_eqb x (getRoot (_tree m)) then
    setRootEventWithReadParameters (readParameters r) m
  else
    match x with
    | NULL => Undefined
    | _ =>
        let deltaT := getTime x - eTime r in
        let newMapTime := getMapStart x + deltaT in
        let (newEvent, m1) :=
          newBranchEventWithReadParameters x newMapTime (readParameters r) m in
        m2 <- onBranchHistory (getEventNode (_events m1 newEvent))
                (addEventToBranchHistory (_events m1) newEvent) m1 ;;
        let m3 := EventSet_insert newEvent m2 in
        m4 <- forwardSetBranchHistories (Some newEvent) m3 ;;
        Ok (setMeanBranchParameters m4)
    end.

(** The passes of the reading loop over the values they work with, one
    pass of the body per element. *)
Fixpoint initializeEvents (rs : list EventRecord) (m : Model)
  : Result Model :=
  match rs with
  | [] => Ok m
  | r :: rs' => m1 <- initializeEvent r m ;; initializeEvents rs' m1
  end.

(** The values the passes of [while (inputFile)] work with, for a file
    that holds the records [r :: rs]: the stream is tested before the
    reads only, so that after the last record the body runs once more,
    and the reads that fail leave the values of the last record in
    place. *)
Definition passesOver (r : EventRecord) (rs : list EventRecord)
  : list EventRecord :=
  (r :: rs) ++ [last rs r].

(** [Model::initializeModelFromEventDataFile]: the file is the sequence of
    records it holds, or nothing when it cannot be opened.  On a file
    without records the body runs once, on two empty names and on an event
    time and parameters that were never read. *)
Definition initializeModelFromEventDataFile
  (inputFile : option (list EventRecord)) (m : Model) : Result Model :=
  match inputFile with
  | None => FatalExit
  | Some [] =>
      x <- getNodeMRCA (_tree m) EmptyString EmptyString ;; Undefined
  | Some (r :: rs) => initializeEvents (passesOver r rs) m
  end.

(** ** The tree as a data structure *)

Fixpoint indices (p : Node) : list nat :=
  match p with
  | NULL => []
  | mkNode i _ _ _ lf rt => i :: indices lf ++ indices rt
  end.

(** [nodeOf t q]: [q] is a node of the tree [t]. *)
Fixpoint nodeOf (t q : Node) : Prop :=
  match t with
  | NULL => False
  | mkNode _ _ _ _ lf rt => q = t \/ nodeOf lf q \/ nodeOf rt q
  end.

(** The ancestor links agree with the descendant links, and a node has two
    descendants or none. *)
Fixpoint linked (a : option nat) (t : Node) : Prop :=
  match t with
  | NULL => True
  | mkNode i a' _ _ lf rt =>
      a' = a /\ isNULL lf = isNULL rt /\
      linked (Some i) lf /\ linked (Some i) rt
  end.

Definition wellFormedTree (t : Node) : Prop :=
  isNULL t = false /\ linked None t /\ NoDup (indices t).

(** A node of the tree other than its root. *)
Definition properNodeOf (t q : Node) : Prop :=
  nodeOf t q /\ getIndex q <> getIndex t.

(** The tree is well formed, the coordinate lookup answers with a node
    that has an incoming branch, and the name lookups with a node of the
    tree, if any. *)
Definition wellFormed (T : Tree) : Prop :=
  wellFormedTree (getRoot T) /\
  (forall x, properNodeOf (getRoot T) (mapEventToTree T x)) /\
  (forall s1 s2 x, getNodeMRCA T s1 s2 = Ok x ->
                   x = NULL \/ nodeOf (getRoot T) x) /\
  (forall s1 x, getNodeByName T s1 = Ok x ->
                x = NULL \/ nodeOf (getRoot T) x).

(** ** The effective-event invariant *)

Definition isEmpty (b : BranchHistory) : bool :=
  match eventsOnBranch b with [] => true | _ => false end.

(** What [nodeEvent] has to be: the most-tipward event of the branch, or on
    an empty branch what the ancestor has. *)
Definition effectiveEvent (b : BranchHistory) (inherited : EventPtr)
  : EventPtr :=
  if isEmpty b then inherited else getLastEvent b.

(** The caches of the nodes of [p], whose ancestor has index [a]: every
    [ancestralNodeEvent] is the ancestor's [nodeEvent], and every
    [nodeEvent], but for the nodes set aside by [D], is the effective
    event. *)
Fixpoint cachesOk (D : nat -> Prop) (h : nat -> BranchHistory) (a : nat)
  (p : Node) : Prop :=
  match p with
  | NULL => True
  | mkNode i _ _ _ lf rt =>
      ancestralNodeEvent (h i) = nodeEvent (h a) /\
      (~ D i -> nodeEvent (h i) = effectiveEvent (h i) (nodeEvent (h a))) /\
      cachesOk D h i lf /\ cachesOk D h i rt
  end.

Definition nowhere : nat -> Prop := fun _ => False.

(** [visits h p j]: the recursive descent started at [p] reaches the node of
    index [j], through nodes with an empty branch history. *)
Fixpoint visits (h : nat -> BranchHistory) (p : Node) (j : nat) : Prop :=
  match p with
  | NULL => False
  | mkNode i _ _ _ lf rt =>
      j = i \/ (isEmpty (h i) = true /\ (visits h lf j \/ visits h rt j))
  end.

(** The caches are right at every node of the tree below the root, but for
    the nodes set aside by [D]. *)
Definition treeOk (D : nat -> Prop) (h : nat -> BranchHistory) (root : Node)
  : Prop :=
  match root with
  | NULL => False
  | mkNode r _ _ _ lf rt => cachesOk D h r lf /\ cachesOk D h r rt
  end.

(** The state of the model is consistent: the tree is well formed; the Root
    Event sits on the root and outside the Registry; every Registry event
    sits on a proper node of the tree, in that node's branch history, and
    was saved on a proper node; every event of a branch history is a
    Registry event of that node, once; events are allocated below
    [_nextEvent]; the root caches the Root Event, and the cached effective
    events are right at every other node. *)
Record ConsistentCore (T : Tree) (rootEvent : EventPtr) (reg : list nat)
  (h : nat -> BranchHistory) (ev : nat -> BranchEvent) (next : nat)
  : Prop := mkConsistentCore {
  cons_tree : wellFormed T;
  cons_root : exists re, rootEvent = Some re /\
                eventNode (ev re) = getRoot T /\
                ~ In re reg /\ (re < next)%nat;
  cons_registry : forall e, In e reg ->
                    (e < next)%nat /\
                    properNodeOf (getRoot T) (eventNode (ev e)) /\
                    properNodeOf (getRoot T) (oldEventNode (ev e)) /\
                    exists i, getIndex (eventNode (ev e)) = Some i /\
                              In e (eventsOnBranch (h i));
  cons_histories : forall i e, In e (eventsOnBranch (h i)) ->
                     In e reg /\ getIndex (eventNode (ev e)) = Some i;
  cons_nodup : forall i, NoDup (eventsOnBranch (h i));
  cons_rootCache : forall r, getIndex (getRoot T) = Some r ->
                     nodeEvent (h r) = rootEvent;
  cons_caches : treeOk nowhere h (getRoot T)
}.

Definition Consistent (m : Model) : Prop :=
  ConsistentCore (_tree m) (_rootEvent m) (_eventCollection m)
    (_histories m) (_events m) (_nextEvent m) /\
  forall e, _lastEventModified m = Some e -> In e (_eventCollection m).

(** The branch histories hold their events at strictly increasing map
    positions. *)
Fixpoint increasing (ev : nat -> BranchEvent) (l : list nat) : Prop :=
  match l with
  | [] => True
  | x :: l' =>
      (forall y, In y l' -> mapTime (ev x) < mapTime (ev y)) /\
      increasing ev l'
  end.

Definition distinctPositions (m : Model) : Prop :=
  forall i, increasing (_events m) (eventsOnBranch (_histories m i)).

(** The generator yields draws in [0,1). *)
Definition unitDraws (r : MbRandom) : Prop :=
  forall k, 0 <= draws r k /\ draws r k < 1.

(** The states the model reaches from a consistent one. *)
Inductive reachable : Model -> Prop :=
| reach_consistent m : Consistent m -> reachable m
| reach_addAt m x m' :
    reachable m -> addEventToTreeAt x m = Ok m' -> reachable m'
| reach_add m m' :
    reachable m -> addEventToTree m = Ok m' -> reachable m'
| reach_move m local m' :
    reachable m -> eventMove local m = Ok m' -> reachable m'
| reach_revert m m' :
    reachable m -> revertMovedEventToPrevious m = Ok m' -> reachable m'
| reach_initialize m r m' :
    reachable m -> initializeEvent r m = Ok m' -> reachable m'.

(** What the descent started at [p] relies on: the own event of [p], if it
    has one, is cached, and the caches below [p] are right. *)
Definition descentReady (D : nat -> Prop) (h : nat -> BranchHistory)
  (p : Node) : Prop :=
  match p with
  | NULL => True
  | mkNode i _ _ _ lf rt =>
      (isEmpty (h i) = false -> ~ D i ->
       nodeEvent (h i) = getLastEvent (h i)) /\
      cachesOk D h i lf /\ cachesOk D h i rt
  end.

(** The nodes whose [nodeEvent] a forward setting from [x], owned by
    [node], makes right: the empty nodes the descent reaches and, from an
    event of a branch, the owning node itself. *)
Definition cleanedBy (root : Node) (rootEvent : EventPtr) (x : nat)
  (node : Node) (h : nat -> BranchHistory) (j : nat) : Prop :=
  if EventPtr_eqb (Some x) rootEvent then
    (visits h (getLfDesc root) j \/ visits h (getRtDesc root) j) /\
    isEmpty (h j) = true
  else
    match node with
    | NULL => False
    | mkNode M _ _ _ lfM rtM =>
        getLastEvent (h M) = Some x /\
        (j = M \/
         ((visits h lfM j \/ visits h rtM j) /\ isEmpty (h j) = true))
    end.

(** The record a move gives the chosen event [e], in the state [m1] the
    choice left: the old position is saved, the new one is the old one plus
    the step of a local move, or a fresh draw over the whole map for a
    global move, and the owning node is looked up from it. *)
Definition movedEvent (local : bool) (m1 : Model) (e : nat) : BranchEvent :=
  let old := _events m1 e in
  let newPos :=
    if local then
      mapTime old +
      (fst (uniformRvRange 0 (_scale m1) (_rng m1)) - (1 # 2) * _scale m1)
    else fst (uniformRvRange 0 (getTotalMapLength (_tree m1)) (_rng m1)) in
  mkBranchEvent (mapEventToTree (_tree m1) newPos) newPos
    (eventNode old) (mapTime old) (parameters old).

(** The record a revert gives the event: the saved position. *)
Definition revertedEvent (m : Model) (e : nat) : BranchEvent :=
  let old := _events m e in
  mkBranchEvent (oldEventNode old) (oldMapTime old)
    (oldEventNode old) (oldMapTime old) (parameters old).

(** The indices of the nodes below the root. *)
Definition properIndices (T : Tree) : list nat :=
  indices (getLfDesc (getRoot T)) ++ indices (getRtDesc (getRoot T)).

(** ** The propagation engine, after the words of the specification *)

(** The recursive descent of the specification: the value inherited from
    the parent is handed down; a node with events of its own takes it as
    its ancestral event and stops the descent, a node without takes it as
    its effective event too and hands it to both children. *)
Fixpoint spec_propagate (inherited : EventPtr) (p : Node)
  (h : nat -> BranchHistory) : nat -> BranchHistory :=
  match p with
  | NULL => h
  | mkNode i _ _ _ lf rt =>
      let h1 := update i (setAncestralNodeEvent inherited) h in
      if isEmpty (h i) then
        spec_propagate inherited rt
          (spec_propagate inherited lf
             (update i (setNodeEvent inherited) h1))
      else h1
  end.

(** The forward setting of the specification, for an event [x] owned by
    [node], in a tree of root [root]: from the Root Event, propagate into
    both child subtrees of the root; from the most-tipward event of its
    branch, make it the effective event of the node and propagate into both
    children; from any other event, do nothing. *)
Definition spec_forwardSet (root : Node) (rootEvent : EventPtr) (x : nat)
  (node : Node) (h : nat -> BranchHistory) : nat -> BranchHistory :=
  if EventPtr_eqb (Some x) rootEvent then
    match getIndex root with
    | None => h
    | Some r =>
        spec_propagate (nodeEvent (h r)) (getRtDesc root)
          (spec_propagate (nodeEvent (h r)) (getLfDesc root) h)
    end
  else
    match getIndex node with
    | None => h
    | Some i =>
        if EventPtr_eqb (Some x) (getLastEvent (h i)) then
          spec_propagate (Some x) (getRtDesc node)
            (spec_propagate (Some x) (getLfDesc node)
               (update i (setNodeEvent (Some x)) h))
        else h
    end.

(** The events on the branches of the nodes of [p], and the operations of
    the model as steps from one state to another. *)
Fixpoint eventsBelow (h : nat -> BranchHistory) (p : Node) : list nat :=
  match p with
  | NULL => []
  | mkNode i _ _ _ lf rt =>
      eventsOnBranch (h i) ++ eventsBelow h lf ++ eventsBelow h rt
  end.

Inductive step : Model -> Model -> Prop :=
| step_addAt m x m' : addEventToTreeAt x m = Ok m' -> step m m'
| step_add m m' : addEventToTree m = Ok m' -> step m m'
| step_move m local m' : eventMove local m = Ok m' -> step m m'
| step_revert m m' : revertMovedEventToPrevious m = Ok m' -> step m m'
| step_initialize m r m' : initializeEvent r m = Ok m' -> step m m'.

Inductive steps : Model -> Model -> Prop :=
| steps_none m : steps m m
| steps_more m m1 m2 : steps m m1 -> step m1 m2 -> steps m m2.

(** A record of the event-data file that resolves to a node other than the
    root, in the tree of [m]. *)
Definition nonRootRecord (m : Model) (r : EventRecord) : bool :=
  match resolveEventNode r m with
  | Ok x => negb (Node_eqb x (getRoot (_tree m)))
  | _ => false
  end.

(** [governedBy rootEvent reg ev e n]: the event [e] can govern the node
    [n]; it is the Root Event, or a Registry event that sits on the branch
    of [n] or of a node above [n]. *)
Definition governedBy (rootEvent : EventPtr) (reg : list nat)
  (ev : nat -> BranchEvent) (e : nat) (n : Node) : Prop :=
  rootEvent = Some e \/ (In e reg /\ nodeOf (eventNode (ev e)) n).

(** ** The reach of the recursive descent, as a test

    [visitsb h p j]: the descent started at [p] calls itself on the node of
    index [j]; it goes through the nodes whose branch history is empty. *)
Fixpoint visitsb (h : nat -> BranchHistory) (p : Node) (j : nat) : bool :=
  match p with
  | NULL => false
  | mkNode i _ _ _ lf rt =>
      Nat.eqb j i || (isEmpty (h i) && (visitsb h lf j || visitsb h rt j))
  end.

(** What one call of the descent, handing down [v], writes into the record
    of the node it is called on. *)
Definition touch (v : EventPtr) (b : BranchHistory) : BranchHistory :=
  if isEmpty b then mkBranchHistory (eventsOnBranch b) v v
  else mkBranchHistory (eventsOnBranch b) (nodeEvent b) v.

(** ** The four-leaf tree of the scenario of the specification

    Root 0, internal nodes 1 (ancestor of the leaves 3 and 4) and 2
    (ancestor of the leaves 5 and 6).  The branch of node 1 takes the map
    positions below 1, that of node 2 those from 1 to 2, and the branches
    of the leaves one unit each from there on. *)

Definition leaf (i a : nat) (start : Q) : Node :=
  mkNode i (Some a) 0 start NULL NULL.

Definition nodeA : Node :=
  mkNode 1 (Some 0%nat) 1 0 (leaf 3 1 2) (leaf 4 1 3).
Definition nodeB : Node :=
  mkNode 2 (Some 0%nat) 1 1 (leaf 5 2 4) (leaf 6 2 5).
Definition rootR : Node := mkNode 0 None 2 0 nodeA nodeB.

Definition exampleMap (x : Q) : Node :=
  if Qlt_bool x 1 then nodeA
  else if Qlt_bool x 2 then nodeB
  else if Qlt_bool x 3 then leaf 3 1 2
  else if Qlt_bool x 4 then leaf 4 1 3
  else if Qlt_bool x 5 then leaf 5 2 4
  else leaf 6 2 5.

Definition exampleByName (s : string) : Result Node :=
  if String.eqb s "s1" then Ok (leaf 3 1 2)
  else if String.eqb s "s2" then Ok (leaf 4 1 3)
  else if String.eqb s "s3" then Ok (leaf 5 2 4)
  else if String.eqb s "s4" then Ok (leaf 6 2 5)
  else FatalExit.

Definition inCladeA (s : string) : bool :=
  String.eqb s "s1" || String.eqb s "s2".

Definition inCladeB (s : string) : bool :=
  String.eqb s "s3" || String.eqb s "s4".

Definition exampleMRCA (s1 s2 : string) : Result Node :=
  if inCladeA s1 && inCladeA s2 then Ok nodeA
  else if inCladeB s1 && inCladeB s2 then Ok nodeB
  else if (inCladeA s1 || inCladeB s1) && (inCladeA s2 || inCladeB s2)
  then Ok rootR
  else FatalExit.

Definition exampleTree : Tree :=
  mkTree rootR 2 6 exampleMap exampleMRCA exampleByName.

Definition exampleSettings : Settings :=
  mkSettings (1 # 10) 1 1 1 "events.txt".

(** A model with one parameter per event, the mean of a branch being the
    parameters of the event in force at its node. *)
Definition exampleSpecific : ModelSpecific :=
  mkModelSpecific
    (fun r => ([fst (uniformRv r)], snd (uniformRv r)))
    (fun h ev i =>
       match nodeEvent (h i) with
       | Some e => parameters (ev e)
       | None => []
       end).

(** A generator that alternates between 1/4 and 3/4. *)
Definition exampleRng : MbRandom :=
  mkMbRandom (fun k => if Nat.even k then 1 # 4 else 3 # 4) 0.

Definition rootRecord : BranchEvent := mkBranchEvent rootR 0 rootR 0 [1].

(** What the concrete model adds to [newModel]: the Root Event is
    allocated, at address 0. *)
Definition installRootEvent (m : Model) : Model :=
  mkModel (_rng m) (_tree m) (_settings m) (_prior m) (_gen m) (_scale m)
    (_updateEventRateScale m) (_localGlobalMoveRatio m) (_poissonRatePrior m)
    (_eventRate m) (_acceptCount m) (_rejectCount m) (_acceptLast m)
    (_lastDeletedEventMapTime m) (_eventCollection m) (Some 0%nat)
    (_lastEventModified m) (_specific m) (_histories m) (_events m)
    1%nat (_meanBranchParameters m).

(** The model without events: every node is governed by the Root Event. *)
Definition exampleStart : Model :=
  installRootEvent
    (newModel exampleRng exampleTree exampleSettings [] exampleSpecific
       (fun _ => mkBranchHistory [] (Some 0%nat) (Some 0%nat))
       (fun _ => rootRecord) (fun _ => [1])).

Definition orElse (r : Result Model) (d : Model) : Model :=
  match r with Ok m => m | _ => d end.

(** One event, of address 1, in the middle of the branch of node 1. *)
Definition oneEvent : Model :=
  orElse (addEventToTreeAt (1 # 2) exampleStart) exampleStart.

(** A second event, of address 2, on the branch of node 2. *)
Definition twoEvents : Model :=
  orElse (addEventToTreeAt (3 # 2) oneEvent) oneEvent.

(** A second event, of address 2, at the very position of the first. *)
Definition twoTied : Model :=
  orElse (addEventToTreeAt (1 # 2) oneEvent) oneEvent.

(** The first half of [addEventToTree(x)]: the new event is on its branch
    and in the Registry, and the histories are not yet set forward. *)
Definition insertedNotSet (x : Q) (m : Model) : Model :=
  let (newEvent, m1) := newBranchEventWithRandomParameters x m in
  orElse
    (m2 <- onBranchHistory (getEventNode (_events m1 newEvent))
             (addEventToBranchHistory (_events m1) newEvent) m1 ;;
     Ok (EventSet_insert newEvent m2)) m.

(** An event of address 2 put tipward of the event 1 on the branch of node
    1, before the forward setting. *)
Definition tipwardOfOne : Model := insertedNotSet (3 # 4) oneEvent.

(** An event of address 1 on the branch of the leaf 3. *)
Definition oneOnLeaf : Model :=
  orElse (addEventToTreeAt (5 # 2) exampleStart) exampleStart.

(** An event of address 2 put on the branch of node 1, above the leaf 3
    and its event, before the forward setting. *)
Definition aboveLeaf : Model := insertedNotSet (1 # 2) oneOnLeaf.

(** The two tied events after a global move, which takes the event 1 to
    the branch of the leaf 5, and after the revert of that move. *)
Definition tiedMoved : Model := orElse (eventMove false twoTied) twoTied.
Definition tiedReverted : Model :=
  orElse (revertMovedEventToPrevious tiedMoved) tiedMoved.

(** The two events at distinct positions after a global move. *)
Definition twoMoved : Model := orElse (eventMove false twoEvents) twoEvents.

(** A record with no first species, and records for the root and for a
    leaf. *)
Definition recordNoFirst : EventRecord := mkEventRecord "NA" "s2" 1 [5].
Definition recordRoot : EventRecord := mkEventRecord "s1" "s3" 2 [7].
Definition recordLeaf : EventRecord := mkEventRecord "s1" "NA" (1 # 2) [9].

(** The model without events after the record for the root was read: the
    Root Event has the parameters of the record. *)
Definition rootInstalled : Model :=
  orElse (initializeEvent recordRoot exampleStart) exampleStart.

(** The two events at distinct positions after the revert of the global
    move, and the state with one event after a local move. *)
Definition twoReverted : Model :=
  orElse (revertMovedEventToPrevious twoMoved) twoMoved.
Definition oneLocal : Model := orElse (eventMove true oneEvent) oneEvent.

(** Three events, and the draw just below 1/3, the binary64 number
    0x1.5555555555555p-2, whose product with 3 rounds to 1. *)
Definition threeEvents : Model :=
  orElse (addEventToTreeAt (5 # 2) twoEvents) twoEvents.
Definition boundaryDraw : Q := 6004799503160661 # 18014398509481984.
Definition threeAtBoundary : Model :=
  with_rng (mkMbRandom (fun _ => boundaryDraw) 0) threeEvents.

(** * Properties *)

Lemma bind_Ok_inv {A B : Type} (m : Result A) (k : A -> Result B) (b : B) :
  bind m k = Ok b -> exists a, m = Ok a /\ k a = Ok b.
Proof. destruct m; simpl; intros H; try discriminate. now exists a. Qed.

(** ** Stores and pointers *)

Lemma update_same {A : Type} (i : nat) (f : A -> A) (h : nat -> A) :
  update i f h i = f (h i).
Proof. unfold update. now rewrite Nat.eqb_refl. Qed.

Lemma update_other {A : Type} (i j : nat) (f : A -> A) (h : nat -> A) :
  j <> i -> update i f h j = h j.
Proof.
  intros Hji. unfold update.
  destruct (Nat.eqb j i) eqn:E; [apply Nat.eqb_eq in E; contradiction | easy].
Qed.

Lemma EventPtr_eqb_eq (a b : EventPtr) : EventPtr_eqb a b = true <-> a = b.
Proof.
  destruct a as [x|], b as [y|]; simpl; split; intros H;
    try discriminate; try reflexivity.
  - apply Nat.eqb_eq in H. now subst.
  - inversion H. apply Nat.eqb_refl.
Qed.

Lemma EventPtr_eqb_neq (a b : EventPtr) : EventPtr_eqb a b = false <-> a <> b.
Proof.
  split.
  - intros H E. apply EventPtr_eqb_eq in E. congruence.
  - intros H. destruct (EventPtr_eqb a b) eqn:E; [|reflexivity].
    apply EventPtr_eqb_eq in E. contradiction.
Qed.

Lemma isEmpty_count (b : BranchHistory) :
  (getNumberOfBranchEvents b =? 0)%Z = isEmpty b.
Proof.
  unfold getNumberOfBranchEvents, isEmpty.
  destruct (eventsOnBranch b); reflexivity.
Qed.

Lemma isEmpty_setAncestral (x : EventPtr) (b : BranchHistory) :
  isEmpty (setAncestralNodeEvent x b) = isEmpty b.
Proof. reflexivity. Qed.

Lemma isEmpty_setNode (x : EventPtr) (b : BranchHistory) :
  isEmpty (setNodeEvent x b) = isEmpty b.
Proof. reflexivity. Qed.

Lemma getLastEvent_empty (b : BranchHistory) :
  isEmpty b = true -> getLastEvent b = None.
Proof.
  unfold isEmpty, getLastEvent. destruct (eventsOnBranch b); [reflexivity|discriminate].
Qed.

Lemma last_map_Some (l : list nat) :
  l <> [] -> exists e, last (map Some l) None = Some e /\ In e l.
Proof.
  induction l as [|y l IH]; intros Hne; [contradiction|].
  destruct l as [|z l'].
  - exists y. simpl. auto.
  - destruct IH as [e [He Hin]]; [discriminate|].
    exists e. split; [exact He | now right].
Qed.

Lemma getLastEvent_nonempty (b : BranchHistory) :
  isEmpty b = false ->
  exists e, getLastEvent b = Some e /\ In e (eventsOnBranch b).
Proof.
  unfold isEmpty, getLastEvent. intros H.
  apply last_map_Some. destruct (eventsOnBranch b); [discriminate|discriminate].
Qed.

Lemma getLastEvent_Some (b : BranchHistory) (e : nat) :
  getLastEvent b = Some e -> isEmpty b = false /\ In e (eventsOnBranch b).
Proof.
  intros H. destruct (isEmpty b) eqn:E.
  - rewrite (getLastEvent_empty _ E) in H. discriminate.
  - split; [reflexivity|].
    destruct (getLastEvent_nonempty _ E) as [e' [H1 H2]]. congruence.
Qed.

(** ** The recursive descent *)

Lemma spec_propagate_ext (inh : EventPtr) (p : Node) :
  forall h h', (forall j, h j = h' j) ->
  forall j, spec_propagate inh p h j = spec_propagate inh p h' j.
Proof.
  induction p as [|i a t ms lf IHlf rt IHrt]; intros h h' E j; simpl; [apply E|].
  rewrite (E i). destruct (isEmpty (h' i)).
  - apply IHrt. apply IHlf. intros k. unfold update.
    destruct (Nat.eqb k i); [now rewrite E | apply E].
  - unfold update. destruct (Nat.eqb j i); [now rewrite E | apply E].
Qed.

Lemma spec_propagate_frame (inh : EventPtr) (p : Node) :
  forall h j, ~ In j (indices p) -> spec_propagate inh p h j = h j.
Proof.
  induction p as [|i a t ms lf IHlf rt IHrt]; intros h j Hj; simpl; [reflexivity|].
  simpl in Hj.
  assert (j <> i) by (intros ->; apply Hj; now left).
  assert (~ In j (indices lf)) by (intros X; apply Hj; right; apply in_or_app; now left).
  assert (~ In j (indices rt)) by (intros X; apply Hj; right; apply in_or_app; now right).
  destruct (isEmpty (h i)).
  - rewrite IHrt, IHlf by assumption. now rewrite !update_other.
  - now rewrite update_other.
Qed.

Lemma update_events (i j : nat) (f : BranchHistory -> BranchHistory) h :
  (forall b, eventsOnBranch (f b) = eventsOnBranch b) ->
  eventsOnBranch (update i f h j) = eventsOnBranch (h j).
Proof.
  intros Hf. unfold update.
  destruct (Nat.eqb j i) eqn:E; [apply Nat.eqb_eq in E; subst; apply Hf|reflexivity].
Qed.

Lemma spec_propagate_events (inh : EventPtr) (p : Node) :
  forall h j,
    eventsOnBranch (spec_propagate inh p h j) = eventsOnBranch (h j).
Proof.
  induction p as [|i a t ms lf IHlf rt IHrt]; intros h j; simpl; [reflexivity|].
  destruct (isEmpty (h i)).
  - rewrite IHrt, IHlf. now rewrite !update_events.
  - now rewrite update_events.
Qed.

Lemma spec_propagate_isEmpty (inh : EventPtr) (p : Node) h j :
  isEmpty (spec_propagate inh p h j) = isEmpty (h j).
Proof. unfold isEmpty. now rewrite spec_propagate_events. Qed.

Lemma spec_propagate_getLastEvent (inh : EventPtr) (p : Node) h j :
  getLastEvent (spec_propagate inh p h j) = getLastEvent (h j).
Proof. unfold getLastEvent. now rewrite spec_propagate_events. Qed.

Lemma NoDup_app_l {A : Type} (l1 l2 : list A) : NoDup (l1 ++ l2) -> NoDup l1.
Proof.
  induction l1 as [|x l1 IH]; simpl; intros H; [constructor|].
  inversion H; subst. constructor; [|now apply IH].
  intros X. apply H2. apply in_or_app. now left.
Qed.

Lemma NoDup_app_r {A : Type} (l1 l2 : list A) : NoDup (l1 ++ l2) -> NoDup l2.
Proof.
  induction l1 as [|x l1 IH]; simpl; intros H; [exact H|].
  inversion H; subst. now apply IH.
Qed.

Lemma NoDup_app_disjoint {A : Type} (l1 l2 : list A) (x : A) :
  NoDup (l1 ++ l2) -> In x l1 -> In x l2 -> False.
Proof.
  induction l1 as [|y l1 IH]; simpl; intros H H1 H2; [contradiction|].
  inversion H; subst. destruct H1 as [->|H1].
  - apply H4. apply in_or_app. now right.
  - now apply IH.
Qed.

(** On a linked subtree the descent of the source returns, and it computes
    what the descent of the specification computes. *)
Lemma forwardSetHistoriesRecursive_spec (p : Node) :
  forall a h, linked (Some a) p -> isNULL p = false ->
    ~ In a (indices p) -> NoDup (indices p) ->
    exists h', forwardSetHistoriesRecursive p h = Ok h' /\
               forall j, h' j = spec_propagate (nodeEvent (h a)) p h j.
Proof.
  induction p as [|i a' t ms lf IHlf rt IHrt]; intros a h L NN Ha ND;
    [discriminate|].
  simpl in L. destruct L as [-> [B [Llf Lrt]]].
  simpl in Ha, ND. inversion ND as [|? ? Hi ND']; subst.
  assert (Hai : a <> i) by (intros ->; apply Ha; now left).
  assert (Hilf : ~ In i (indices lf)) by (intros X; apply Hi, in_or_app; now left).
  assert (Hirt : ~ In i (indices rt)) by (intros X; apply Hi, in_or_app; now right).
  pose proof (NoDup_app_l _ _ ND') as NDlf.
  pose proof (NoDup_app_r _ _ ND') as NDrt.
  cbn [forwardSetHistoriesRecursive spec_propagate].
  unfold getNodeEvent. rewrite isEmpty_count, update_same, isEmpty_setAncestral.
  destruct (isEmpty (h i)) eqn:E; [|eexists; split; [reflexivity|easy]].
  set (inh := nodeEvent (h a)).
  set (h2 := update i (setNodeEvent inh) (update i (setAncestralNodeEvent inh) h)).
  assert (Hh2 : nodeEvent (h2 i) = inh) by (unfold h2; now rewrite update_same).
  destruct lf as [|il al tl ml ll rl].
  - destruct rt; [|discriminate]. simpl. eexists; split; [reflexivity|easy].
  - destruct rt as [|ir ar tr mr lr rr]; [discriminate|].
    destruct (IHlf i h2 Llf eq_refl Hilf NDlf) as [h3 [E3 P3]].
    rewrite E3. cbn [bind].
    destruct (IHrt i h3 Lrt eq_refl Hirt NDrt) as [h4 [E4 P4]].
    rewrite E4. eexists; split; [reflexivity|].
    intros j. rewrite P4.
    assert (N3 : nodeEvent (h3 i) = inh).
    { rewrite P3, spec_propagate_frame by exact Hilf. exact Hh2. }
    rewrite N3. apply spec_propagate_ext. intros k. rewrite P3. now rewrite Hh2.
Qed.

Lemma visits_in (h : nat -> BranchHistory) (p : Node) (j : nat) :
  visits h p j -> In j (indices p).
Proof.
  induction p as [|i a t ms lf IHlf rt IHrt]; simpl; [easy|].
  intros [->|[_ [H|H]]]; [now left| |]; right; apply in_or_app; auto.
Qed.

Lemma visits_mono (h h' : nat -> BranchHistory) (p : Node) (j : nat) :
  (forall k, In k (indices p) -> isEmpty (h k) = true -> isEmpty (h' k) = true) ->
  visits h p j -> visits h' p j.
Proof.
  induction p as [|i a t ms lf IHlf rt IHrt]; simpl; [easy|].
  intros Hm [->|[E [H|H]]]; [now left| |]; right.
  - split; [apply Hm; auto|]. left. apply IHlf; [|exact H].
    intros k Hk. apply Hm. right. apply in_or_app. now left.
  - split; [apply Hm; auto|]. right. apply IHrt; [|exact H].
    intros k Hk. apply Hm. right. apply in_or_app. now right.
Qed.

Lemma cachesOk_ext (D D' : nat -> Prop) (h h' : nat -> BranchHistory)
  (p : Node) :
  forall a, nodeEvent (h' a) = nodeEvent (h a) ->
    (forall j, In j (indices p) -> h' j = h j) ->
    (forall j, In j (indices p) -> D j -> D' j) ->
    cachesOk D h a p -> cachesOk D' h' a p.
Proof.
  induction p as [|i a' t ms lf IHlf rt IHrt]; intros a Ha Hh HD; simpl; [easy|].
  intros [H1 [H2 [H3 H4]]].
  assert (Ei : h' i = h i) by (apply Hh; now left).
  rewrite Ei, Ha. repeat split.
  - exact H1.
  - intros ND. apply H2. intros Di. apply ND. apply HD; [now left|exact Di].
  - apply IHlf; [now rewrite Ei | | | exact H3].
    + intros j Hj. apply Hh. right. apply in_or_app. now left.
    + intros j Hj. apply HD. right. apply in_or_app. now left.
  - apply IHrt; [now rewrite Ei | | | exact H4].
    + intros j Hj. apply Hh. right. apply in_or_app. now right.
    + intros j Hj. apply HD. right. apply in_or_app. now right.
Qed.

Lemma cachesOk_descentReady (D : nat -> Prop) (h : nat -> BranchHistory)
  (a : nat) (p : Node) :
  cachesOk D h a p -> descentReady D h p.
Proof.
  destruct p as [|i a' t ms lf rt]; simpl; [easy|].
  intros [H1 [H2 [H3 H4]]]. repeat split; try assumption.
  intros E ND. rewrite (H2 ND). unfold effectiveEvent. now rewrite E.
Qed.

Lemma descentReady_ext (D : nat -> Prop) (h h' : nat -> BranchHistory)
  (p : Node) :
  (forall j, In j (indices p) -> h' j = h j) ->
  descentReady D h p -> descentReady D h' p.
Proof.
  destruct p as [|i a' t ms lf rt]; simpl; [easy|].
  intros Hh [H1 [H2 H3]].
  assert (Ei : h' i = h i) by (apply Hh; now left).
  rewrite Ei. repeat split; [exact H1| |].
  - apply cachesOk_ext with (D := D) (h := h); [now rewrite Ei| |auto|exact H2].
    intros j Hj. apply Hh. right. apply in_or_app. now left.
  - apply cachesOk_ext with (D := D) (h := h); [now rewrite Ei| |auto|exact H3].
    intros j Hj. apply Hh. right. apply in_or_app. now right.
Qed.

(** The descent repairs the caches of the subtree it is started at: what it
    leaves to be repaired are the nodes that were so before and that it did
    not reach or that have events of their own. *)
Lemma spec_propagate_cachesOk (p : Node) :
  forall a (D D' : nat -> Prop) h,
    ~ In a (indices p) -> NoDup (indices p) ->
    descentReady D h p ->
    (forall j, In j (indices p) -> D j ->
               ~ (visits h p j /\ isEmpty (h j) = true) -> D' j) ->
    cachesOk D' (spec_propagate (nodeEvent (h a)) p h) a p.
Proof.
  induction p as [|i a' t ms lf IHlf rt IHrt]; intros a D D' h Ha ND R HD;
    [exact I|].
  simpl in Ha, ND. inversion ND as [|? ? Hi ND']; subst.
  assert (Hai : a <> i) by (intros ->; apply Ha; now left).
  assert (Hilf : ~ In i (indices lf)) by (intros X; apply Hi, in_or_app; now left).
  assert (Hirt : ~ In i (indices rt)) by (intros X; apply Hi, in_or_app; now right).
  pose proof (NoDup_app_l _ _ ND') as NDlf.
  pose proof (NoDup_app_r _ _ ND') as NDrt.
  destruct R as [R1 [R2 R3]].
  set (inh := nodeEvent (h a)).
  cbn [spec_propagate].
  destruct (isEmpty (h i)) eqn:E.
  - set (h2 := update i (setNodeEvent inh)
                 (update i (setAncestralNodeEvent inh) h)).
    assert (Hh2 : nodeEvent (h2 i) = inh) by (unfold h2; now rewrite update_same).
    assert (Hh2o : forall j, j <> i -> h2 j = h j)
      by (intros j Hj; unfold h2; now rewrite !update_other).
    assert (Hh2e : forall j, isEmpty (h2 j) = isEmpty (h j)).
    { intros j. unfold isEmpty, h2. now rewrite !update_events. }
    set (h3 := spec_propagate inh lf h2).
    assert (C3 : cachesOk D' h3 i lf).
    { unfold h3. rewrite <- Hh2. apply IHlf with (D := D); try assumption.
      - apply descentReady_ext with (h := h).
        + intros j Hj. apply Hh2o. intros ->. contradiction.
        + now apply cachesOk_descentReady with (a := i).
      - intros j Hj Dj V. apply HD; [right; apply in_or_app; now left|exact Dj|].
        intros [[->|[_ [V1|V1]]] Ej].
        + contradiction.
        + apply V. split; [|now rewrite Hh2e].
          apply visits_mono with (h := h); [|exact V1].
          intros k _ Ek. now rewrite Hh2e.
        + apply visits_in in V1. exact (NoDup_app_disjoint _ _ _ ND' Hj V1). }
    assert (Hh3i : h3 i = h2 i) by (unfold h3; now rewrite spec_propagate_frame).
    assert (Hh3rt : forall j, In j (indices rt) -> h3 j = h j).
    { intros j Hj. unfold h3. rewrite spec_propagate_frame.
      - apply Hh2o. intros ->. contradiction.
      - intros X. exact (NoDup_app_disjoint _ _ _ ND' X Hj). }
    assert (Hh3e : forall j, isEmpty (h3 j) = isEmpty (h j)).
    { intros j. unfold h3. now rewrite spec_propagate_isEmpty, Hh2e. }
    set (h4 := spec_propagate inh rt h3).
    assert (C4 : cachesOk D' h4 i rt).
    { unfold h4. replace inh with (nodeEvent (h3 i)) by (now rewrite Hh3i).
      apply IHrt with (D := D); try assumption.
      - apply descentReady_ext with (h := h); [exact Hh3rt|].
        now apply cachesOk_descentReady with (a := i).
      - intros j Hj Dj V. apply HD; [right; apply in_or_app; now right|exact Dj|].
        intros [[->|[_ [V1|V1]]] Ej].
        + contradiction.
        + apply visits_in in V1. exact (NoDup_app_disjoint _ _ _ ND' V1 Hj).
        + apply V. split; [|now rewrite Hh3e].
          apply visits_mono with (h := h); [|exact V1].
          intros k _ Ek. now rewrite Hh3e. }
    assert (Hh4i : h4 i = h2 i)
      by (unfold h4; now rewrite spec_propagate_frame, Hh3i).
    assert (Hh4a : h4 a = h a).
    { unfold h4, h3. rewrite !spec_propagate_frame.
      - now apply Hh2o.
      - intros X. apply Ha. right. apply in_or_app. now left.
      - intros X. apply Ha. right. apply in_or_app. now right. }
    cbn [cachesOk]. fold h2 h3 h4. rewrite Hh4i, Hh4a. repeat split.
    + unfold h2. rewrite !update_same. reflexivity.
    + intros _. unfold effectiveEvent. rewrite Hh2e, E. exact Hh2.
    + apply cachesOk_ext with (D := D') (h := h3); [now rewrite Hh4i, Hh3i| |auto|exact C3].
      intros j Hj. unfold h4. apply spec_propagate_frame.
      intros X. exact (NoDup_app_disjoint _ _ _ ND' Hj X).
    + exact C4.
  - set (h1 := update i (setAncestralNodeEvent inh) h).
    assert (Hh1o : forall j, j <> i -> h1 j = h j)
      by (intros j Hj; unfold h1; now rewrite update_other).
    assert (NV : forall j, j <> i -> ~ visits h (mkNode i a' t ms lf rt) j).
    { intros j Hj [->|[X _]]; [contradiction|congruence]. }
    cbn [cachesOk]. rewrite (Hh1o a Hai). unfold h1 at 1 2 3.
    rewrite update_same. repeat split.
    + intros ND1. unfold effectiveEvent. rewrite isEmpty_setAncestral, E.
      change (nodeEvent (h i) = getLastEvent (h i)). apply R1; [reflexivity|].
      intros Di. apply ND1. apply HD; [now left|exact Di|].
      intros [_ X]. congruence.
    + apply cachesOk_ext with (D := D) (h := h);
        [unfold h1; now rewrite update_same| | |exact R2].
      * intros j Hj. apply Hh1o. intros ->. contradiction.
      * intros j Hj Dj. apply HD; [right; apply in_or_app; now left|exact Dj|].
        intros [V _]. apply (NV j); [intros ->; contradiction|exact V].
    + apply cachesOk_ext with (D := D) (h := h);
        [unfold h1; now rewrite update_same| | |exact R3].
      * intros j Hj. apply Hh1o. intros ->. contradiction.
      * intros j Hj Dj. apply HD; [right; apply in_or_app; now right|exact Dj|].
        intros [V _]. apply (NV j); [intros ->; contradiction|exact V].
Qed.

(** ** Nodes of a tree *)

Lemma nodeOf_indices (t q : Node) :
  nodeOf t q -> forall j, In j (indices q) -> In j (indices t).
Proof.
  induction t as [|i a tm ms lf IHlf rt IHrt]; simpl; [easy|].
  intros [->|[H|H]] j Hj; [exact Hj| |]; right; apply in_or_app; auto.
Qed.

Lemma nodeOf_index (t q : Node) :
  nodeOf t q -> exists i, getIndex q = Some i /\ In i (indices q).
Proof.
  destruct q as [|i a tm ms lf rt].
  - induction t as [|i a tm ms lf IHlf rt IHrt]; simpl; [easy|].
    intros [H|[H|H]]; [discriminate|auto|auto].
  - intros _. exists i. simpl. auto.
Qed.

Lemma nodeOf_NoDup (t q : Node) :
  NoDup (indices t) -> nodeOf t q -> NoDup (indices q).
Proof.
  induction t as [|i a tm ms lf IHlf rt IHrt]; simpl; [easy|].
  intros ND [->|[H|H]]; [exact ND| |]; inversion ND; subst.
  - apply IHlf; [eapply NoDup_app_l; eauto|exact H].
  - apply IHrt; [eapply NoDup_app_r; eauto|exact H].
Qed.

Lemma nodeOf_linked (t q : Node) :
  forall a, linked a t -> nodeOf t q -> linked (getAnc q) q.
Proof.
  induction t as [|i a' tm ms lf IHlf rt IHrt]; simpl; [easy|].
  intros a [-> [B [L1 L2]]] [->|[H|H]].
  - simpl. auto.
  - eapply IHlf; eauto.
  - eapply IHrt; eauto.
Qed.

Lemma nodeOf_unique (t q q' : Node) :
  NoDup (indices t) -> nodeOf t q -> nodeOf t q' ->
  getIndex q = getIndex q' -> q = q'.
Proof.
  induction t as [|i a tm ms lf IHlf rt IHrt]; simpl; [easy|].
  intros ND Hq Hq' E. inversion ND as [|? ? Hi ND']; subst.
  assert (In_sub : forall s u, nodeOf s u -> getIndex u = Some i ->
                     In i (indices s)).
  { intros s u Hu Eu. destruct (nodeOf_index _ _ Hu) as [k [Ek Hk]].
    rewrite Eu in Ek. inversion Ek; subst.
    now apply (nodeOf_indices _ _ Hu). }
  assert (Cross : forall u u', nodeOf lf u -> nodeOf rt u' ->
                    getIndex u = getIndex u' -> False).
  { intros u u' Hu Hu' Eu. destruct (nodeOf_index _ _ Hu) as [k [Ek Hk]].
    destruct (nodeOf_index _ _ Hu') as [k' [Ek' Hk']].
    rewrite Ek, Ek' in Eu. inversion Eu; subst.
    apply (NoDup_app_disjoint _ _ k' ND').
    - now apply (nodeOf_indices _ _ Hu).
    - now apply (nodeOf_indices _ _ Hu'). }
  destruct Hq as [->|[Hq|Hq]], Hq' as [->|[Hq'|Hq']]; try reflexivity.
  - exfalso. apply Hi, in_or_app. left. apply (In_sub lf q'); auto.
  - exfalso. apply Hi, in_or_app. right. apply (In_sub rt q'); auto.
  - exfalso. apply Hi, in_or_app. left. apply (In_sub lf q); auto.
  - apply IHlf; auto. eapply NoDup_app_l; eauto.
  - exfalso. eapply Cross; eauto.
  - exfalso. apply Hi, in_or_app. right. apply (In_sub rt q); auto.
  - exfalso. eapply Cross; eauto.
  - apply IHrt; auto. eapply NoDup_app_r; eauto.
Qed.

Lemma nodeOf_trans (t u v : Node) : nodeOf t u -> nodeOf u v -> nodeOf t v.
Proof.
  induction t as [|i a tm ms lf IHlf rt IHrt]; simpl; [easy|].
  intros [->|[H|H]] Hv; [exact Hv| |]; right; auto.
Qed.

(** ** Forward setting repairs the caches *)

(** The two descents below a node. *)
Lemma descend_both_cachesOk (i : nat) (lf rt : Node) (D D' : nat -> Prop)
  (h : nat -> BranchHistory) :
  ~ In i (indices lf ++ indices rt) -> NoDup (indices lf ++ indices rt) ->
  descentReady D h lf -> descentReady D h rt ->
  (forall j, In j (indices lf ++ indices rt) -> D j ->
             ~ ((visits h lf j \/ visits h rt j) /\ isEmpty (h j) = true) ->
             D' j) ->
  let h' := spec_propagate (nodeEvent (h i)) rt
              (spec_propagate (nodeEvent (h i)) lf h) in
  cachesOk D' h' i lf /\ cachesOk D' h' i rt.
Proof.
  intros Hi ND Rlf Rrt HD.
  assert (Hilf : ~ In i (indices lf)) by (intros X; apply Hi, in_or_app; now left).
  assert (Hirt : ~ In i (indices rt)) by (intros X; apply Hi, in_or_app; now right).
  pose proof (NoDup_app_l _ _ ND) as NDlf.
  pose proof (NoDup_app_r _ _ ND) as NDrt.
  set (inh := nodeEvent (h i)).
  set (h3 := spec_propagate inh lf h).
  assert (C3 : cachesOk D' h3 i lf).
  { unfold h3, inh. apply spec_propagate_cachesOk with (D := D); try assumption.
    intros j Hj Dj V. apply HD; [apply in_or_app; now left|exact Dj|].
    intros [[V1|V1] Ej]; [apply V; now split|].
    apply visits_in in V1. exact (NoDup_app_disjoint _ _ _ ND Hj V1). }
  assert (Hh3i : h3 i = h i) by (unfold h3; now rewrite spec_propagate_frame).
  assert (Hh3rt : forall j, In j (indices rt) -> h3 j = h j).
  { intros j Hj. unfold h3. apply spec_propagate_frame.
    intros X. exact (NoDup_app_disjoint _ _ _ ND X Hj). }
  assert (Hh3e : forall j, isEmpty (h3 j) = isEmpty (h j))
    by (intros j; unfold h3; apply spec_propagate_isEmpty).
  intros h'. subst h'. fold inh. fold h3.
  assert (C4 : cachesOk D' (spec_propagate inh rt h3) i rt).
  { replace inh with (nodeEvent (h3 i)) by (now rewrite Hh3i).
    apply spec_propagate_cachesOk with (D := D); try assumption.
    - now apply descentReady_ext with (h := h).
    - intros j Hj Dj V. apply HD; [apply in_or_app; now right|exact Dj|].
      intros [[V1|V1] Ej].
      + apply visits_in in V1. exact (NoDup_app_disjoint _ _ _ ND V1 Hj).
      + apply V. split; [|now rewrite Hh3e].
        apply visits_mono with (h := h); [|exact V1].
        intros k _ Ek. now rewrite Hh3e. }
  split; [|exact C4].
  apply cachesOk_ext with (D := D') (h := h3); [|  |auto|exact C3].
  - now rewrite spec_propagate_frame.
  - intros j Hj. apply spec_propagate_frame.
    intros X. exact (NoDup_app_disjoint _ _ _ ND Hj X).
Qed.

(** Forward setting from the most-tipward event [x] of the node [M], seen
    from a subtree [p] that holds the node. *)
Lemma propagate_from_node_cachesOk (x M : nat) (aM : option nat) (tM sM : Q)
  (lfM rtM : Node) (p : Node) :
  forall a (D D' : nat -> Prop) h,
    ~ In a (indices p) -> NoDup (indices p) ->
    nodeOf p (mkNode M aM tM sM lfM rtM) ->
    getLastEvent (h M) = Some x ->
    cachesOk D h a p ->
    (forall j, In j (indices p) -> D j -> j <> M ->
               ~ ((visits h lfM j \/ visits h rtM j) /\ isEmpty (h j) = true) ->
               D' j) ->
    cachesOk D'
      (spec_propagate (Some x) rtM
         (spec_propagate (Some x) lfM (update M (setNodeEvent (Some x)) h)))
      a p.
Proof.
  set (Mnode := mkNode M aM tM sM lfM rtM).
  induction p as [|i a' t ms lf IHlf rt IHrt]; intros a D D' h Ha ND HM Hlast C HD;
    [exact I|].
  set (h0 := update M (setNodeEvent (Some x)) h).
  set (h' := spec_propagate (Some x) rtM (spec_propagate (Some x) lfM h0)).
  assert (Frame : forall j, ~ In j (indices Mnode) -> h' j = h j).
  { intros j Hj. unfold h'. simpl in Hj.
    rewrite !spec_propagate_frame.
    - unfold h0. apply update_other. intros ->. apply Hj. now left.
    - intros X. apply Hj. right. apply in_or_app. now left.
    - intros X. apply Hj. right. apply in_or_app. now right. }
  assert (NVis : forall j, ~ In j (indices Mnode) ->
                   ~ (visits h lfM j \/ visits h rtM j)).
  { intros j Hj [V|V]; apply visits_in in V; apply Hj; simpl; right;
      apply in_or_app; auto. }
  simpl in Ha, ND. inversion ND as [|? ? Hi ND']; subst.
  assert (Hai : a <> i) by (intros ->; apply Ha; now left).
  pose proof (NoDup_app_l _ _ ND') as NDlf.
  pose proof (NoDup_app_r _ _ ND') as NDrt.
  destruct C as [C1 [C2 [C3 C4]]].
  destruct HM as [HM|[HM|HM]].
  - (* the node itself *)
    unfold Mnode in HM. inversion HM; subst i a' t ms lf rt. clear HM.
    assert (Hh0o : forall j, j <> M -> h0 j = h j)
      by (intros j Hj; unfold h0; now rewrite update_other).
    assert (Hh0M : nodeEvent (h0 M) = Some x) by (unfold h0; now rewrite update_same).
    assert (Hh0e : forall j, isEmpty (h0 j) = isEmpty (h j)).
    { intros j. unfold isEmpty, h0. now rewrite update_events. }
    destruct (descend_both_cachesOk M lfM rtM D D' h0) as [K1 K2].
    + exact Hi.
    + exact ND'.
    + apply descentReady_ext with (h := h).
      * intros j Hj. apply Hh0o. intros ->. apply Hi, in_or_app. now left.
      * now apply cachesOk_descentReady with (a := M).
    + apply descentReady_ext with (h := h).
      * intros j Hj. apply Hh0o. intros ->. apply Hi, in_or_app. now right.
      * now apply cachesOk_descentReady with (a := M).
    + intros j Hj Dj V. apply HD; [now right|exact Dj| |].
      * intros ->. contradiction.
      * intros [V1 Ej]. apply V. split; [|now rewrite Hh0e].
        destruct V1 as [V1|V1]; [left|right];
          (apply visits_mono with (h := h); [|exact V1]);
          intros k _ Ek; now rewrite Hh0e.
    + rewrite Hh0M in K1, K2. fold h' in K1, K2.
      assert (HM' : h' M = h0 M).
      { unfold h'. rewrite !spec_propagate_frame; [reflexivity| |].
        - intros X. apply Hi, in_or_app. now left.
        - intros X. apply Hi, in_or_app. now right. }
      assert (Ha' : h' a = h a).
      { apply Frame. simpl. exact Ha. }
      cbn [cachesOk]. fold h0. fold h'. rewrite HM', Ha'. repeat split; try assumption.
      * unfold h0. rewrite update_same. exact C1.
      * intros _. rewrite Hh0M. unfold effectiveEvent. rewrite Hh0e.
        destruct (getLastEvent_Some _ _ Hlast) as [En _]. rewrite En.
        unfold h0, getLastEvent. rewrite update_events by reflexivity.
        symmetry. exact Hlast.
  - (* the node is in the left subtree *)
    assert (Sub : forall j, In j (indices Mnode) -> In j (indices lf))
      by (apply nodeOf_indices; exact HM).
    assert (HiM : ~ In i (indices Mnode))
      by (intros X; apply Hi, in_or_app; left; now apply Sub).
    assert (HaM : ~ In a (indices Mnode)).
    { intros X. apply Ha. right. apply in_or_app. left. now apply Sub. }
    cbn [cachesOk]. fold h0. fold h'.
    rewrite (Frame i HiM), (Frame a HaM). repeat split.
    + exact C1.
    + intros NDi. apply C2. intros Di. apply NDi. apply HD; [now left|exact Di| |].
      * intros ->. apply HiM. now left.
      * intros [V _]. exact (NVis i HiM V).
    + apply IHlf with (D := D); try assumption.
      * intros X. apply Hi, in_or_app. now left.
      * intros j Hj. apply HD. right. apply in_or_app. now left.
    + apply cachesOk_ext with (D := D) (h := h); [now rewrite (Frame i HiM)| | |exact C4].
      * intros j Hj. apply Frame. intros X.
        exact (NoDup_app_disjoint _ _ _ ND' (Sub j X) Hj).
      * intros j Hj Dj.
        assert (HjM : ~ In j (indices Mnode))
          by (intros X; exact (NoDup_app_disjoint _ _ _ ND' (Sub j X) Hj)).
        apply HD; [right; apply in_or_app; now right|exact Dj| |].
        -- intros ->. apply HjM. now left.
        -- intros [V _]. exact (NVis j HjM V).
  - (* the node is in the right subtree *)
    assert (Sub : forall j, In j (indices Mnode) -> In j (indices rt))
      by (apply nodeOf_indices; exact HM).
    assert (HiM : ~ In i (indices Mnode))
      by (intros X; apply Hi, in_or_app; right; now apply Sub).
    assert (HaM : ~ In a (indices Mnode)).
    { intros X. apply Ha. right. apply in_or_app. right. now apply Sub. }
    cbn [cachesOk]. fold h0. fold h'.
    rewrite (Frame i HiM), (Frame a HaM). repeat split.
    + exact C1.
    + intros NDi. apply C2. intros Di. apply NDi. apply HD; [now left|exact Di| |].
      * intros ->. apply HiM. now left.
      * intros [V _]. exact (NVis i HiM V).
    + apply cachesOk_ext with (D := D) (h := h); [now rewrite (Frame i HiM)| | |exact C3].
      * intros j Hj. apply Frame. intros X.
        exact (NoDup_app_disjoint _ _ _ ND' Hj (Sub j X)).
      * intros j Hj Dj.
        assert (HjM : ~ In j (indices Mnode))
          by (intros X; exact (NoDup_app_disjoint _ _ _ ND' Hj (Sub j X))).
        apply HD; [right; apply in_or_app; now left|exact Dj| |].
        -- intros ->. apply HjM. now left.
        -- intros [V _]. exact (NVis j HjM V).
    + apply IHrt with (D := D); try assumption.
      * intros X. apply Hi, in_or_app. now right.
      * intros j Hj. apply HD. right. apply in_or_app. now right.
Qed.

(** ** Forward setting, source against specification *)

Lemma descend_both_spec (i : nat) (lf rt : Node) :
  linked (Some i) lf -> linked (Some i) rt ->
  isNULL lf = false -> isNULL rt = false ->
  ~ In i (indices lf ++ indices rt) -> NoDup (indices lf ++ indices rt) ->
  forall h, exists h2,
    (h1 <- forwardSetHistoriesRecursive lf h ;;
     forwardSetHistoriesRecursive rt h1) = Ok h2 /\
    forall j, h2 j = spec_propagate (nodeEvent (h i)) rt
                       (spec_propagate (nodeEvent (h i)) lf h) j.
Proof.
  intros Llf Lrt Nlf Nrt Hi ND h.
  assert (Hilf : ~ In i (indices lf)) by (intros X; apply Hi, in_or_app; now left).
  assert (Hirt : ~ In i (indices rt)) by (intros X; apply Hi, in_or_app; now right).
  destruct (forwardSetHistoriesRecursive_spec lf i h Llf Nlf Hilf
              (NoDup_app_l _ _ ND)) as [h1 [E1 P1]].
  destruct (forwardSetHistoriesRecursive_spec rt i h1 Lrt Nrt Hirt
              (NoDup_app_r _ _ ND)) as [h2 [E2 P2]].
  exists h2. rewrite E1. cbn [bind]. split; [exact E2|].
  intros j. rewrite P2.
  assert (N1 : nodeEvent (h1 i) = nodeEvent (h i))
    by (now rewrite P1, spec_propagate_frame).
  rewrite N1. apply spec_propagate_ext. exact P1.
Qed.

Lemma with_histories_same (m : Model) : with_histories (_histories m) m = m.
Proof. destruct m. reflexivity. Qed.

(** The entry point of the forward setting computes the function that the
    words of the specification describe, [spec_forwardSet]. *)
Lemma forwardSetBranchHistories_refines (m : Model) (e : nat) :
  wellFormedTree (getRoot (_tree m)) ->
  nodeOf (getRoot (_tree m)) (eventNode (_events m e)) ->
  (_rootEvent m = Some e ->
   eventNode (_events m e) = getRoot (_tree m) /\
   isNULL (getLfDesc (getRoot (_tree m))) = false) ->
  exists h',
    forwardSetBranchHistories (Some e) m = Ok (with_histories h' m) /\
    forall j, h' j = spec_forwardSet (getRoot (_tree m)) (_rootEvent m) e
                       (eventNode (_events m e)) (_histories m) j.
Proof.
  intros [NN [L ND]] HN HR.
  unfold forwardSetBranchHistories, spec_forwardSet, getEventNode.
  pose proof (nodeOf_linked _ _ _ L HN) as Lq.
  pose proof (nodeOf_NoDup _ _ ND HN) as NDq.
  destruct (eventNode (_events m e)) as [|i a t ms lf rt] eqn:Eq.
  { destruct (nodeOf_index _ _ HN) as [k [Ek _]]. discriminate. }
  simpl in Lq. destruct Lq as [_ [B [Llf Lrt]]].
  simpl in NDq. inversion NDq as [|? ? Hi ND']; subst.
  destruct (EventPtr_eqb (Some e) (_rootEvent m)) eqn:ER.
  - apply EventPtr_eqb_eq in ER. symmetry in ER.
    destruct (HR ER) as [Eroot Hlf]. rewrite <- Eroot in *. simpl in Hlf.
    cbn [getIndex getLfDesc getRtDesc].
    assert (Hrt : isNULL rt = false) by congruence.
    destruct (descend_both_spec i lf rt Llf Lrt Hlf Hrt Hi ND' (_histories m))
      as [h2 [E2 P2]].
    exists h2. split; [|exact P2].
    destruct (forwardSetHistoriesRecursive lf (_histories m)) as [h1| |];
      cbn [bind] in *; try discriminate.
    rewrite E2. reflexivity.
  - cbn [getIndex getLfDesc getRtDesc].
    destruct (EventPtr_eqb (Some e) (getLastEvent (_histories m i))) eqn:EL.
    + set (h0 := update i (setNodeEvent (Some e)) (_histories m)).
      destruct (isNULL lf) eqn:Hlf.
      * assert (Hrt : isNULL rt = true) by congruence.
        destruct lf; [|discriminate]. destruct rt; [|discriminate].
        cbn [negb andb spec_propagate]. exists h0. split; reflexivity.
      * assert (Hrt : isNULL rt = false) by congruence.
        rewrite Hrt. cbn [negb andb].
        destruct (descend_both_spec i lf rt Llf Lrt Hlf Hrt Hi ND' h0)
          as [h2 [E2 P2]].
        exists h2. split.
        -- destruct (forwardSetHistoriesRecursive lf h0) as [h1| |];
             cbn [bind] in *; try discriminate.
           rewrite E2. reflexivity.
        -- intros j. rewrite P2.
           assert (N0 : nodeEvent (h0 i) = Some e)
             by (unfold h0; now rewrite update_same).
           rewrite N0. reflexivity.
    + exists (_histories m). split; [|reflexivity].
      now rewrite with_histories_same.
Qed.

(** C3.  On a well-formed tree, [forwardSetBranchHistories] returns and does
    what the specification says: from the Root Event it descends into both
    children of the root; from the most-tipward event of its branch it makes
    the event the [nodeEvent] of the owning node and descends into both
    children, if the node has any; from any other event it changes nothing.
    The descent hands the parent's [nodeEvent] down: a visited node takes it
    as its [ancestralNodeEvent], and, its branch being empty, as its
    [nodeEvent] too before the descent goes on to its children, while a
    node with events of its own stops the descent. *)
Theorem forwardSetBranchHistories_as_specified (m : Model) (e : nat) :
  wellFormedTree (getRoot (_tree m)) ->
  nodeOf (getRoot (_tree m)) (eventNode (_events m e)) ->
  (_rootEvent m = Some e ->
   eventNode (_events m e) = getRoot (_tree m) /\
   isNULL (getLfDesc (getRoot (_tree m))) = false) ->
  exists h',
    forwardSetBranchHistories (Some e) m = Ok (with_histories h' m) /\
    forall j, h' j = spec_forwardSet (getRoot (_tree m)) (_rootEvent m) e
                       (eventNode (_events m e)) (_histories m) j.
Proof. exact (forwardSetBranchHistories_refines m e). Qed.

(** ** The ordered container of a branch *)

Lemma In_insertByMapTime ev x l y :
  In y (insertByMapTime ev x l) <-> y = x \/ In y l.
Proof.
  induction l as [|z l IH]; simpl.
  - split; [intros [H|[]]; auto | intros [H|[]]; auto].
  - destruct (Qlt_bool (mapTime (ev x)) (mapTime (ev z))); simpl.
    + split; intros [H|H]; auto.
    + rewrite IH. split; [intros [H|[H|H]]|intros [H|[H|H]]]; auto.
Qed.

Lemma In_eraseEvent_incl x l y : In y (eraseEvent x l) -> In y l.
Proof.
  induction l as [|z l IH]; simpl; [easy|].
  destruct (Nat.eqb z x); simpl; [auto|]. intros [H|H]; auto.
Qed.

Lemma In_eraseEvent_other x l y :
  y <> x -> In y l -> In y (eraseEvent x l).
Proof.
  induction l as [|z l IH]; simpl; [easy|]. intros Hy [->|H].
  - destruct (Nat.eqb y x) eqn:E; [apply Nat.eqb_eq in E; contradiction|now left].
  - destruct (Nat.eqb z x); [exact H|right; auto].
Qed.

Lemma eraseEvent_notin x l : ~ In x l -> eraseEvent x l = l.
Proof.
  induction l as [|z l IH]; simpl; [easy|]. intros H.
  destruct (Nat.eqb z x) eqn:E.
  - apply Nat.eqb_eq in E. exfalso. apply H. now left.
  - f_equal. apply IH. intros X. apply H. now right.
Qed.

Lemma NoDup_eraseEvent x l : NoDup l -> NoDup (eraseEvent x l).
Proof.
  induction l as [|z l IH]; simpl; [easy|]. intros ND.
  inversion ND as [|? ? Hz ND']; subst.
  destruct (Nat.eqb z x); [exact ND'|].
  constructor; [|auto]. intros X. apply Hz. eapply In_eraseEvent_incl; eauto.
Qed.

Lemma eraseEvent_removes x l : NoDup l -> ~ In x (eraseEvent x l).
Proof.
  induction l as [|z l IH]; simpl; [easy|]. intros ND.
  inversion ND as [|? ? Hz ND']; subst.
  destruct (Nat.eqb z x) eqn:E.
  - apply Nat.eqb_eq in E. now subst.
  - intros [->|H]; [rewrite Nat.eqb_refl in E; discriminate|].
    now apply IH.
Qed.

Lemma NoDup_insertByMapTime ev x l :
  NoDup l -> ~ In x l -> NoDup (insertByMapTime ev x l).
Proof.
  induction l as [|z l IH]; simpl; intros ND Hx.
  - constructor; [easy|constructor].
  - destruct (Qlt_bool (mapTime (ev x)) (mapTime (ev z))).
    + constructor; assumption.
    + inversion ND as [|? ? Hz ND']; subst. constructor.
      * rewrite In_insertByMapTime. intros [->|H]; [apply Hx; now left|contradiction].
      * apply IH; [exact ND'|]. intros X. apply Hx. now right.
Qed.

Lemma eraseEvent_insertByMapTime ev x l :
  ~ In x l -> eraseEvent x (insertByMapTime ev x l) = l.
Proof.
  induction l as [|z l IH]; simpl; intros Hx.
  - now rewrite Nat.eqb_refl.
  - destruct (Qlt_bool (mapTime (ev x)) (mapTime (ev z))); simpl.
    + now rewrite Nat.eqb_refl.
    + destruct (Nat.eqb z x) eqn:E.
      * apply Nat.eqb_eq in E. exfalso. apply Hx. now left.
      * f_equal. apply IH. intros X. apply Hx. now right.
Qed.

Lemma insertByMapTime_ext ev ev' x l :
  mapTime (ev' x) = mapTime (ev x) ->
  (forall y, In y l -> mapTime (ev' y) = mapTime (ev y)) ->
  insertByMapTime ev' x l = insertByMapTime ev x l.
Proof.
  intros Hx. induction l as [|z l IH]; simpl; intros Hl; [reflexivity|].
  rewrite Hx, (Hl z) by now left.
  destruct (Qlt_bool (mapTime (ev x)) (mapTime (ev z))); [reflexivity|].
  f_equal. apply IH. intros y Hy. apply Hl. now right.
Qed.

Lemma last_cons_nonempty (z : nat) (l : list nat) :
  l <> [] -> last (map Some (z :: l)) None = last (map Some l) None.
Proof. destruct l; [contradiction|reflexivity]. Qed.

Lemma last_insertByMapTime ev x l :
  last (map Some (insertByMapTime ev x l)) None = Some x \/
  (l <> [] /\
   last (map Some (insertByMapTime ev x l)) None = last (map Some l) None).
Proof.
  induction l as [|z l IH]; simpl insertByMapTime; [now left|].
  destruct (Qlt_bool (mapTime (ev x)) (mapTime (ev z))).
  - right. split; [discriminate|]. apply last_cons_nonempty. discriminate.
  - assert (NE : insertByMapTime ev x l <> []).
    { destruct l; simpl; [discriminate|].
      destruct (Qlt_bool _ _); discriminate. }
    rewrite (last_cons_nonempty z _ NE).
    destruct IH as [IH|[Hl IH]]; [now left|].
    right. split; [discriminate|].
    rewrite IH. symmetry. now apply last_cons_nonempty.
Qed.

Lemma last_eraseEvent_other e z l :
  last (map Some l) None = Some z -> z <> e ->
  last (map Some (eraseEvent e l)) None = Some z.
Proof.
  induction l as [|y l IH]; simpl eraseEvent; [easy|]. intros HL Hz.
  destruct l as [|w l'].
  - simpl in HL. inversion HL; subst.
    destruct (Nat.eqb z e) eqn:E; [apply Nat.eqb_eq in E; contradiction|reflexivity].
  - rewrite last_cons_nonempty in HL by discriminate.
    destruct (Nat.eqb y e); [exact HL|].
    specialize (IH HL Hz).
    assert (NE : eraseEvent e (w :: l') <> []).
    { intros X. rewrite X in IH. discriminate. }
    now rewrite last_cons_nonempty.
Qed.

Lemma eraseEvent_empty e l : In e l -> eraseEvent e l = [] -> l = [e].
Proof.
  destruct l as [|y l]; simpl; [easy|]. intros Hin.
  destruct (Nat.eqb y e) eqn:E; [|discriminate].
  apply Nat.eqb_eq in E. now intros ->; subst.
Qed.

(** The event before [e] on its branch, when [e] is not the first one. *)
Lemma eventBefore_found e l :
  forall y, In e l -> NoDup (y :: l) ->
    exists f, eventBefore y e l = Some f /\ In f (y :: l) /\ f <> e.
Proof.
  induction l as [|z l IH]; intros y Hin ND; [contradiction|].
  simpl. inversion ND as [|? ? Hy ND']; subst.
  destruct (Nat.eqb z e) eqn:E.
  - apply Nat.eqb_eq in E. subst z. exists y. repeat split; [now left|].
    intros ->. apply Hy. now left.
  - destruct Hin as [->|Hin]; [rewrite Nat.eqb_refl in E; discriminate|].
    destruct (IH z Hin ND') as [f [E1 [E2 E3]]].
    exists f. repeat split; [exact E1|now right|exact E3].
Qed.

Lemma eventBefore_last e l :
  forall y, NoDup (y :: l) -> last (map Some (y :: l)) None = Some e ->
    y <> e ->
    eventBefore y e l = last (map Some (eraseEvent e (y :: l))) None.
Proof.
  induction l as [|z l IH]; intros y ND HL Hy.
  - simpl in HL. inversion HL. contradiction.
  - rewrite last_cons_nonempty in HL by discriminate.
    inversion ND as [|? ? Hyl ND']; subst.
    cbn [eventBefore eraseEvent].
    destruct (Nat.eqb y e) eqn:Ey; [apply Nat.eqb_eq in Ey; contradiction|].
    destruct (Nat.eqb z e) eqn:Ez.
    + apply Nat.eqb_eq in Ez. subst z.
      destruct l as [|w l']; [reflexivity|].
      exfalso. rewrite last_cons_nonempty in HL by discriminate.
      inversion ND' as [|? ? He _]; subst. apply He.
      destruct (last_map_Some (w :: l')) as [x [Hx Hin]]; [discriminate|].
      rewrite HL in Hx. inversion Hx; subst. exact Hin.
    + assert (Hz : z <> e) by (intros ->; rewrite Nat.eqb_refl in Ez; discriminate).
      rewrite (IH z ND' HL Hz). cbn [eraseEvent]. rewrite Ez.
      symmetry. apply last_cons_nonempty.
      destruct l as [|w l']; [simpl in HL; inversion HL; contradiction|].
      simpl. destruct (Nat.eqb w e); discriminate.
Qed.

Lemma getLastEventFrom_last e b :
  NoDup (eventsOnBranch b) -> getLastEvent b = Some e ->
  eraseEvent e (eventsOnBranch b) <> [] ->
  getLastEventFrom e b =
  last (map Some (eraseEvent e (eventsOnBranch b))) None.
Proof.
  unfold getLastEvent, getLastEventFrom.
  destruct (eventsOnBranch b) as [|y l]; [easy|]. intros ND HL NE.
  destruct (Nat.eqb y e) eqn:E.
  - apply Nat.eqb_eq in E. subst y. exfalso.
    destruct l as [|w l'].
    + simpl in NE. rewrite Nat.eqb_refl in NE. now apply NE.
    + rewrite last_cons_nonempty in HL by discriminate.
      inversion ND as [|? ? He _]; subst. apply He.
      destruct (last_map_Some (w :: l')) as [x [Hx Hin]]; [discriminate|].
      rewrite HL in Hx. inversion Hx; subst. exact Hin.
  - apply eventBefore_last; auto.
    intros ->. rewrite Nat.eqb_refl in E. discriminate.
Qed.

(** The event that [getLastEvent(e)] answers with is on the branch before
    [e], or it is the ancestral event of the branch. *)
Lemma getLastEventFrom_cases e b :
  In e (eventsOnBranch b) -> NoDup (eventsOnBranch b) ->
  (exists f, getLastEventFrom e b = Some f /\ In f (eventsOnBranch b) /\
             f <> e) \/
  getLastEventFrom e b = ancestralNodeEvent b.
Proof.
  unfold getLastEventFrom.
  destruct (eventsOnBranch b) as [|y l]; [easy|]. intros Hin ND.
  destruct (Nat.eqb y e) eqn:E; [now right|]. left.
  destruct Hin as [->|Hin]; [rewrite Nat.eqb_refl in E; discriminate|].
  now apply eventBefore_found.
Qed.

(** ** Where an inherited event comes from *)

(** In a subtree with right caches, the ancestral event of a node is what
    the subtree inherits, the node being within reach of a descent started
    at the top, or it is the most-tipward event of a node above it, within
    reach of a descent started below that node. *)
Lemma inherit_source (h : nat -> BranchHistory) (p : Node) :
  forall a N, cachesOk nowhere h a p -> In N (indices p) ->
    (visits h p N /\ ancestralNodeEvent (h N) = nodeEvent (h a)) \/
    (exists A aA tA sA lfA rtA,
        nodeOf p (mkNode A aA tA sA lfA rtA) /\ isEmpty (h A) = false /\
        ancestralNodeEvent (h N) = getLastEvent (h A) /\
        (visits h lfA N \/ visits h rtA N)).
Proof.
  induction p as [|i a' t ms lf IHlf rt IHrt]; intros a N C HN; [contradiction|].
  destruct C as [C1 [C2 [C3 C4]]].
  assert (C2' : nodeEvent (h i) = effectiveEvent (h i) (nodeEvent (h a)))
    by (apply C2; intros []).
  assert (Step : forall c, (c = lf \/ c = rt) ->
            (visits h c N /\ ancestralNodeEvent (h N) = nodeEvent (h i)) \/
            (exists A aA tA sA lfA rtA,
               nodeOf c (mkNode A aA tA sA lfA rtA) /\ isEmpty (h A) = false /\
               ancestralNodeEvent (h N) = getLastEvent (h A) /\
               (visits h lfA N \/ visits h rtA N)) ->
            (visits h (mkNode i a' t ms lf rt) N /\
             ancestralNodeEvent (h N) = nodeEvent (h a)) \/
            (exists A aA tA sA lfA rtA,
               nodeOf (mkNode i a' t ms lf rt) (mkNode A aA tA sA lfA rtA) /\
               isEmpty (h A) = false /\
               ancestralNodeEvent (h N) = getLastEvent (h A) /\
               (visits h lfA N \/ visits h rtA N))).
  { intros c Hc [[V E]|[A [aA [tA [sA [lfA [rtA [H1 H2]]]]]]]].
    - unfold effectiveEvent in C2'. destruct (isEmpty (h i)) eqn:Ei.
      + left. split; [|congruence]. simpl. right. split; [exact Ei|].
        destruct Hc; subst c; auto.
      + right. exists i, a', t, ms, lf, rt. repeat split.
        * simpl. now left.
        * exact Ei.
        * congruence.
        * destruct Hc; subst c; auto.
    - right. exists A, aA, tA, sA, lfA, rtA. split; [|exact H2].
      simpl. destruct Hc; subst c; auto. }
  simpl in HN. destruct HN as [->|HN].
  - left. split; [simpl; now left|exact C1].
  - apply in_app_or in HN. destruct HN as [HN|HN].
    + apply (Step lf); [now left|]. now apply IHlf.
    + apply (Step rt); [now right|]. now apply IHrt.
Qed.

(** A descent that reached a node reaches it still, after a node [N']
    stopped being empty, or is stopped at [N'], above the node. *)
Lemma visits_transfer (h h2 : nat -> BranchHistory) (N' : nat) (q : Node) :
  (forall k, k <> N' -> isEmpty (h k) = true -> isEmpty (h2 k) = true) ->
  NoDup (indices q) ->
  forall N, visits h q N ->
    visits h2 q N \/
    (exists a' t' s' lf' rt',
        nodeOf q (mkNode N' a' t' s' lf' rt') /\ isEmpty (h N') = true /\
        (visits h2 lf' N \/ visits h2 rt' N)).
Proof.
  intros Hm. induction q as [|i a t ms lf IHlf rt IHrt]; intros ND N V;
    [contradiction|].
  simpl in ND. inversion ND as [|? ? Hi ND']; subst.
  pose proof (NoDup_app_l _ _ ND') as NDlf.
  pose proof (NoDup_app_r _ _ ND') as NDrt.
  simpl in V. destruct V as [->|[Ei V]]; [left; simpl; now left|].
  destruct (Nat.eq_dec i N') as [->|Hne].
  - right. exists a, t, ms, lf, rt. split; [simpl; now left|]. split; [exact Ei|].
    destruct V as [V|V]; [left|right];
      (apply visits_mono with (h := h); [|exact V]);
      intros k Hk; apply Hm; intros ->; apply Hi, in_or_app; auto.
  - pose proof (Hm i Hne Ei) as Ei2.
    destruct V as [V|V].
    + destruct (IHlf NDlf N V) as [V2|[a1 [t1 [s1 [l1 [r1 [H1 H2]]]]]]].
      * left. simpl. right. auto.
      * right. exists a1, t1, s1, l1, r1. split; [simpl; auto|exact H2].
    + destruct (IHrt NDrt N V) as [V2|[a1 [t1 [s1 [l1 [r1 [H1 H2]]]]]]].
      * left. simpl. right. auto.
      * right. exists a1, t1, s1, l1, r1. split; [simpl; auto|exact H2].
Qed.

(** ** Forward setting on the whole tree *)

Lemma spec_forwardSet_events root re x node h j :
  eventsOnBranch (spec_forwardSet root re x node h j) = eventsOnBranch (h j).
Proof.
  unfold spec_forwardSet.
  destruct (EventPtr_eqb (Some x) re).
  - destruct (getIndex root); [|reflexivity]. now rewrite !spec_propagate_events.
  - destruct (getIndex node) as [i|]; [|reflexivity].
    destruct (EventPtr_eqb (Some x) (getLastEvent (h i))); [|reflexivity].
    rewrite !spec_propagate_events. now rewrite update_events.
Qed.

Lemma spec_forwardSet_ext root re x node h h' :
  (forall j, h j = h' j) ->
  forall j, spec_forwardSet root re x node h j
            = spec_forwardSet root re x node h' j.
Proof.
  intros E j. unfold spec_forwardSet.
  destruct (EventPtr_eqb (Some x) re).
  - destruct (getIndex root) as [r|]; [|apply E]. rewrite (E r).
    apply spec_propagate_ext. now apply spec_propagate_ext.
  - destruct (getIndex node) as [i|]; [|apply E]. rewrite (E i).
    destruct (EventPtr_eqb (Some x) (getLastEvent (h' i))); [|apply E].
    apply spec_propagate_ext. apply spec_propagate_ext.
    intros k. unfold update. destruct (Nat.eqb k i); [now rewrite E|apply E].
Qed.

Lemma properNodeOf_child (r : nat) (ar : option nat) (tr mr : Q)
  (lfR rtR node : Node) :
  properNodeOf (mkNode r ar tr mr lfR rtR) node ->
  nodeOf lfR node \/ nodeOf rtR node.
Proof.
  intros [[->|H] Hne]; [exfalso; now apply Hne|exact H].
Qed.

Lemma treeOk_weaken (D D' : nat -> Prop) h h' root :
  (forall j, h' j = h j) -> (forall j, D j -> D' j) ->
  treeOk D h root -> treeOk D' h' root.
Proof.
  intros Hh HD. destruct root as [|r ar tr mr lfR rtR]; [easy|].
  intros [C1 C2]. split;
    (apply cachesOk_ext with (D := D) (h := h);
       [now rewrite Hh|intros; apply Hh|intros; now apply HD|assumption]).
Qed.

(** What a forward setting leaves to be repaired is what was so before and
    what it does not make right. *)
Lemma spec_forwardSet_treeOk (root : Node) (re : EventPtr) (x : nat)
  (node : Node) (D D' : nat -> Prop) (h : nat -> BranchHistory) :
  wellFormedTree root ->
  (EventPtr_eqb (Some x) re = false -> properNodeOf root node) ->
  treeOk D h root ->
  (forall j, D j -> ~ cleanedBy root re x node h j -> D' j) ->
  treeOk D' (spec_forwardSet root re x node h) root.
Proof.
  intros [NN [L ND]] HP T HD.
  destruct root as [|r ar tr mr lfR rtR]; [discriminate|].
  simpl in ND. inversion ND as [|? ? Hr ND']; subst.
  destruct T as [T1 T2].
  unfold spec_forwardSet, cleanedBy in *.
  destruct (EventPtr_eqb (Some x) re) eqn:ER.
  - cbn [getIndex getLfDesc getRtDesc treeOk] in *.
    apply descend_both_cachesOk with (D := D); try assumption.
    + now apply cachesOk_descentReady with (a := r).
    + now apply cachesOk_descentReady with (a := r).
    + intros j _ Dj V. apply HD; [exact Dj|exact V].
  - specialize (HP eq_refl). pose proof (properNodeOf_child _ _ _ _ _ _ _ HP) as HC.
    destruct HP as [HN Hne].
    destruct node as [|M aM tM sM lfM rtM].
    { destruct (nodeOf_index _ _ HN) as [k [Ek _]]. discriminate. }
    cbn [getIndex getLfDesc getRtDesc].
    assert (HMr : M <> r) by (intros ->; now apply Hne).
    destruct (EventPtr_eqb (Some x) (getLastEvent (h M))) eqn:EL.
    + apply EventPtr_eqb_eq in EL. symmetry in EL.
      set (Mnode := mkNode M aM tM sM lfM rtM) in *.
      set (h' := spec_propagate (Some x) rtM
                   (spec_propagate (Some x) lfM
                      (update M (setNodeEvent (Some x)) h))).
      assert (Frame : forall j, ~ In j (indices Mnode) -> h' j = h j).
      { intros j Hj. unfold h'. simpl in Hj.
        rewrite !spec_propagate_frame.
        - apply update_other. intros ->. apply Hj. now left.
        - intros X. apply Hj. right. apply in_or_app. now left.
        - intros X. apply Hj. right. apply in_or_app. now right. }
      assert (NVis : forall j, ~ In j (indices Mnode) ->
                   ~ (visits h lfM j \/ visits h rtM j)).
      { intros j Hj [V|V]; apply visits_in in V; apply Hj; simpl; right;
          apply in_or_app; auto. }
      assert (Side : forall c c', nodeOf c Mnode ->
                (forall k, In k (indices c) -> In k (indices c') -> False) ->
                ~ In r (indices c) ->
                cachesOk D h r c' -> cachesOk D' h' r c').
      { intros c c' Hc Dis Hrc C.
        pose proof (nodeOf_indices _ _ Hc) as Sub.
        apply cachesOk_ext with (D := D) (h := h); [| | |exact C].
        - f_equal. apply Frame. intros X. apply Hrc. now apply Sub.
        - intros j Hj. apply Frame. intros X. exact (Dis j (Sub j X) Hj).
        - intros j Hj Dj.
          assert (HjM : ~ In j (indices Mnode))
            by (intros X; exact (Dis j (Sub j X) Hj)).
          apply HD; [exact Dj|]. intros [_ [->|[V _]]].
          + apply HjM. now left.
          + exact (NVis j HjM V). }
      assert (Main : forall c, nodeOf c Mnode -> ~ In r (indices c) ->
                NoDup (indices c) -> cachesOk D h r c -> cachesOk D' h' r c).
      { intros c Hc Hrc NDc C.
        apply propagate_from_node_cachesOk with (aM := aM) (tM := tM) (sM := sM)
          (D := D); try assumption.
        intros j Hj Dj HjM V. apply HD; [exact Dj|].
        intros [_ [X|X]]; [contradiction|now apply V]. }
      cbn [treeOk]. destruct HC as [HC|HC].
      * split.
        -- apply Main; auto.
           ++ intros X. apply Hr, in_or_app. now left.
           ++ eapply NoDup_app_l; eauto.
        -- apply (Side lfR rtR); auto.
           ++ intros k K1 K2. exact (NoDup_app_disjoint _ _ _ ND' K1 K2).
           ++ intros X. apply Hr, in_or_app. now left.
      * split.
        -- apply (Side rtR lfR); auto.
           ++ intros k K1 K2. exact (NoDup_app_disjoint _ _ _ ND' K2 K1).
           ++ intros X. apply Hr, in_or_app. now right.
        -- apply Main; auto.
           ++ intros X. apply Hr, in_or_app. now right.
           ++ eapply NoDup_app_r; eauto.
    + apply EventPtr_eqb_neq in EL.
      apply treeOk_weaken with (D := D) (h := h); [reflexivity| |split; assumption].
      intros j Dj. apply HD; [exact Dj|]. intros [X _]. apply EL. now rewrite X.
Qed.

Lemma cachesOk_relist (D : nat -> Prop) (h h2 : nat -> BranchHistory)
  (p : Node) :
  forall a,
    (forall j, nodeEvent (h2 j) = nodeEvent (h j)) ->
    (forall j, ancestralNodeEvent (h2 j) = ancestralNodeEvent (h j)) ->
    (forall j, In j (indices p) -> ~ D j ->
               isEmpty (h2 j) = isEmpty (h j) /\
               getLastEvent (h2 j) = getLastEvent (h j)) ->
    cachesOk nowhere h a p -> cachesOk D h2 a p.
Proof.
  induction p as [|i a' t ms lf IHlf rt IHrt]; intros a Hn Ha Hl; simpl; [easy|].
  intros [C1 [C2 [C3 C4]]]. repeat split.
  - now rewrite Ha, Hn.
  - intros NDi. destruct (Hl i (or_introl eq_refl) NDi) as [E1 E2].
    unfold effectiveEvent. rewrite E1, E2, !Hn. apply C2. intros [].
  - apply IHlf; auto. intros j Hj. apply Hl. right. apply in_or_app. now left.
  - apply IHrt; auto. intros j Hj. apply Hl. right. apply in_or_app. now right.
Qed.

Lemma treeOk_relist (D : nat -> Prop) (h h2 : nat -> BranchHistory)
  (root : Node) :
  (forall j, nodeEvent (h2 j) = nodeEvent (h j)) ->
  (forall j, ancestralNodeEvent (h2 j) = ancestralNodeEvent (h j)) ->
  (forall j, ~ D j ->
             isEmpty (h2 j) = isEmpty (h j) /\
             getLastEvent (h2 j) = getLastEvent (h j)) ->
  treeOk nowhere h root -> treeOk D h2 root.
Proof.
  intros Hn Ha Hl. destruct root as [|r ar tr mr lfR rtR]; [easy|].
  intros [C1 C2]. split; apply cachesOk_relist with (h := h); auto.
Qed.

Lemma spec_forwardSet_at_root (root : Node) (re : EventPtr) (x : nat)
  (node : Node) (h : nat -> BranchHistory) (r : nat) :
  wellFormedTree root -> getIndex root = Some r ->
  (EventPtr_eqb (Some x) re = false -> properNodeOf root node) ->
  spec_forwardSet root re x node h r = h r.
Proof.
  intros [NN [L ND]] Hr HP.
  destruct root as [|r' ar tr mr lfR rtR]; [discriminate|].
  simpl in Hr. inversion Hr; subst r'.
  simpl in ND. inversion ND as [|? ? Hi ND']; subst.
  unfold spec_forwardSet. destruct (EventPtr_eqb (Some x) re).
  - cbn [getIndex getLfDesc getRtDesc]. rewrite !spec_propagate_frame; auto.
    + intros X. apply Hi, in_or_app. now left.
    + intros X. apply Hi, in_or_app. now right.
  - specialize (HP eq_refl).
    pose proof (properNodeOf_child _ _ _ _ _ _ _ HP) as HC.
    destruct HP as [HN Hne].
    destruct node as [|M aM tM sM lfM rtM]; [reflexivity|].
    cbn [getIndex getLfDesc getRtDesc].
    destruct (EventPtr_eqb (Some x) (getLastEvent (h M))); [|reflexivity].
    assert (HrM : ~ In r (indices (mkNode M aM tM sM lfM rtM))).
    { intros X. apply Hi, in_or_app.
      destruct HC as [HC|HC]; [left|right]; exact (nodeOf_indices _ _ HC r X). }
    simpl in HrM. rewrite !spec_propagate_frame.
    + apply update_other. intros ->. apply HrM. now left.
    + intros X. apply HrM. right. apply in_or_app. now left.
    + intros X. apply HrM. right. apply in_or_app. now right.
Qed.

Lemma In_insertEventSet x l y :
  In y (insertEventSet x l) <-> y = x \/ In y l.
Proof.
  induction l as [|z l IH]; simpl.
  - split; [intros [H|[]]; auto | intros [H|[]]; auto].
  - destruct (Nat.ltb x z); [simpl; split; intros [H|H]; auto|].
    destruct (Nat.eqb x z) eqn:E.
    + apply Nat.eqb_eq in E. subst. simpl. split; [auto|intros [H|H]; auto].
    + simpl. rewrite IH. split; [intros [H|[H|H]]|intros [H|[H|H]]]; auto.
Qed.

Lemma events_update_add ev e N' h j :
  eventsOnBranch (update N' (addEventToBranchHistory ev e) h j) =
  if Nat.eqb j N' then insertByMapTime ev e (eventsOnBranch (h N'))
  else eventsOnBranch (h j).
Proof. unfold update. destruct (Nat.eqb j N'); reflexivity. Qed.

Lemma events_update_pop e N h j :
  eventsOnBranch (update N (popEventOffBranchHistory e) h j) =
  if Nat.eqb j N then eraseEvent e (eventsOnBranch (h N))
  else eventsOnBranch (h j).
Proof. unfold update. destruct (Nat.eqb j N); reflexivity. Qed.

Lemma nodeEvent_update_add ev e N' h j :
  nodeEvent (update N' (addEventToBranchHistory ev e) h j) = nodeEvent (h j).
Proof.
  unfold update. destruct (Nat.eqb j N') eqn:E; [|reflexivity].
  apply Nat.eqb_eq in E. now subst.
Qed.

Lemma ancestral_update_add ev e N' h j :
  ancestralNodeEvent (update N' (addEventToBranchHistory ev e) h j)
  = ancestralNodeEvent (h j).
Proof.
  unfold update. destruct (Nat.eqb j N') eqn:E; [|reflexivity].
  apply Nat.eqb_eq in E. now subst.
Qed.

Lemma nodeEvent_update_pop e N h j :
  nodeEvent (update N (popEventOffBranchHistory e) h j) = nodeEvent (h j).
Proof.
  unfold update. destruct (Nat.eqb j N) eqn:E; [|reflexivity].
  apply Nat.eqb_eq in E. now subst.
Qed.

Lemma ancestral_update_pop e N h j :
  ancestralNodeEvent (update N (popEventOffBranchHistory e) h j)
  = ancestralNodeEvent (h j).
Proof.
  unfold update. destruct (Nat.eqb j N) eqn:E; [|reflexivity].
  apply Nat.eqb_eq in E. now subst.
Qed.

(** ** Insertion of a new event keeps the state consistent *)

Lemma insert_fresh_core (T : Tree) (re : EventPtr) (reg : list nat)
  (h : nat -> BranchHistory) (ev : nat -> BranchEvent) (nxt : nat)
  (be : BranchEvent) (N' : nat) :
  ConsistentCore T re reg h ev nxt ->
  properNodeOf (getRoot T) (eventNode be) ->
  oldEventNode be = eventNode be ->
  getIndex (eventNode be) = Some N' ->
  let ev' := update nxt (fun _ => be) ev in
  let h1 := update N' (addEventToBranchHistory ev' nxt) h in
  forall h2,
    (forall j, h2 j = spec_forwardSet (getRoot T) re nxt (eventNode be) h1 j) ->
    ConsistentCore T re (insertEventSet nxt reg) h2 ev' (S nxt).
Proof.
  intros [WT [re0 [Ere [Enode [Hre Hlt]]]] F3 F4 F5 F6 F7] HP Hold HN' ev' h1 h2 Hh2.
  pose proof WT as [WTree _].
  set (e := nxt) in *.
  assert (He_reg : ~ In e reg) by (intros X; destruct (F3 e X) as [X1 _]; unfold e in X1; lia).
  assert (He_hist : forall i, ~ In e (eventsOnBranch (h i)))
    by (intros i X; apply He_reg; now apply (F4 i e)).
  assert (He_re : e <> re0) by (unfold e; lia).
  assert (Hev_e : ev' e = be) by (unfold ev'; now rewrite update_same).
  assert (Hev_o : forall y, y <> e -> ev' y = ev y)
    by (intros y Hy; unfold ev'; now rewrite update_other).
  assert (Hne_re : EventPtr_eqb (Some e) re = false).
  { apply EventPtr_eqb_neq. rewrite Ere. intros X. inversion X. contradiction. }
  assert (Hl2 : forall j, eventsOnBranch (h2 j) = eventsOnBranch (h1 j))
    by (intros j; now rewrite Hh2, spec_forwardSet_events).
  assert (Hl1 : forall j, eventsOnBranch (h1 j) =
            if Nat.eqb j N' then insertByMapTime ev' e (eventsOnBranch (h N'))
            else eventsOnBranch (h j))
    by (intros j; apply events_update_add).
  constructor.
  - exact WT.
  - exists re0. repeat split; auto.
    + rewrite Hev_o by auto. exact Enode.
    + rewrite In_insertEventSet. intros [X|X]; [now apply He_re|contradiction].
  - intros y Hy. apply In_insertEventSet in Hy. destruct Hy as [->|Hy].
    + rewrite Hev_e. split; [unfold e; lia|]. split; [exact HP|].
      split; [now rewrite Hold|].
      exists N'. split; [exact HN'|]. rewrite Hl2, Hl1, Nat.eqb_refl.
      apply In_insertByMapTime. now left.
    + assert (Hye : y <> e) by (intros ->; contradiction).
      destruct (F3 y Hy) as [Y1 [Y2 [Y3 [i [Y4 Y5]]]]].
      rewrite Hev_o by auto. split; [lia|]. split; [exact Y2|].
      split; [exact Y3|].
      exists i. split; [exact Y4|]. rewrite Hl2, Hl1.
      destruct (Nat.eqb i N') eqn:E; [|exact Y5].
      apply Nat.eqb_eq in E. subst i. apply In_insertByMapTime. now right.
  - intros i y. rewrite Hl2, Hl1.
    destruct (Nat.eqb i N') eqn:E.
    + apply Nat.eqb_eq in E. subst i. rewrite In_insertByMapTime.
      intros [->|Hy].
      * rewrite Hev_e. split; [|exact HN']. apply In_insertEventSet. now left.
      * assert (Hye : y <> e) by (intros ->; now apply (He_hist N')).
        destruct (F4 N' y Hy) as [Y1 Y2]. rewrite Hev_o by auto.
        split; [|exact Y2]. apply In_insertEventSet. now right.
    + intros Hy. assert (Hye : y <> e) by (intros ->; now apply (He_hist i)).
      destruct (F4 i y Hy) as [Y1 Y2]. rewrite Hev_o by auto.
      split; [|exact Y2]. apply In_insertEventSet. now right.
  - intros i. rewrite Hl2, Hl1. destruct (Nat.eqb i N'); [|apply F5].
    apply NoDup_insertByMapTime; [apply F5|apply He_hist].
  - intros r Hr. rewrite Hh2, spec_forwardSet_at_root; auto.
    unfold h1. rewrite nodeEvent_update_add. now apply F6.
  - apply treeOk_weaken with (D := nowhere)
      (h := spec_forwardSet (getRoot T) re e (eventNode be) h1); auto.
    apply spec_forwardSet_treeOk with
      (D := fun j => j = N' /\ getLastEvent (h1 N') = Some e); auto.
    + apply treeOk_relist with (h := h); auto.
      * intros j. apply nodeEvent_update_add.
      * intros j. apply ancestral_update_add.
      * intros j NDj. unfold isEmpty, getLastEvent. rewrite Hl1.
        destruct (Nat.eqb j N') eqn:E; [|auto].
        apply Nat.eqb_eq in E. subst j.
        destruct (last_insertByMapTime ev' e (eventsOnBranch (h N')))
          as [X|[X1 X2]].
        -- exfalso. apply NDj. split; [reflexivity|].
           unfold getLastEvent. rewrite Hl1, Nat.eqb_refl. exact X.
        -- split; [|exact X2].
           destruct (eventsOnBranch (h N')) as [|z l]; [contradiction|].
           simpl. destruct (Qlt_bool _ _); reflexivity.
    + intros j [-> Hlast] NC. apply NC. unfold cleanedBy. rewrite Hne_re.
      destruct (eventNode be) as [|M aM tM sM lfM rtM]; [discriminate|].
      simpl in HN'. inversion HN'; subst M. split; [exact Hlast|now left].
Qed.

(** ** Relocation of an event keeps the state consistent *)

Section Relocate.

Variables (T : Tree) (re : EventPtr) (reg : list nat)
          (h : nat -> BranchHistory) (ev : nat -> BranchEvent) (nxt : nat).
Hypothesis Core : ConsistentCore T re reg h ev nxt.

Variables (r : nat) (ar : option nat) (tr mr : Q) (lfR rtR : Node).
Hypothesis Hroot : getRoot T = mkNode r ar tr mr lfR rtR.

Variable re0 : nat.
Hypothesis Hre : re = Some re0.

(** The event [e], on the node of index [N], is given the record [be],
    which puts it on the node of index [N']. *)
Variables (e : nat) (be : BranchEvent) (N N' : nat).
Hypothesis He : In e reg.
Hypothesis HN : getIndex (eventNode (ev e)) = Some N.
Hypothesis HP : properNodeOf (getRoot T) (eventNode be).
Hypothesis HPold : properNodeOf (getRoot T) (oldEventNode be).
Hypothesis HN' : getIndex (eventNode be) = Some N'.

Let ev' := update e (fun _ => be) ev.
Let h1 := update N (popEventOffBranchHistory e) h.
Let h2 := update N' (addEventToBranchHistory ev' e) h1.

Lemma reloc_wf : wellFormedTree (mkNode r ar tr mr lfR rtR).
Proof. rewrite <- Hroot. destruct Core as [[W _] _ _ _ _ _ _]. exact W. Qed.

Lemma reloc_root_facts :
  ~ In r (indices lfR ++ indices rtR) /\ NoDup (indices lfR ++ indices rtR)
  /\ linked (Some r) lfR /\ linked (Some r) rtR /\ isNULL lfR = isNULL rtR.
Proof.
  destruct reloc_wf as [_ [L ND]]. simpl in L, ND.
  inversion ND; subst. destruct L as [_ [B [L1 L2]]]. auto.
Qed.

Lemma reloc_re0 : eventNode (ev re0) = getRoot T /\ ~ In re0 reg.
Proof.
  destruct Core as [_ [x [E1 [E2 [E3 _]]]] _ _ _ _ _].
  rewrite Hre in E1. inversion E1; subst. auto.
Qed.

Lemma reloc_e_not_root : e <> re0.
Proof. intros ->. destruct reloc_re0 as [_ X]. contradiction. Qed.

Lemma reloc_e_on_N : In e (eventsOnBranch (h N)).
Proof.
  destruct (cons_registry _ _ _ _ _ _ Core e He) as [_ [_ [_ [i [E1 E2]]]]].
  rewrite HN in E1. inversion E1; subst. exact E2.
Qed.

Lemma reloc_on_branch i y :
  In y (eventsOnBranch (h i)) ->
  In y reg /\ getIndex (eventNode (ev y)) = Some i /\
  properNodeOf (getRoot T) (eventNode (ev y)) /\ y <> re0.
Proof.
  intros Hy. destruct (cons_histories _ _ _ _ _ _ Core i y Hy) as [Y1 Y2].
  destruct (cons_registry _ _ _ _ _ _ Core y Y1) as [_ [Y3 _]].
  repeat split; try assumption; try apply Y3.
  intros ->. destruct reloc_re0 as [_ X]. contradiction.
Qed.

Lemma reloc_e_only_on_N i : In e (eventsOnBranch (h i)) -> i = N.
Proof.
  intros Hy. destruct (reloc_on_branch i e Hy) as [_ [Y _]].
  rewrite HN in Y. now inversion Y.
Qed.

Lemma reloc_ev'_e : ev' e = be.
Proof. unfold ev'. now rewrite update_same. Qed.

Lemma reloc_ev'_other y : y <> e -> ev' y = ev y.
Proof. intros Hy. unfold ev'. now rewrite update_other. Qed.

Lemma reloc_lists1 j :
  eventsOnBranch (h1 j) =
  if Nat.eqb j N then eraseEvent e (eventsOnBranch (h N))
  else eventsOnBranch (h j).
Proof. apply events_update_pop. Qed.

Lemma reloc_lists2 j :
  eventsOnBranch (h2 j) =
  if Nat.eqb j N' then insertByMapTime ev' e (eventsOnBranch (h1 N'))
  else eventsOnBranch (h1 j).
Proof. apply events_update_add. Qed.

Lemma reloc_nodeEvent2 j : nodeEvent (h2 j) = nodeEvent (h j).
Proof.
  unfold h2, h1. now rewrite nodeEvent_update_add, nodeEvent_update_pop.
Qed.

Lemma reloc_ancestral2 j :
  ancestralNodeEvent (h2 j) = ancestralNodeEvent (h j).
Proof.
  unfold h2, h1. now rewrite ancestral_update_add, ancestral_update_pop.
Qed.

Lemma reloc_e_not_on1 j : ~ In e (eventsOnBranch (h1 j)).
Proof.
  rewrite reloc_lists1. destruct (Nat.eqb j N) eqn:E.
  - apply eraseEvent_removes. apply (cons_nodup _ _ _ _ _ _ Core).
  - intros X. apply reloc_e_only_on_N in X. subst.
    rewrite Nat.eqb_refl in E. discriminate.
Qed.

Lemma reloc_In1 j y :
  In y (eventsOnBranch (h1 j)) <-> y <> e /\ In y (eventsOnBranch (h j)).
Proof.
  split.
  - intros Hy. split; [intros ->; now apply (reloc_e_not_on1 j)|].
    rewrite reloc_lists1 in Hy. destruct (Nat.eqb j N) eqn:E; [|exact Hy].
    apply Nat.eqb_eq in E. subst. eapply In_eraseEvent_incl; eauto.
  - intros [Hy1 Hy2]. rewrite reloc_lists1.
    destruct (Nat.eqb j N) eqn:E; [|exact Hy2].
    apply Nat.eqb_eq in E. subst. now apply In_eraseEvent_other.
Qed.

Lemma reloc_In2 j y :
  In y (eventsOnBranch (h2 j)) <->
  (y = e /\ j = N') \/ (y <> e /\ In y (eventsOnBranch (h j))).
Proof.
  rewrite reloc_lists2. destruct (Nat.eqb j N') eqn:E.
  - apply Nat.eqb_eq in E. subst j.
    rewrite In_insertByMapTime, reloc_In1. tauto.
  - rewrite reloc_In1. split; [tauto|].
    intros [[_ ->]|X]; [rewrite Nat.eqb_refl in E; discriminate|exact X].
Qed.

Lemma reloc_empty_mono k :
  k <> N' -> isEmpty (h k) = true -> isEmpty (h2 k) = true.
Proof.
  intros Hk. unfold isEmpty. rewrite reloc_lists2.
  destruct (Nat.eqb k N') eqn:E; [apply Nat.eqb_eq in E; contradiction|].
  rewrite reloc_lists1.
  destruct (Nat.eqb k N) eqn:E2; [|auto].
  apply Nat.eqb_eq in E2. subst k.
  destruct (eventsOnBranch (h N)); [reflexivity|discriminate].
Qed.

Lemma reloc_N_child :
  In N (indices lfR) \/ In N (indices rtR).
Proof.
  destruct (cons_registry _ _ _ _ _ _ Core e He) as [_ [Y _]].
  rewrite Hroot in Y.
  destruct (properNodeOf_child _ _ _ _ _ _ _ Y) as [C|C];
    [left|right]; destruct (nodeOf_index _ _ C) as [k [E1 E2]];
    rewrite HN in E1; inversion E1; subst;
    exact (nodeOf_indices _ _ C _ E2).
Qed.

Lemma reloc_root_has_children : isNULL lfR = false /\ isNULL rtR = false.
Proof.
  destruct reloc_root_facts as [_ [_ [_ [_ B]]]].
  destruct reloc_N_child as [C|C].
  - destruct lfR; [contradiction|]. simpl in B. split; [reflexivity|congruence].
  - destruct rtR; [contradiction|]. simpl in B. split; [congruence|reflexivity].
Qed.

Lemma reloc_treeOk : treeOk nowhere h (mkNode r ar tr mr lfR rtR).
Proof. rewrite <- Hroot. apply (cons_caches _ _ _ _ _ _ Core). Qed.

(** Where the ancestral event of the node of [e] comes from. *)
Lemma reloc_ancestral_source :
  (ancestralNodeEvent (h N) = re /\ (visits h lfR N \/ visits h rtR N)) \/
  (exists A aA tA sA lfA rtA f,
      properNodeOf (getRoot T) (mkNode A aA tA sA lfA rtA) /\
      getLastEvent (h A) = Some f /\
      ancestralNodeEvent (h N) = Some f /\
      (visits h lfA N \/ visits h rtA N) /\ A <> N).
Proof.
  destruct reloc_root_facts as [Hr [ND _]].
  destruct reloc_treeOk as [C1 C2].
  assert (Hrc : nodeEvent (h r) = re).
  { apply (cons_rootCache _ _ _ _ _ _ Core). now rewrite Hroot. }
  assert (Step : forall c, (c = lfR \/ c = rtR) -> cachesOk nowhere h r c ->
            In N (indices c) ->
            (ancestralNodeEvent (h N) = re /\
             (visits h lfR N \/ visits h rtR N)) \/
            (exists A aA tA sA lfA rtA f,
               properNodeOf (getRoot T) (mkNode A aA tA sA lfA rtA) /\
               getLastEvent (h A) = Some f /\
               ancestralNodeEvent (h N) = Some f /\
               (visits h lfA N \/ visits h rtA N) /\ A <> N)).
  { intros c Hc C HNc.
    destruct (inherit_source h c r N C HNc)
      as [[V E]|[A [aA [tA [sA [lfA [rtA [H1 [H2 [H3 H4]]]]]]]]]].
    - left. split; [congruence|]. destruct Hc; subst c; auto.
    - right. destruct (getLastEvent_nonempty _ H2) as [f [F1 F2]].
      exists A, aA, tA, sA, lfA, rtA, f.
      assert (HA : In A (indices c))
        by (apply (nodeOf_indices _ _ H1); simpl; now left).
      assert (NDA : NoDup (indices (mkNode A aA tA sA lfA rtA))).
      { apply nodeOf_NoDup with (t := c); [|exact H1].
        destruct Hc; subst c; [eapply NoDup_app_l|eapply NoDup_app_r]; eauto. }
      split; [|split; [exact F1|split; [congruence|split; [exact H4|]]]].
      + split.
        * rewrite Hroot. simpl. right. destruct Hc; subst c; auto.
        * rewrite Hroot. simpl. intros X. inversion X; subst.
          apply Hr, in_or_app. destruct Hc; subst c; auto.
      + simpl in NDA. inversion NDA as [|? ? HAn _]; subst.
        intros ->. apply HAn, in_or_app.
        destruct H4 as [V|V]; apply visits_in in V; auto. }
  destruct reloc_N_child as [HNc|HNc].
  - apply (Step lfR); auto.
  - apply (Step rtR); auto.
Qed.

(** The event forward setting is first done from exists: it is the Root
    Event or a Registry event other than [e]. *)
Lemma reloc_previous :
  exists pe, getLastEventFrom e (h N) = Some pe /\ pe <> e /\
             (pe = re0 \/
              (In pe reg /\ properNodeOf (getRoot T) (eventNode (ev pe)))).
Proof.
  destruct (getLastEventFrom_cases e (h N) reloc_e_on_N
              (cons_nodup _ _ _ _ _ _ Core N)) as [[f [F1 [F2 F3]]]|F].
  - exists f. split; [exact F1|]. split; [exact F3|]. right.
    destruct (reloc_on_branch N f F2) as [Y1 [_ [Y2 _]]]. auto.
  - rewrite F.
    destruct reloc_ancestral_source
      as [[E _]|[A [aA [tA [sA [lfA [rtA [f [H1 [H2 [H3 [H4 H5]]]]]]]]]]]].
    + exists re0. split; [congruence|]. split; [|now left].
      intros X. symmetry in X. now apply reloc_e_not_root.
    + exists f. split; [exact H3|].
      destruct (getLastEvent_Some _ _ H2) as [_ Hin].
      destruct (reloc_on_branch A f Hin) as [Y1 [_ [Y2 _]]].
      split; [|right; auto].
      intros ->. apply H5. now apply reloc_e_only_on_N.
Qed.

Lemma reloc_erase_keeps_last :
  getLastEvent (h N) <> Some e ->
  last (map Some (eraseEvent e (eventsOnBranch (h N)))) None
  = getLastEvent (h N) /\
  isEmpty (h N) = false /\ eraseEvent e (eventsOnBranch (h N)) <> [].
Proof.
  intros Hne. pose proof reloc_e_on_N as Hin.
  assert (E : isEmpty (h N) = false).
  { unfold isEmpty. destruct (eventsOnBranch (h N)); [contradiction|reflexivity]. }
  destruct (getLastEvent_nonempty _ E) as [z [Z1 Z2]].
  assert (Hz : z <> e) by (intros ->; contradiction).
  pose proof (last_eraseEvent_other e z _ Z1 Hz) as K.
  split; [now rewrite K, Z1|]. split; [exact E|].
  intros X. rewrite X in K. discriminate.
Qed.

(** What the two forward settings have to repair. *)
Definition relocDirty (j : nat) : Prop :=
  (j = N' /\ getLastEvent (h2 N') = Some e) \/
  (j = N /\ getLastEvent (h N) = Some e).

Lemma reloc_unchanged j :
  ~ relocDirty j ->
  isEmpty (h2 j) = isEmpty (h j) /\ getLastEvent (h2 j) = getLastEvent (h j).
Proof.
  intros ND.
  assert (K1 : forall l, l <> [] ->
             match insertByMapTime ev' e l with [] => true | _ => false end
             = match l with [] => true | _ => false end).
  { intros l Hl. destruct l as [|z l]; [contradiction|].
    simpl. destruct (Qlt_bool _ _); reflexivity. }
  assert (K2 : forall j', j' = N -> getLastEvent (h N) <> Some e ->
             isEmpty (h1 j') = isEmpty (h j') /\
             getLastEvent (h1 j') = getLastEvent (h j')).
  { intros j' -> Hne. destruct (reloc_erase_keeps_last Hne) as [X1 [X2 X3]].
    unfold isEmpty at 1. unfold getLastEvent at 1.
    rewrite reloc_lists1, Nat.eqb_refl, X1, X2. split; [|reflexivity].
    destruct (eraseEvent e (eventsOnBranch (h N))); [contradiction|reflexivity]. }
  assert (K3 : forall j', (j' = N -> getLastEvent (h N) <> Some e) ->
             isEmpty (h1 j') = isEmpty (h j') /\
             getLastEvent (h1 j') = getLastEvent (h j')).
  { intros j' Hj. destruct (Nat.eq_dec j' N) as [E|E]; [now apply K2; auto|].
    unfold isEmpty, getLastEvent. rewrite reloc_lists1.
    destruct (Nat.eqb j' N) eqn:E'; [apply Nat.eqb_eq in E'; contradiction|auto]. }
  assert (HjN : j = N -> getLastEvent (h N) <> Some e).
  { intros -> X. apply ND. right. auto. }
  destruct (K3 j HjN) as [X1 X2]. rewrite <- X1, <- X2.
  unfold isEmpty, getLastEvent. rewrite reloc_lists2.
  destruct (Nat.eqb j N') eqn:E; [|auto].
  apply Nat.eqb_eq in E. subst j.
  destruct (last_insertByMapTime ev' e (eventsOnBranch (h1 N'))) as [X|[Y1 Y2]].
  - exfalso. apply ND. left. split; [reflexivity|].
    unfold getLastEvent. now rewrite reloc_lists2, Nat.eqb_refl.
  - split; [now apply K1|exact Y2].
Qed.

Lemma reloc_treeOk2 : treeOk relocDirty h2 (mkNode r ar tr mr lfR rtR).
Proof.
  apply treeOk_relist with (h := h).
  - apply reloc_nodeEvent2.
  - apply reloc_ancestral2.
  - apply reloc_unchanged.
  - apply reloc_treeOk.
Qed.

Lemma cleanedBy_ext root rootEvent x node (g g' : nat -> BranchHistory) j :
  (forall k, eventsOnBranch (g' k) = eventsOnBranch (g k)) ->
  cleanedBy root rootEvent x node g j -> cleanedBy root rootEvent x node g' j.
Proof.
  intros El.
  assert (Ee : forall k, isEmpty (g' k) = isEmpty (g k))
    by (intros k; unfold isEmpty; now rewrite El).
  assert (Eg : forall k, getLastEvent (g' k) = getLastEvent (g k))
    by (intros k; unfold getLastEvent; now rewrite El).
  assert (Ev : forall q k, visits g q k -> visits g' q k).
  { intros q k. apply visits_mono. intros k' _ X. now rewrite Ee. }
  unfold cleanedBy. destruct (EventPtr_eqb (Some x) rootEvent).
  - rewrite Ee. intros [[V|V] E]; split; auto.
  - destruct node as [|M aM tM sM lfM rtM]; [easy|].
    rewrite Eg, Ee. intros [L [X|[[V|V] E]]]; split; auto.
Qed.

Lemma reloc_e_not_rootEvent : EventPtr_eqb (Some e) re = false.
Proof.
  apply EventPtr_eqb_neq. rewrite Hre. intros X. inversion X.
  now apply reloc_e_not_root.
Qed.

(** A descent stopped at the new node of [e] is taken up by the forward
    setting from [e]. *)
Lemma reloc_blocked (a1 : option nat) (t1 s1 : Q) (l1 r1 : Node) :
  nodeOf (getRoot T) (mkNode N' a1 t1 s1 l1 r1) ->
  isEmpty (h N') = true -> N <> N' ->
  (visits h2 l1 N \/ visits h2 r1 N) -> isEmpty (h2 N) = true ->
  cleanedBy (getRoot T) re e (eventNode be) h2 N.
Proof.
  intros Hn Em Hne V E2.
  assert (Eq : eventNode be = mkNode N' a1 t1 s1 l1 r1).
  { apply nodeOf_unique with (t := getRoot T).
    - rewrite Hroot. apply reloc_wf.
    - apply HP.
    - exact Hn.
    - rewrite HN'. reflexivity. }
  unfold cleanedBy. rewrite reloc_e_not_rootEvent, Eq. split; [|right; auto].
  unfold getLastEvent. rewrite reloc_lists2, Nat.eqb_refl, reloc_lists1.
  destruct (Nat.eqb N' N) eqn:E; [apply Nat.eqb_eq in E; congruence|].
  unfold isEmpty in Em. destruct (eventsOnBranch (h N')); [reflexivity|discriminate].
Qed.

(** The node of [e], left empty, is reached from a node that reached it
    before, by one of the two forward settings. *)
Lemma reloc_reach (q : nat) (aq : option nat) (tq sq : Q) (lq rq : Node) :
  nodeOf (getRoot T) (mkNode q aq tq sq lq rq) ->
  (visits h lq N \/ visits h rq N) -> N <> N' ->
  eraseEvent e (eventsOnBranch (h N)) = [] ->
  ((visits h2 lq N \/ visits h2 rq N) /\ isEmpty (h2 N) = true) \/
  cleanedBy (getRoot T) re e (eventNode be) h2 N.
Proof.
  intros Hq V Hne Er.
  assert (E2 : isEmpty (h2 N) = true).
  { unfold isEmpty. rewrite reloc_lists2.
    destruct (Nat.eqb N N') eqn:E; [apply Nat.eqb_eq in E; contradiction|].
    now rewrite reloc_lists1, Nat.eqb_refl, Er. }
  assert (NDq : NoDup (indices (mkNode q aq tq sq lq rq))).
  { apply nodeOf_NoDup with (t := getRoot T); [|exact Hq].
    rewrite Hroot. apply reloc_wf. }
  simpl in NDq. apply NoDup_cons_iff in NDq. destruct NDq as [_ NDc].
  assert (Step : forall c, (c = lq \/ c = rq) -> NoDup (indices c) ->
            visits h c N ->
            visits h2 c N \/ cleanedBy (getRoot T) re e (eventNode be) h2 N).
  { intros c Hc NDc' Vc.
    destruct (visits_transfer h h2 N' c reloc_empty_mono NDc' N Vc)
      as [V2|[a1 [t1 [s1 [l1 [r1 [H1 [H2 H3]]]]]]]]; [now left|].
    right. apply reloc_blocked with (a1 := a1) (t1 := t1) (s1 := s1)
      (l1 := l1) (r1 := r1); auto.
    assert (Hq' : nodeOf (mkNode q aq tq sq lq rq) (mkNode N' a1 t1 s1 l1 r1))
      by (simpl; right; destruct Hc; subst c; auto).
    exact (nodeOf_trans _ _ _ Hq Hq'). }
  destruct V as [V|V].
  - destruct (Step lq (or_introl eq_refl) (NoDup_app_l _ _ NDc) V) as [X|X];
      [left|right]; auto.
  - destruct (Step rq (or_intror eq_refl) (NoDup_app_r _ _ NDc) V) as [X|X];
      [left|right]; auto.
Qed.

Lemma reloc_cleaned_new :
  getLastEvent (h2 N') = Some e ->
  cleanedBy (getRoot T) re e (eventNode be) h2 N'.
Proof.
  intros HL. unfold cleanedBy. rewrite reloc_e_not_rootEvent.
  destruct (eventNode be) as [|M aM tM sM lfM rtM]; [discriminate|].
  simpl in HN'. inversion HN' as [E]. split; [exact HL|now left].
Qed.

Lemma reloc_last2_cases :
  getLastEvent (h2 N') = Some e \/
  (eventsOnBranch (h1 N') <> [] /\
   getLastEvent (h2 N') = getLastEvent (h1 N')).
Proof.
  unfold getLastEvent. rewrite reloc_lists2, Nat.eqb_refl.
  apply last_insertByMapTime.
Qed.

Lemma reloc_node_of_event y i :
  In y (eventsOnBranch (h i)) -> y <> e ->
  exists a1 t1 s1 l1 r1, eventNode (ev' y) = mkNode i a1 t1 s1 l1 r1 /\
    EventPtr_eqb (Some y) re = false.
Proof.
  intros Hy Hne. destruct (reloc_on_branch i y Hy) as [_ [Y1 [_ Y2]]].
  rewrite reloc_ev'_other by exact Hne.
  destruct (eventNode (ev y)) as [|M a1 t1 s1 l1 r1]; [discriminate|].
  simpl in Y1. inversion Y1 as [E]. exists a1, t1, s1, l1, r1.
  split; [reflexivity|]. apply EventPtr_eqb_neq. rewrite Hre.
  intros X. inversion X. contradiction.
Qed.

(** Every node the relocation left to be repaired is made right by one of
    the two forward settings. *)
Lemma reloc_cleaned (pe : nat) :
  getLastEventFrom e (h N) = Some pe ->
  forall j, relocDirty j ->
    cleanedBy (getRoot T) re pe (eventNode (ev' pe)) h2 j \/
    cleanedBy (getRoot T) re e (eventNode be) h2 j.
Proof.
  intros Hpe j [[Hj HL]|[Hj HL]]; rewrite Hj; clear j Hj.
  { right. now apply reloc_cleaned_new. }
  pose proof (cons_nodup _ _ _ _ _ _ Core N) as NDN.
  destruct (eraseEvent e (eventsOnBranch (h N))) as [|z l'] eqn:Er.
  - (* the branch is left empty *)
    destruct (Nat.eq_dec N N') as [EN|Hne].
    + right. rewrite EN. apply reloc_cleaned_new.
      unfold getLastEvent.
      rewrite reloc_lists2, Nat.eqb_refl, reloc_lists1, <- EN, Nat.eqb_refl, Er.
      reflexivity.
    + pose proof (eraseEvent_empty _ _ reloc_e_on_N Er) as El.
      assert (Ha : ancestralNodeEvent (h N) = Some pe).
      { rewrite <- Hpe. unfold getLastEventFrom. now rewrite El, Nat.eqb_refl. }
      destruct reloc_ancestral_source
        as [[E V]|[A [aA [tA [sA [lfA [rtA [f [H1 [H2 [H3 [H4 H5]]]]]]]]]]]].
      * assert (Ep : EventPtr_eqb (Some pe) re = true)
          by (apply EventPtr_eqb_eq; congruence).
        assert (Hq : nodeOf (getRoot T) (mkNode r ar tr mr lfR rtR))
          by (rewrite Hroot; simpl; now left).
        destruct (reloc_reach r ar tr mr lfR rtR Hq V Hne Er) as [X|X];
          [left|now right].
        unfold cleanedBy. rewrite Ep, Hroot. exact X.
      * assert (Ef : f = pe) by congruence. subst f.
        destruct (getLastEvent_Some _ _ H2) as [_ Hin].
        assert (Hpe_e : pe <> e)
          by (intros X; apply H5; apply reloc_e_only_on_N; now rewrite <- X).
        destruct (reloc_node_of_event pe A Hin Hpe_e)
          as [a1 [t1 [s1 [l1 [r1 [En Ep]]]]]].
        assert (Eq : mkNode A a1 t1 s1 l1 r1 = mkNode A aA tA sA lfA rtA).
        { apply nodeOf_unique with (t := getRoot T).
          - rewrite Hroot. apply reloc_wf.
          - rewrite <- En, reloc_ev'_other by exact Hpe_e.
            apply (reloc_on_branch A pe Hin).
          - apply H1.
          - reflexivity. }
        rewrite Eq in En. clear Eq a1 t1 s1 l1 r1.
        destruct (reloc_reach A aA tA sA lfA rtA (proj1 H1) H4 Hne Er)
          as [X|X]; [|now right].
        destruct (Nat.eq_dec A N') as [EA|HA].
        -- destruct reloc_last2_cases as [Y|[_ Y]].
           ++ right. unfold cleanedBy. rewrite reloc_e_not_rootEvent.
              assert (Eb : eventNode be = mkNode A aA tA sA lfA rtA).
              { apply nodeOf_unique with (t := getRoot T).
                - rewrite Hroot. apply reloc_wf.
                - apply HP.
                - apply H1.
                - rewrite HN', EA. reflexivity. }
              rewrite Eb, EA. split; [exact Y|now right].
           ++ left. unfold cleanedBy. rewrite Ep, En. split; [|now right].
              rewrite EA, Y. unfold getLastEvent. rewrite reloc_lists1.
              destruct (Nat.eqb N' N) eqn:E;
                [apply Nat.eqb_eq in E; congruence|].
              rewrite <- EA. exact H2.
        -- left. unfold cleanedBy. rewrite Ep, En. split; [|now right].
           unfold getLastEvent. rewrite reloc_lists2.
           destruct (Nat.eqb A N') eqn:E; [apply Nat.eqb_eq in E; contradiction|].
           rewrite reloc_lists1.
           destruct (Nat.eqb A N) eqn:E'; [apply Nat.eqb_eq in E'; contradiction|].
           exact H2.
  - (* an event is left on the branch *)
    assert (Hnil : eraseEvent e (eventsOnBranch (h N)) <> [])
      by (rewrite Er; discriminate).
    pose proof (getLastEventFrom_last e (h N) NDN HL Hnil) as K.
    rewrite Hpe in K. symmetry in K.
    destruct (last_map_Some _ Hnil) as [x [X1 X2]].
    assert (Ex : x = pe) by congruence. subst x.
    assert (Hpe_e : pe <> e).
    { intros X. rewrite X in X2. now apply (eraseEvent_removes e _ NDN). }
    pose proof (In_eraseEvent_incl _ _ _ X2) as Hin.
    destruct (reloc_node_of_event pe N Hin Hpe_e)
      as [a1 [t1 [s1 [l1 [r1 [En Ep]]]]]].
    assert (K1 : getLastEvent (h1 N) = Some pe).
    { unfold getLastEvent. now rewrite reloc_lists1, Nat.eqb_refl. }
    destruct (Nat.eq_dec N N') as [EN|Hne].
    + destruct reloc_last2_cases as [Y|[_ Y]].
      * right. rewrite EN. now apply reloc_cleaned_new.
      * left. unfold cleanedBy. rewrite Ep, En. split; [|now left].
        rewrite EN, Y, <- EN. exact K1.
    + left. unfold cleanedBy. rewrite Ep, En. split; [|now left].
      unfold getLastEvent. rewrite reloc_lists2.
      destruct (Nat.eqb N N') eqn:E; [apply Nat.eqb_eq in E; contradiction|].
      exact K1.
Qed.

(** The relocation, followed by the forward settings from the event before
    the old position and from the moved event, keeps the state
    consistent. *)
Lemma reloc_consistent (pe : nat) (h3 h4 : nat -> BranchHistory) :
  getLastEventFrom e (h N) = Some pe ->
  (forall j, h3 j = spec_forwardSet (getRoot T) re pe (eventNode (ev' pe)) h2 j) ->
  (forall j, h4 j = spec_forwardSet (getRoot T) re e (eventNode be) h3 j) ->
  ConsistentCore T re reg h4 ev' nxt.
Proof.
  intros Hpe Hh3 Hh4.
  destruct reloc_previous as [pe' [P1 [P2 P3]]].
  assert (pe' = pe) by congruence. subst pe'.
  assert (Ppe : EventPtr_eqb (Some pe) re = false ->
                properNodeOf (getRoot T) (eventNode (ev' pe))).
  { intros X. rewrite reloc_ev'_other by exact P2.
    destruct P3 as [->|[_ Y]]; [|exact Y].
    rewrite Hre in X. simpl in X. rewrite Nat.eqb_refl in X. discriminate. }
  assert (Pe : EventPtr_eqb (Some e) re = false ->
               properNodeOf (getRoot T) (eventNode be)) by (intros _; exact HP).
  assert (WT : wellFormedTree (getRoot T)) by (rewrite Hroot; apply reloc_wf).
  assert (Hl3 : forall j, eventsOnBranch (h3 j) = eventsOnBranch (h2 j))
    by (intros j; now rewrite Hh3, spec_forwardSet_events).
  assert (Hl4 : forall j, eventsOnBranch (h4 j) = eventsOnBranch (h2 j))
    by (intros j; now rewrite Hh4, spec_forwardSet_events, Hl3).
  destruct reloc_re0 as [R1 R2].
  constructor.
  - apply (cons_tree _ _ _ _ _ _ Core).
  - exists re0. split; [exact Hre|]. split; [|split; [exact R2|]].
    + rewrite reloc_ev'_other; [exact R1|].
      intros X. symmetry in X. now apply reloc_e_not_root.
    + destruct (cons_root _ _ _ _ _ _ Core) as [x [E1 [_ [_ E4]]]].
      rewrite Hre in E1. inversion E1. now subst.
  - intros y Hy.
    destruct (cons_registry _ _ _ _ _ _ Core y Hy) as [Y1 [Y2 [Y3 [i [Y4 Y5]]]]].
    split; [exact Y1|]. destruct (Nat.eq_dec y e) as [->|Hne].
    + rewrite reloc_ev'_e. split; [exact HP|]. split; [exact HPold|].
      exists N'. split; [exact HN'|]. rewrite Hl4. apply reloc_In2. now left.
    + rewrite reloc_ev'_other by exact Hne. split; [exact Y2|]. split; [exact Y3|].
      exists i. split; [exact Y4|]. rewrite Hl4. apply reloc_In2. now right.
  - intros i y. rewrite Hl4, reloc_In2. intros [[-> ->]|[Hne Hy]].
    + rewrite reloc_ev'_e. auto.
    + rewrite reloc_ev'_other by exact Hne.
      apply (cons_histories _ _ _ _ _ _ Core i y Hy).
  - intros i. rewrite Hl4, reloc_lists2.
    assert (ND1 : forall k, NoDup (eventsOnBranch (h1 k))).
    { intros k. rewrite reloc_lists1. destruct (Nat.eqb k N).
      - apply NoDup_eraseEvent. apply (cons_nodup _ _ _ _ _ _ Core).
      - apply (cons_nodup _ _ _ _ _ _ Core). }
    destruct (Nat.eqb i N'); [|apply ND1].
    apply NoDup_insertByMapTime; [apply ND1|apply reloc_e_not_on1].
  - intros r' Hr'.
    rewrite Hh4, spec_forwardSet_at_root, Hh3, spec_forwardSet_at_root,
      reloc_nodeEvent2; auto.
    apply (cons_rootCache _ _ _ _ _ _ Core). exact Hr'.
  - apply treeOk_weaken with (D := nowhere)
      (h := spec_forwardSet (getRoot T) re e (eventNode be) h3); auto.
    apply spec_forwardSet_treeOk with
      (D := fun j => relocDirty j /\
               ~ cleanedBy (getRoot T) re pe (eventNode (ev' pe)) h2 j); auto.
    + apply treeOk_weaken with
        (D := fun j => relocDirty j /\
                 ~ cleanedBy (getRoot T) re pe (eventNode (ev' pe)) h2 j)
        (h := spec_forwardSet (getRoot T) re pe (eventNode (ev' pe)) h2); auto.
      apply spec_forwardSet_treeOk with (D := relocDirty); auto.
      rewrite Hroot. apply reloc_treeOk2.
    + intros j [Dj NC1] NC2.
      destruct (reloc_cleaned pe Hpe j Dj) as [X|X]; [now apply NC1|].
      apply NC2. apply cleanedBy_ext with (g := h2); [|exact X].
      intros k. apply Hl3.
Qed.

End Relocate.

Lemma spec_forwardSet_outside (root : Node) (re : EventPtr) (x : nat)
  (node : Node) (h : nat -> BranchHistory) (j : nat) :
  wellFormedTree root ->
  (EventPtr_eqb (Some x) re = false -> properNodeOf root node) ->
  ~ In j (indices (getLfDesc root) ++ indices (getRtDesc root)) ->
  spec_forwardSet root re x node h j = h j.
Proof.
  intros [NN [L ND]] HP Hj.
  destruct root as [|r ar tr mr lfR rtR]; [discriminate|].
  cbn [getLfDesc getRtDesc] in Hj.
  unfold spec_forwardSet. destruct (EventPtr_eqb (Some x) re).
  - cbn [getIndex getLfDesc getRtDesc]. rewrite !spec_propagate_frame; auto.
    + intros X. apply Hj, in_or_app. now left.
    + intros X. apply Hj, in_or_app. now right.
  - specialize (HP eq_refl).
    pose proof (properNodeOf_child _ _ _ _ _ _ _ HP) as HC.
    destruct node as [|M aM tM sM lfM rtM]; [reflexivity|].
    cbn [getIndex getLfDesc getRtDesc].
    destruct (EventPtr_eqb (Some x) (getLastEvent (h M))); [|reflexivity].
    assert (HjM : ~ In j (indices (mkNode M aM tM sM lfM rtM))).
    { intros X. apply Hj, in_or_app.
      destruct HC as [HC|HC]; [left|right]; exact (nodeOf_indices _ _ HC j X). }
    simpl in HjM. rewrite !spec_propagate_frame.
    + apply update_other. intros ->. apply HjM. now left.
    + intros X. apply HjM. right. apply in_or_app. now left.
    + intros X. apply HjM. right. apply in_or_app. now right.
Qed.

(** The second half of a relocation in the source: the event, taken off its
    branch and given its new position, is put on its new branch, and the
    histories are set forward from the event before the old position and
    from the event itself. *)
Lemma relocate_tail (m4 : Model) (h : nat -> BranchHistory)
  (ev : nat -> BranchEvent) (e : nat) (be : BranchEvent) (N : nat) :
  ConsistentCore (_tree m4) (_rootEvent m4) (_eventCollection m4) h ev
    (_nextEvent m4) ->
  In e (_eventCollection m4) ->
  getIndex (eventNode (ev e)) = Some N ->
  properNodeOf (getRoot (_tree m4)) (eventNode be) ->
  properNodeOf (getRoot (_tree m4)) (oldEventNode be) ->
  _histories m4 = update N (popEventOffBranchHistory e) h ->
  _events m4 = update e (fun _ => be) ev ->
  exists h4 N',
    (m5 <- onBranchHistory (getEventNode (_events m4 e))
             (addEventToBranchHistory (_events m4) e) m4 ;;
     m6 <- forwardSetBranchHistories (getLastEventFrom e (h N)) m5 ;;
     forwardSetBranchHistories (Some e) m6) = Ok (with_histories h4 m4) /\
    ConsistentCore (_tree m4) (_rootEvent m4) (_eventCollection m4) h4
      (_events m4) (_nextEvent m4) /\
    getIndex (eventNode be) = Some N' /\
    (forall j, eventsOnBranch (h4 j) =
               eventsOnBranch
                 (update N' (addEventToBranchHistory (_events m4) e)
                    (_histories m4) j)) /\
    (forall j, ~ In j (indices (getLfDesc (getRoot (_tree m4))) ++
                       indices (getRtDesc (getRoot (_tree m4)))) ->
               nodeEvent (h4 j) = nodeEvent (h j) /\
               ancestralNodeEvent (h4 j) = ancestralNodeEvent (h j)).
Proof.
  intros Core He HN HP HPold Hh Hev.
  pose proof (cons_tree _ _ _ _ _ _ Core) as [WT _].
  destruct (getRoot (_tree m4)) as [|r ar tr mr lfR rtR] eqn:Hroot;
    [destruct WT; discriminate|].
  destruct (cons_root _ _ _ _ _ _ Core) as [re0 [Hre [Rn [Rr _]]]].
  destruct (nodeOf_index _ _ (proj1 HP)) as [N' [HN' _]].
  rewrite <- Hroot in HP, HPold.
  destruct (reloc_previous _ _ _ _ _ _ Core _ _ _ _ _ _ Hroot _ Hre e be N N'
              He HN) as [pe [P1 [P2 P3]]].
  assert (Ee : _events m4 e = be) by (rewrite Hev; apply update_same).
  assert (Epe : _events m4 pe = ev pe) by (rewrite Hev; now apply update_other).
  assert (Hkids : isNULL lfR = false /\ isNULL rtR = false).
  { exact (reloc_root_has_children _ _ _ _ _ _ Core _ _ _ _ _ _ Hroot _ Hre
             e be N N' He HN). }
  unfold getEventNode, onBranchHistory. rewrite Ee, HN'. cbn [bind].
  set (m5 := with_histories
               (update N' (addEventToBranchHistory (_events m4) e)
                  (_histories m4)) m4).
  rewrite P1.
  destruct (forwardSetBranchHistories_refines m5 pe) as [h3 [E3 S3]].
  { cbn. rewrite Hroot. exact WT. }
  { cbn. rewrite Epe. destruct P3 as [->|[_ Y]].
    - rewrite Rn, Hroot. simpl. now left.
    - apply Y. }
  { cbn. rewrite Hre. intros X. inversion X; subst pe.
    rewrite Epe, Rn, Hroot. split; [reflexivity|apply Hkids]. }
  rewrite E3. cbn [bind].
  set (m6 := with_histories h3 m5).
  destruct (forwardSetBranchHistories_refines m6 e) as [h4 [E4 S4]].
  { cbn. rewrite Hroot. exact WT. }
  { cbn. rewrite Ee. apply HP. }
  { cbn. rewrite Hre. intros X. inversion X; subst re0. contradiction. }
  rewrite E4. exists h4, N'.
  cbn in S3, S4. rewrite Ee in S4. rewrite Epe, Hh in S3. rewrite Hev in S3.
  assert (WT' : wellFormedTree (getRoot (_tree m4))) by (rewrite Hroot; exact WT).
  assert (Ppe : EventPtr_eqb (Some pe) (_rootEvent m4) = false ->
                properNodeOf (getRoot (_tree m4)) (eventNode (ev pe))).
  { intros X. destruct P3 as [->|[_ Y]]; [|exact Y].
    rewrite Hre in X. simpl in X. rewrite Nat.eqb_refl in X. discriminate. }
  split; [reflexivity|]. split; [|split; [reflexivity|split]].
  - rewrite Hev.
    apply (reloc_consistent _ _ _ _ _ _ Core _ _ _ _ _ _ Hroot _ Hre e be N N'
             He HN HP HPold HN' pe h3 h4 P1).
    + intros j. rewrite S3. rewrite update_other by exact P2. reflexivity.
    + exact S4.
  - intros j. rewrite S4, spec_forwardSet_events, S3, spec_forwardSet_events.
    rewrite Hh, Hev. reflexivity.
  - intros j Hj. rewrite <- Hroot in Hj.
    rewrite S4, spec_forwardSet_outside, S3, spec_forwardSet_outside; auto.
    rewrite nodeEvent_update_add, nodeEvent_update_pop,
      ancestral_update_add, ancestral_update_pop. auto.
Qed.

(** ** Random choice of an event *)

Lemma advance_skipn (n : nat) :
  forall sit, (n <= List.length sit)%nat -> advance n sit = Ok (skipn n sit).
Proof.
  induction n as [|n IH]; intros sit Hn; [reflexivity|].
  destruct sit as [|x sit]; simpl in *; [lia|]. apply IH. lia.
Qed.

Lemma advance_Ok (n : nat) :
  forall sit l, advance n sit = Ok l ->
    l = skipn n sit /\ (n <= List.length sit)%nat.
Proof.
  induction n as [|n IH]; intros sit l H.
  - simpl in H. inversion H. split; [reflexivity|simpl; lia].
  - destruct sit as [|x sit]; simpl in H; [discriminate|].
    destruct (IH _ _ H) as [E1 E2]. split; [exact E1|simpl; lia].
Qed.

Lemma skipn_head_nth_error {A : Type} (n : nat) :
  forall (l : list A) x rest, skipn n l = x :: rest -> nth_error l n = Some x.
Proof.
  induction n as [|n IH]; intros l x rest H.
  - simpl in H. subst. reflexivity.
  - destruct l as [|y l]; simpl in H; [discriminate|]. simpl. eapply IH; eauto.
Qed.

Lemma nth_error_skipn_head {A : Type} (n : nat) :
  forall (l : list A) x, nth_error l n = Some x ->
    exists rest, skipn n l = x :: rest.
Proof.
  induction n as [|n IH]; intros l x H.
  - destruct l as [|y l]; simpl in H; [discriminate|]. inversion H. now exists l.
  - destruct l as [|y l]; simpl in H; [discriminate|]. simpl. now apply IH.
Qed.

Lemma to_int_small (z : Z) :
  (0 <= z <= INT_MAX)%Z -> to_int z = z.
Proof.
  unfold to_int, INT_MAX. intros H.
  rewrite Z.mod_small by lia. lia.
Qed.

(** ** Binary64 rounding *)

Lemma pow2_pos (e : Z) : 0 < pow2 e.
Proof. apply Qpower_0_lt. reflexivity. Qed.

Lemma pow2_add (a b : Z) : pow2 (a + b) == pow2 a * pow2 b.
Proof. apply Qpower_plus. discriminate. Qed.

Lemma pow2_0 : pow2 0 == 1.
Proof. reflexivity. Qed.

Lemma pow2_Z (e : Z) : (0 <= e)%Z -> pow2 e == inject_Z (2 ^ e).
Proof. intros H. unfold pow2. now rewrite Zpower_Qpower. Qed.

Lemma pow2_le (a b : Z) : (a <= b)%Z -> pow2 a <= pow2 b.
Proof. intros H. apply Qpower_le_compat_l; [exact H|discriminate]. Qed.

Lemma pow2_lt (a b : Z) : (a < b)%Z -> pow2 a < pow2 b.
Proof. intros H. apply Qpower_lt_compat_l; [exact H|reflexivity]. Qed.

Lemma pow2_lt_inv (a b : Z) : pow2 a < pow2 b -> (a < b)%Z.
Proof. intros H. apply (Qpower_lt_compat_l_inv 2); [exact H|reflexivity]. Qed.

Lemma pow2_inv (g : Z) : pow2 g * pow2 (- g) == 1.
Proof. rewrite <- pow2_add. now replace (g + - g)%Z with 0%Z by lia. Qed.

Lemma Qlog2_spec (x : Q) :
  0 < x -> pow2 (Qlog2 x) <= x /\ x < pow2 (Qlog2 x + 1).
Proof.
  intros Hx. unfold Qlog2.
  destruct x as [a b]. cbn [Qnum Qden].
  assert (Ha : (0 < a)%Z) by (unfold Qlt in Hx; simpl in Hx; lia).
  set (la := Z.log2 a). set (lb := Z.log2 (Zpos b)).
  destruct (Z.log2_spec a Ha) as [A1 A2]. fold la in A1, A2.
  destruct (Z.log2_spec (Zpos b) (Pos2Z.is_pos b)) as [B1 B2]. fold lb in B1, B2.
  assert (La : (0 <= la)%Z) by apply Z.log2_nonneg.
  assert (Lb : (0 <= lb)%Z) by apply Z.log2_nonneg.
  assert (X : a # b == inject_Z a / inject_Z (Zpos b)) by apply Qmake_Qdiv.
  assert (PB : 0 < inject_Z (Zpos b)) by reflexivity.
  assert (Lo : pow2 (la - lb - 1) < a # b).
  { rewrite X. apply Qlt_shift_div_l; [exact PB|].
    apply Qlt_le_trans with (pow2 (la - lb - 1) * pow2 (lb + 1)).
    - apply Qmult_lt_l; [apply pow2_pos|].
      rewrite pow2_Z by lia. rewrite <- Zlt_Qlt.
      now replace (lb + 1)%Z with (Z.succ lb) by lia.
    - rewrite <- pow2_add. replace (la - lb - 1 + (lb + 1))%Z with la by lia.
      rewrite pow2_Z by lia. now rewrite <- Zle_Qle. }
  assert (Hi : a # b < pow2 (la - lb + 1)).
  { rewrite X. apply Qlt_shift_div_r; [exact PB|].
    apply Qlt_le_trans with (pow2 (la - lb + 1) * pow2 lb).
    - rewrite <- pow2_add. replace (la - lb + 1 + lb)%Z with (Z.succ la) by lia.
      rewrite pow2_Z by lia. now rewrite <- Zlt_Qlt.
    - apply Qmult_le_l; [apply pow2_pos|].
      rewrite pow2_Z by lia. now rewrite <- Zle_Qle. }
  destruct (Qle_bool (pow2 (la - lb)) (a # b)) eqn:E.
  - apply Qle_bool_iff in E. split; [exact E|exact Hi].
  - split; [now apply Qlt_le_weak|].
    replace (la - lb - 1 + 1)%Z with (la - lb)%Z by lia.
    apply Qnot_le_lt. intros C. apply Qle_bool_iff in C. congruence.
Qed.

Lemma nearestEven_bounds (q : Q) :
  (Qfloor q <= nearestEven q <= Qfloor q + 1)%Z.
Proof.
  unfold nearestEven. destruct (Qcompare _ _); [destruct (Z.even _)|..]; lia.
Qed.

Lemma inject_Z_pred (N : Z) : inject_Z (N - 1) == inject_Z N - 1.
Proof. unfold Z.sub. rewrite inject_Z_plus. reflexivity. Qed.

Lemma inject_Z_succ (N : Z) : inject_Z (N + 1) == inject_Z N + 1.
Proof. rewrite inject_Z_plus. reflexivity. Qed.

Lemma nearestEven_below_half (q : Q) (N : Z) :
  q < inject_Z N - (1 # 2) -> (nearestEven q <= N - 1)%Z.
Proof.
  intros H. pose proof (Qfloor_le q) as F.
  assert (FN : (Qfloor q < N)%Z) by (rewrite Zlt_Qlt; lra).
  destruct (Z.eq_dec (Qfloor q) (N - 1)) as [E|E].
  - unfold nearestEven.
    assert (L : q - inject_Z (Qfloor q) < 1 # 2)
      by (rewrite E, inject_Z_pred; lra).
    assert (C : Qcompare (q - inject_Z (Qfloor q)) (1 # 2) = Lt)
      by (apply Qlt_alt; exact L).
    cbv zeta. rewrite C. lia.
  - pose proof (nearestEven_bounds q). lia.
Qed.

Lemma ulpExponent_nonpos (x : Q) :
  0 < x -> x < pow2 53 -> (ulpExponent x <= 0)%Z.
Proof.
  intros H0 H1. destruct (Qlog2_spec x H0) as [L _].
  assert (E : (Qlog2 x < 53)%Z) by (apply pow2_lt_inv; lra).
  unfold ulpExponent. lia.
Qed.

Lemma scaled (x : Q) (g : Z) : x / pow2 g == x * pow2 (- g).
Proof.
  pose proof (pow2_inv g) as I. pose proof (pow2_pos g) as P.
  field_simplify_eq; [|lra]. rewrite <- (Qmult_1_r x) at 1.
  rewrite <- I. ring.
Qed.

Lemma unscaled (k : Z) (g : Z) :
  (g <= 0)%Z -> inject_Z (k * 2 ^ (- g)) * pow2 g == inject_Z k.
Proof.
  intros Hg. rewrite inject_Z_mult, <- pow2_Z by lia.
  rewrite <- Qmult_assoc, (Qmult_comm (pow2 (- g))), pow2_inv. ring.
Qed.

Lemma scaled_int (k : Z) (g : Z) :
  (g <= 0)%Z -> inject_Z (k * 2 ^ (- g)) == inject_Z k * pow2 (- g).
Proof. intros Hg. now rewrite inject_Z_mult, <- pow2_Z by lia. Qed.

Lemma roundPositive_ge (rnd : Q -> Z) (x : Q) (k : Z) :
  (forall q, (Qfloor q <= rnd q)%Z) ->
  0 < x -> x < pow2 53 -> inject_Z k <= x ->
  inject_Z k <= roundPositive rnd x.
Proof.
  intros R H0 H1 Hk. unfold roundPositive.
  pose proof (ulpExponent_nonpos x H0 H1) as Hg.
  set (g := ulpExponent x) in *.
  pose proof (pow2_pos g) as Pg. pose proof (pow2_pos (- g)) as Pg'.
  assert (M : inject_Z (k * 2 ^ (- g)) <= x / pow2 g).
  { rewrite scaled, scaled_int by exact Hg.
    apply Qmult_le_compat_r; lra. }
  apply Qfloor_resp_le in M. rewrite Qfloor_Z in M.
  specialize (R (x / pow2 g)).
  rewrite <- (unscaled k g Hg).
  apply Qmult_le_compat_r; [|lra]. rewrite <- Zle_Qle. lia.
Qed.

Lemma roundPositive_le (rnd : Q -> Z) (x : Q) (k : Z) :
  (forall q, (rnd q <= Qfloor q + 1)%Z) ->
  0 < x -> x < pow2 53 -> x < inject_Z k ->
  roundPositive rnd x <= inject_Z k.
Proof.
  intros R H0 H1 Hk. unfold roundPositive.
  pose proof (ulpExponent_nonpos x H0 H1) as Hg.
  set (g := ulpExponent x) in *.
  pose proof (pow2_pos g) as Pg. pose proof (pow2_pos (- g)) as Pg'.
  assert (M : x / pow2 g < inject_Z (k * 2 ^ (- g))).
  { rewrite scaled, scaled_int by exact Hg.
    apply Qmult_lt_compat_r; lra. }
  pose proof (Qfloor_le (x / pow2 g)) as F.
  assert (F' : (Qfloor (x / pow2 g) < k * 2 ^ (- g))%Z)
    by (rewrite Zlt_Qlt; lra).
  specialize (R (x / pow2 g)).
  rewrite <- (unscaled k g Hg).
  apply Qmult_le_compat_r; [|lra]. rewrite <- Zle_Qle. lia.
Qed.

Lemma roundPositive_floor_le (x : Q) : roundPositive Qfloor x <= x.
Proof.
  unfold roundPositive. set (g := ulpExponent x).
  pose proof (pow2_pos g) as Pg.
  pose proof (Qfloor_le (x / pow2 g)) as F.
  assert (E : x == x / pow2 g * pow2 g) by (field; lra).
  rewrite E at 2. apply Qmult_le_compat_r; lra.
Qed.

Lemma roundPositive_floor_lt (x : Q) (k : Z) :
  0 < x -> x < pow2 53 -> x < inject_Z k ->
  roundPositive Qfloor x <= inject_Z k - pow2 (ulpExponent x).
Proof.
  intros H0 H1 Hk. unfold roundPositive.
  pose proof (ulpExponent_nonpos x H0 H1) as Hg.
  set (g := ulpExponent x) in *.
  pose proof (pow2_pos g) as Pg. pose proof (pow2_pos (- g)) as Pg'.
  assert (M : x / pow2 g < inject_Z (k * 2 ^ (- g))).
  { rewrite scaled, scaled_int by exact Hg.
    apply Qmult_lt_compat_r; lra. }
  pose proof (Qfloor_le (x / pow2 g)) as F.
  assert (F' : (Qfloor (x / pow2 g) <= k * 2 ^ (- g) - 1)%Z).
  { assert ((Qfloor (x / pow2 g) < k * 2 ^ (- g))%Z)
      by (rewrite Zlt_Qlt; lra). lia. }
  rewrite Zle_Qle, inject_Z_pred in F'.
  assert (Y : inject_Z (Qfloor (x / pow2 g)) * pow2 g
              <= (inject_Z (k * 2 ^ (- g)) - 1) * pow2 g)
    by (apply Qmult_le_compat_r; lra).
  assert (Z1 : (inject_Z (k * 2 ^ (- g)) - 1) * pow2 g
               == inject_Z k - pow2 g).
  { rewrite <- (unscaled k g Hg). ring. }
  lra.
Qed.

Lemma roundPositive_nearest_lt (x : Q) (n : Z) :
  0 < x -> (1 <= n <= 2 ^ 52)%Z ->
  x <= inject_Z n * (1 - pow2 (- 53)) ->
  roundPositive nearestEven x <= inject_Z n - pow2 (ulpExponent x).
Proof.
  intros H0 Hn Hx.
  assert (Q53 : 0 < pow2 (- 53)) by apply pow2_pos.
  assert (N1 : 1 <= inject_Z n)
    by (change 1 with (inject_Z 1); rewrite <- Zle_Qle; lia).
  assert (Xn : x < inject_Z n).
  { assert (0 < inject_Z n * pow2 (- 53)) by (apply Qmult_lt_0_compat; lra).
    lra. }
  assert (H1 : x < pow2 53).
  { apply Qlt_le_trans with (inject_Z n); [exact Xn|].
    rewrite pow2_Z by lia. rewrite <- Zle_Qle.
    assert ((2 ^ 52 <= 2 ^ 53)%Z) by (apply Z.pow_le_mono_r; lia). lia. }
  unfold roundPositive.
  pose proof (ulpExponent_nonpos x H0 H1) as Hg.
  destruct (Qlog2_spec x H0) as [L _].
  assert (Big : pow2 (52 + ulpExponent x) < inject_Z n).
  { unfold ulpExponent.
    destruct (Z.max_spec (Qlog2 x - 52) (-1074)) as [[_ ->]|[_ ->]].
    - apply Qlt_le_trans with 1; [|exact N1].
      change 1 with (pow2 0). apply pow2_lt. lia.
    - replace (52 + (Qlog2 x - 52))%Z with (Qlog2 x) by lia. lra. }
  set (g := ulpExponent x) in *.
  pose proof (pow2_pos g) as Pg. pose proof (pow2_pos (- g)) as Pg'.
  assert (Half : pow2 (-1) == 1 # 2) by reflexivity.
  assert (M : x / pow2 g < inject_Z (n * 2 ^ (- g)) - (1 # 2)).
  { rewrite scaled, scaled_int by exact Hg.
    assert (A : x * pow2 (- g)
                <= inject_Z n * (1 - pow2 (- 53)) * pow2 (- g))
      by (apply Qmult_le_compat_r; lra).
    assert (B : pow2 (52 + g) * pow2 (- 53 - g) == 1 # 2).
    { rewrite <- pow2_add. replace (52 + g + (- 53 - g))%Z with (-1)%Z by lia.
      exact Half. }
    assert (C : pow2 (- 53 - g) == pow2 (- 53) * pow2 (- g)).
    { rewrite <- pow2_add. now replace (- 53 - g)%Z with (- 53 + - g)%Z by lia. }
    assert (D : pow2 (52 + g) * pow2 (- 53 - g)
                < inject_Z n * pow2 (- 53 - g))
      by (apply Qmult_lt_compat_r; [apply pow2_pos|exact Big]).
    rewrite C in D at 2. rewrite B in D. nra. }
  apply nearestEven_below_half in M.
  rewrite Zle_Qle, inject_Z_pred in M.
  assert (Y : inject_Z (nearestEven (x / pow2 g)) * pow2 g
              <= (inject_Z (n * 2 ^ (- g)) - 1) * pow2 g)
    by (apply Qmult_le_compat_r; lra).
  assert (Z1 : (inject_Z (n * 2 ^ (- g)) - 1) * pow2 g
               == inject_Z n - pow2 g).
  { rewrite <- (unscaled n g Hg). ring. }
  lra.
Qed.

Lemma roundSigned_pos (rnd : Q -> Z) (x : Q) :
  0 < x -> roundSigned rnd x = roundPositive rnd x.
Proof.
  intros H. unfold roundSigned.
  assert (C : Qcompare x 0 = Gt) by (apply Qgt_alt; exact H).
  now rewrite C.
Qed.

Lemma roundSigned_zero (rnd : Q -> Z) (x : Q) :
  x == 0 -> roundSigned rnd x = 0.
Proof.
  intros H. unfold roundSigned.
  assert (C : Qcompare x 0 = Eq) by (apply Qeq_alt; exact H).
  now rewrite C.
Qed.

Lemma as_double_unit (u : Q) :
  0 <= u -> u < 1 ->
  0 <= as_double u /\ as_double u <= u /\ as_double u <= 1 - pow2 (- 53).
Proof.
  intros H0 H1. unfold as_double. rewrite Qred_correct.
  assert (Q53 : pow2 (- 53) <= 1 # 2).
  { change (1 # 2) with (pow2 (-1)). apply pow2_le. lia. }
  destruct (Qlt_le_dec 0 u) as [P|Z].
  - rewrite (roundSigned_pos _ _ P).
    assert (S53 : u < pow2 53).
    { apply Qlt_trans with 1; [exact H1|]. change 1 with (pow2 0).
      apply pow2_lt. lia. }
    split; [|split].
    + change 0 with (inject_Z 0).
      apply roundPositive_ge;
        [intros q; lia|exact P|exact S53|exact (Qlt_le_weak _ _ P)].
    + apply roundPositive_floor_le.
    + destruct (Qlog2_spec u P) as [L U].
      assert (E : (Qlog2 u < 0)%Z) by (apply pow2_lt_inv; change (pow2 0) with 1; lra).
      destruct (Z.eq_dec (Qlog2 u) (-1)) as [E1|E1].
      * pose proof (roundPositive_floor_lt u 1 P S53 H1) as B.
        unfold ulpExponent in B. rewrite E1 in B.
        exact B.
      * pose proof (roundPositive_floor_le u) as B.
        assert (U' : pow2 (Qlog2 u + 1) <= pow2 (-1)) by (apply pow2_le; lia).
        change (pow2 (-1)) with (1 # 2) in U'. lra.
  - assert (E : u == 0) by lra.
    rewrite (roundSigned_zero _ _ E). lra.
Qed.

Lemma round64_product (v : Q) (n : Z) :
  0 <= v -> v <= 1 - pow2 (- 53) -> (1 <= n <= 2 ^ 52)%Z ->
  exists p, double_mul v (inject_Z n) = Some p /\
            0 <= p /\ p < inject_Z n /\
            (Qfloor (v * inject_Z n) <= Qfloor p
             <= Qfloor (v * inject_Z n) + 1)%Z.
Proof.
  intros H0 H1 Hn. unfold double_mul, round64.
  set (x := v * inject_Z n).
  assert (N1 : 1 <= inject_Z n)
    by (change 1 with (inject_Z 1); rewrite <- Zle_Qle; lia).
  assert (Q53 : 0 < pow2 (- 53)) by apply pow2_pos.
  assert (X0 : 0 <= x) by (unfold x; apply Qmult_le_0_compat; lra).
  assert (Xn : x <= inject_Z n * (1 - pow2 (- 53))).
  { unfold x. rewrite (Qmult_comm v). apply Qmult_le_l; lra. }
  assert (Xlt : x < inject_Z n).
  { assert (0 < inject_Z n * pow2 (- 53)) by (apply Qmult_lt_0_compat; lra).
    lra. }
  assert (Big : inject_Z n < pow2 1024).
  { apply Qle_lt_trans with (pow2 52).
    - rewrite pow2_Z by lia. now rewrite <- Zle_Qle.
    - apply pow2_lt. lia. }
  assert (P1024 : 0 < pow2 1024) by apply pow2_pos.
  assert (Fin : forall y, 0 <= y -> y < inject_Z n ->
            (Qle_bool (pow2 1024) y || Qle_bool y (- pow2 1024)) = false).
  { intros y Y0 Y1. apply orb_false_iff. split.
    - destruct (Qle_bool (pow2 1024) y) eqn:E; [|reflexivity].
      apply Qle_bool_iff in E. lra.
    - destruct (Qle_bool y (- pow2 1024)) eqn:E; [|reflexivity].
      apply Qle_bool_iff in E. lra. }
  destruct (Qlt_le_dec 0 x) as [P|Z].
  - rewrite (roundSigned_pos _ _ P).
    assert (S53 : x < pow2 53).
    { apply Qlt_le_trans with (inject_Z n); [exact Xlt|].
      apply Qle_trans with (pow2 52).
      - rewrite pow2_Z by lia. now rewrite <- Zle_Qle.
      - apply pow2_le. lia. }
    pose proof (roundPositive_nearest_lt x n P Hn Xn) as Up.
    pose proof (pow2_pos (ulpExponent x)) as Pg.
    assert (Y0 : 0 <= roundPositive nearestEven x).
    { change 0 with (inject_Z 0).
      apply roundPositive_ge;
        [intros q; apply nearestEven_bounds|exact P|exact S53
        |exact (Qlt_le_weak _ _ P)]. }
    assert (Y1 : roundPositive nearestEven x < inject_Z n) by lra.
    rewrite (Fin _ Y0 Y1).
    eexists. split; [reflexivity|]. split; [exact Y0|]. split; [exact Y1|].
    pose proof (Qfloor_le x) as F1. pose proof (Qlt_floor x) as F2.
    assert (Lo : inject_Z (Qfloor x) <= roundPositive nearestEven x).
    { apply roundPositive_ge;
        [intros q; apply nearestEven_bounds|exact P|exact S53|exact F1]. }
    assert (Hi : roundPositive nearestEven x <= inject_Z (Qfloor x + 1)).
    { apply roundPositive_le;
        [intros q; apply nearestEven_bounds|exact P|exact S53|exact F2]. }
    apply Qfloor_resp_le in Lo, Hi. rewrite Qfloor_Z in Lo, Hi. lia.
  - assert (E : x == 0) by lra.
    rewrite (roundSigned_zero _ _ E).
    rewrite (Fin 0 (Qle_refl 0)) by lra.
    exists 0. split; [reflexivity|]. split; [lra|]. split; [lra|].
    rewrite (Qfloor_comp _ _ E). change (Qfloor 0) with 0%Z. lia.
Qed.




(** The chosen event is an element of the Registry, and the choice costs
    one draw. *)
Lemma chooseEventAtRandom_Ok (m : Model) (e : nat) (m1 : Model) :
  chooseEventAtRandom m = Ok (e, m1) ->
  In e (_eventCollection m) /\ m1 = with_rng (snd (uniformRv (_rng m))) m.
Proof.
  unfold chooseEventAtRandom.
  destruct (to_int (Z.of_nat (List.length (_eventCollection m))) =? 0)%Z;
    [discriminate|].
  cbn [uniformRv snd].
  destruct (chosenIndex _ _) as [chosen| |]; cbn [bind]; try discriminate.
  destruct (advance (Z.to_nat chosen) (_eventCollection m)) as [sit| |] eqn:Ea;
    cbn [bind]; try discriminate.
  destruct sit as [|x rest]; [discriminate|]. intros H. inversion H; subst.
  split; [|reflexivity].
  destruct (advance_Ok _ _ _ Ea) as [E1 _].
  symmetry in E1. apply skipn_head_nth_error in E1.
  eapply nth_error_In; eauto.
Qed.

Lemma Qtrunc_floor (q : Q) :
  0 <= q -> Z.quot (Qnum q) (Zpos (Qden q)) = Qfloor q.
Proof.
  intros H. unfold Qfloor. destruct q as [n d]. simpl.
  apply Z.quot_div_nonneg; [|lia].
  unfold Qle in H. simpl in H. lia.
Qed.

(** The index computed from a draw in [0,1) and a population of [n >= 1]
    that fits an [int]: the binary64 product does not overflow, its
    truncation is the floor of the exact product or one more, and it is an
    index into the Registry. *)
Lemma chooseEventAtRandom_nonempty (m : Model) :
  let n := Z.of_nat (List.length (_eventCollection m)) in
  let u := draws (_rng m) (consumed (_rng m)) in
  (1 <= n <= INT_MAX)%Z -> 0 <= u -> u < 1 ->
  exists e,
    (exists p,
        double_mul (as_double u) (inject_Z n) = Some p /\
        int_of_double p = Ok (Qfloor p) /\
        (0 <= Qfloor p <= n - 1)%Z /\
        (Qfloor (as_double u * inject_Z n) <= Qfloor p
         <= Qfloor (as_double u * inject_Z n) + 1)%Z /\
        nth_error (_eventCollection m) (Z.to_nat (Qfloor p)) = Some e /\
        advance (Z.to_nat (Qfloor p)) (_eventCollection m)
        = Ok (skipn (Z.to_nat (Qfloor p)) (_eventCollection m))) /\
    In e (_eventCollection m) /\
    chooseEventAtRandom m
    = Ok (e, with_rng (mkMbRandom (draws (_rng m)) (S (consumed (_rng m)))) m).
Proof.
  intros n u Hn H0 H1.
  destruct (as_double_unit u H0 H1) as [V0 [_ V1]].
  assert (Hn52 : (1 <= n <= 2 ^ 52)%Z).
  { unfold INT_MAX in Hn. assert ((2147483647 <= 2 ^ 52)%Z) by (vm_compute; discriminate). lia. }
  destruct (round64_product (as_double u) n V0 V1 Hn52)
    as [p [Ep [P0 [P1 Near]]]].
  set (k := Qfloor p) in *.
  assert (Hi : (0 <= k <= n - 1)%Z).
  { split.
    - change 0%Z with (Qfloor 0). now apply Qfloor_resp_le.
    - assert (K : inject_Z k < inject_Z n)
        by (eapply Qle_lt_trans; [apply Qfloor_le|exact P1]).
      rewrite <- Zlt_Qlt in K. lia. }
  assert (Ei : int_of_double p = Ok k).
  { unfold int_of_double. rewrite (Qtrunc_floor _ P0). fold k.
    assert (R : ((INT_MIN <=? k)%Z && (k <=? INT_MAX)%Z) = true).
    { apply andb_true_iff. split; apply Z.leb_le;
        unfold INT_MIN, INT_MAX in *; lia. }
    now rewrite R. }
  assert (Hk : (Z.to_nat k < List.length (_eventCollection m))%nat)
    by (unfold n in Hi; lia).
  destruct (nth_error (_eventCollection m) (Z.to_nat k)) as [e|] eqn:En;
    [|apply nth_error_None in En; lia].
  assert (Ea : advance (Z.to_nat k) (_eventCollection m)
               = Ok (skipn (Z.to_nat k) (_eventCollection m)))
    by (apply advance_skipn; lia).
  exists e. split.
  { exists p. split; [exact Ep|]. split; [exact Ei|]. split; [exact Hi|].
    split; [exact Near|]. split; [exact En|exact Ea]. }
  split; [eapply nth_error_In; eauto|].
  unfold chooseEventAtRandom. fold n. rewrite (to_int_small n) by lia.
  destruct (n =? 0)%Z eqn:E0; [apply Z.eqb_eq in E0; lia|].
  cbn [uniformRv]. fold u. unfold chosenIndex. rewrite Ep, Ei.
  cbn [bind]. rewrite Ea. cbn [bind].
  destruct (nth_error_skipn_head _ _ _ En) as [rest Er]. rewrite Er.
  reflexivity.
Qed.


(** C10.  With [n >= 1] events in a Registry that fits an [int] and a draw
    [u], a [double] in [0,1), the index computed, the truncation of the
    binary64 product [u * n], lies between [0] and [n - 1], rounding
    included; the iterator is advanced that many times without leaving the
    Registry, and what it points to at the end is an element of the
    Registry. *)
Theorem chooseEventAtRandom_in_range (m : Model) :
  let n := Z.of_nat (List.length (_eventCollection m)) in
  let u := draws (_rng m) (consumed (_rng m)) in
  (1 <= n <= INT_MAX)%Z -> 0 <= u -> u < 1 -> isDouble u ->
  exists p,
    double_mul u (inject_Z (to_int n)) = Some p /\
    let index := Qfloor p in
    (0 <= index <= n - 1)%Z /\
    chosenIndex u (to_int n) = Ok index /\
    (exists e rest,
        advance (Z.to_nat index) (_eventCollection m) = Ok (e :: rest) /\
        In e (_eventCollection m) /\
        exists m1, chooseEventAtRandom m = Ok (e, m1)).
Proof.
  intros n u Hn H0 H1 Hd.
  destruct (chooseEventAtRandom_nonempty m Hn H0 H1)
    as [e [[p [Ep [Ei [Hi [_ [En Ea]]]]]] [He E3]]].
  fold u in Ep. rewrite Hd in Ep. fold n in Ep, Hi.
  rewrite to_int_small by lia.
  exists p. split; [exact Ep|]. cbv zeta.
  split; [exact Hi|]. split.
  - unfold chosenIndex. now rewrite Ep.
  - destruct (nth_error_skipn_head _ _ _ En) as [rest Er].
    exists e, rest. split; [now rewrite Ea, Er|]. split; [exact He|].
    eexists. exact E3.
Qed.

(** ** The moves keep the state consistent *)

Lemma registry_event_index (m : Model) (e : nat) :
  Consistent m -> In e (_eventCollection m) ->
  exists N, getIndex (eventNode (_events m e)) = Some N /\
            In e (eventsOnBranch (_histories m N)).
Proof.
  intros [C _] He.
  destruct (cons_registry _ _ _ _ _ _ C e He) as [_ [_ [_ [i [E1 E2]]]]].
  now exists i.
Qed.

(** A move of the chosen event [e]: it returns, the state it leaves is
    consistent, and the event is where [movedEvent] says. *)
Lemma eventMove_chosen (local : bool) (m : Model) (e : nat) (m1 : Model) :
  Consistent m ->
  (getNumberOfEvents m >? 0)%Z = true ->
  chooseEventAtRandom m = Ok (e, m1) ->
  exists m' N N',
    eventMove local m = Ok m' /\ Consistent m' /\
    In e (_eventCollection m) /\
    _lastEventModified m' = Some e /\
    _events m' = update e (fun _ => movedEvent local m1 e) (_events m) /\
    getIndex (eventNode (_events m e)) = Some N /\
    getIndex (eventNode (movedEvent local m1 e)) = Some N' /\
    (forall j, eventsOnBranch (_histories m' j) =
               eventsOnBranch
                 (update N' (addEventToBranchHistory (_events m') e)
                    (update N (popEventOffBranchHistory e) (_histories m)) j)) /\
    (forall j, ~ In j (properIndices (_tree m)) ->
               nodeEvent (_histories m' j) = nodeEvent (_histories m j) /\
               ancestralNodeEvent (_histories m' j)
               = ancestralNodeEvent (_histories m j)) /\
    _tree m' = _tree m /\ _rootEvent m' = _rootEvent m /\
    _eventCollection m' = _eventCollection m /\ _scale m' = _scale m.
Proof.
  intros Cm Hn Hc.
  destruct (chooseEventAtRandom_Ok _ _ _ Hc) as [He Em1].
  destruct (registry_event_index m e Cm He) as [N [HN HinN]].
  destruct Cm as [Core Last].
  pose proof (cons_tree _ _ _ _ _ _ Core) as [_ [Wmap _]].
  destruct (cons_registry _ _ _ _ _ _ Core e He) as [_ [Pcur _]].
  set (be := movedEvent local m1 e).
  assert (Pbe : properNodeOf (getRoot (_tree m)) (eventNode be)).
  { unfold be, movedEvent. rewrite Em1. cbn. apply Wmap. }
  assert (Pold : properNodeOf (getRoot (_tree m)) (oldEventNode be)).
  { unfold be, movedEvent. rewrite Em1. cbn. exact Pcur. }
  set (m4 := with_rng
               (if local
                then snd (uniformRvRange 0 (_scale m1) (_rng m1))
                else snd (uniformRvRange 0 (getTotalMapLength (_tree m1))
                            (_rng m1)))
               (with_events (update e (fun _ => be) (_events m))
                  (with_histories
                     (update N (popEventOffBranchHistory e) (_histories m))
                     (with_lastEventModified (Some e) m1)))).
  destruct (relocate_tail m4 (_histories m) (_events m) e be N)
    as [h4 [N' [Et [C4 [HN' [L4 O4]]]]]].
  { unfold m4. rewrite Em1. cbn. exact Core. }
  { unfold m4. rewrite Em1. cbn. exact He. }
  { exact HN. }
  { unfold m4. rewrite Em1. cbn. exact Pbe. }
  { unfold m4. rewrite Em1. cbn. exact Pold. }
  { unfold m4. rewrite Em1. reflexivity. }
  { unfold m4. rewrite Em1. reflexivity. }
  exists (setMeanBranchParameters (with_histories h4 m4)), N, N'.
  split.
  - unfold eventMove. rewrite Hn, Hc. cbn [bind].
    unfold getLastEventOnBranchOf, getEventNode.
    assert (E1 : _events m1 = _events m) by (rewrite Em1; reflexivity).
    assert (H1 : _histories m1 = _histories m) by (rewrite Em1; reflexivity).
    rewrite E1, HN, H1. cbn [bind].
    unfold onBranchHistory at 1.
    cbn [_events with_lastEventModified]. rewrite E1, HN. cbn [bind].
    match goal with
    | |- bind ?X _ = _ =>
        replace X with (Ok (with_histories h4 m4)); [reflexivity|]
    end.
    rewrite <- Et. unfold m4, be, movedEvent.
    destruct local.
    + unfold moveEventLocal. cbn.
      destruct (uniformRvRange 0 (_scale m1) (_rng m1)) as [u r'] eqn:Eu.
      cbn. rewrite E1, H1. reflexivity.
    + unfold moveEventGlobal. cbn.
      destruct (uniformRvRange 0 (getTotalMapLength (_tree m1)) (_rng m1))
        as [u r'] eqn:Eu.
      cbn. rewrite E1, H1. reflexivity.
  - assert (F : _tree m4 = _tree m /\ _rootEvent m4 = _rootEvent m /\
                _eventCollection m4 = _eventCollection m /\
                _nextEvent m4 = _nextEvent m /\ _scale m4 = _scale m /\
                _events m4 = update e (fun _ => be) (_events m) /\
                _histories m4
                = update N (popEventOffBranchHistory e) (_histories m) /\
                _lastEventModified m4 = Some e).
    { unfold m4. rewrite Em1. cbn. repeat split. }
    destruct F as [F1 [F2 [F3 [F4 [F5 [F6 [F7 F8]]]]]]].
    split; [|split; [exact He|split; [exact F8|split; [exact F6|]]]].
    + split.
      * change (ConsistentCore (_tree m4) (_rootEvent m4) (_eventCollection m4)
                  h4 (_events m4) (_nextEvent m4)). exact C4.
      * change (forall x, _lastEventModified m4 = Some x ->
                          In x (_eventCollection m4)).
        rewrite F8, F3. intros x X. inversion X. subst. exact He.
    + split; [exact HN|]. split; [exact HN'|]. split; [|split].
      * intros j.
        change (eventsOnBranch (h4 j) =
                eventsOnBranch
                  (update N' (addEventToBranchHistory (_events m4) e)
                     (update N (popEventOffBranchHistory e) (_histories m)) j)).
        rewrite L4, F7. reflexivity.
      * intros j Hj.
        change (nodeEvent (h4 j) = nodeEvent (_histories m j) /\
                ancestralNodeEvent (h4 j) = ancestralNodeEvent (_histories m j)).
        apply O4. unfold properIndices in Hj. now rewrite F1.
      * change (_tree m4 = _tree m /\ _rootEvent m4 = _rootEvent m /\
                _eventCollection m4 = _eventCollection m /\
                _scale m4 = _scale m). auto.
Qed.

(** A revert of the event the last move touched: it returns, the state it
    leaves is consistent, and the event is where [revertedEvent] says. *)
Lemma revert_modified (m : Model) (e : nat) :
  Consistent m -> _lastEventModified m = Some e ->
  exists m' N N',
    revertMovedEventToPrevious m = Ok m' /\ Consistent m' /\
    _events m' = update e (fun _ => revertedEvent m e) (_events m) /\
    getIndex (eventNode (_events m e)) = Some N /\
    getIndex (eventNode (revertedEvent m e)) = Some N' /\
    (forall j, eventsOnBranch (_histories m' j) =
               eventsOnBranch
                 (update N' (addEventToBranchHistory (_events m') e)
                    (update N (popEventOffBranchHistory e) (_histories m)) j)) /\
    (forall j, ~ In j (properIndices (_tree m)) ->
               nodeEvent (_histories m' j) = nodeEvent (_histories m j) /\
               ancestralNodeEvent (_histories m' j)
               = ancestralNodeEvent (_histories m j)) /\
    _tree m' = _tree m /\ _rootEvent m' = _rootEvent m /\
    _eventCollection m' = _eventCollection m /\
    _lastEventModified m' = None.
Proof.
  intros Cm HL.
  assert (He : In e (_eventCollection m)) by (destruct Cm as [_ L]; now apply L).
  destruct (registry_event_index m e Cm He) as [N [HN HinN]].
  destruct Cm as [Core Last].
  destruct (cons_registry _ _ _ _ _ _ Core e He) as [_ [_ [Pold _]]].
  set (be := revertedEvent m e).
  set (m4 := with_events (update e (fun _ => be) (_events m))
               (with_histories
                  (update N (popEventOffBranchHistory e) (_histories m)) m)).
  destruct (relocate_tail m4 (_histories m) (_events m) e be N)
    as [h4 [N' [Et [C4 [HN' [L4 O4]]]]]];
    try (unfold m4; cbn; assumption); try reflexivity.
  exists (setMeanBranchParameters
            (with_lastEventModified None (with_histories h4 m4))), N, N'.
  split.
  - unfold revertMovedEventToPrevious. rewrite HL.
    unfold getLastEventOnBranchOf, getEventNode. rewrite HN. cbn [bind].
    unfold onBranchHistory at 1. rewrite HN. cbn [bind].
    destruct (bind_Ok_inv _ _ _ Et) as [m5 [Ea Et2]].
    destruct (bind_Ok_inv _ _ _ Et2) as [m6 [Eb Ec]].
    change (bind (onBranchHistory (getEventNode (_events m4 e))
                    (addEventToBranchHistory (_events m4) e) m4)
              (fun m3 =>
                 bind (forwardSetBranchHistories
                         (getLastEventFrom e (_histories m N)) m3)
                   (fun m4' =>
                      bind (forwardSetBranchHistories (Some e) m4')
                        (fun m5' =>
                           Ok (setMeanBranchParameters
                                 (with_lastEventModified None m5')))))
            = Ok (setMeanBranchParameters
                    (with_lastEventModified None (with_histories h4 m4)))).
    rewrite Ea. cbn [bind]. rewrite Eb. cbn [bind]. rewrite Ec. reflexivity.
  - split.
    + split.
      * change (ConsistentCore (_tree m4) (_rootEvent m4) (_eventCollection m4)
                  h4 (_events m4) (_nextEvent m4)). exact C4.
      * intros x X. discriminate.
    + split; [reflexivity|]. split; [exact HN|]. split; [exact HN'|].
      split; [|split].
      * intros j.
        change (eventsOnBranch (h4 j) =
                eventsOnBranch
                  (update N' (addEventToBranchHistory (_events m4) e)
                     (_histories m4) j)).
        apply L4.
      * intros j Hj.
        change (nodeEvent (h4 j) = nodeEvent (_histories m j) /\
                ancestralNodeEvent (h4 j) = ancestralNodeEvent (_histories m j)).
        apply O4. exact Hj.
      * repeat split.
Qed.

(** The insertion of the event just allocated, in the source: the event is
    put on its branch and in the Registry, and the histories are set
    forward from it. *)
Lemma insert_allocated (m m1 : Model) (be : BranchEvent) :
  ConsistentCore (_tree m) (_rootEvent m) (_eventCollection m) (_histories m)
    (_events m) (_nextEvent m) ->
  properNodeOf (getRoot (_tree m)) (eventNode be) ->
  oldEventNode be = eventNode be ->
  _tree m1 = _tree m -> _rootEvent m1 = _rootEvent m ->
  _eventCollection m1 = _eventCollection m -> _histories m1 = _histories m ->
  _events m1 = update (_nextEvent m) (fun _ => be) (_events m) ->
  _nextEvent m1 = S (_nextEvent m) ->
  let e := _nextEvent m in
  exists N' h4,
    getIndex (eventNode be) = Some N' /\
    let m2 := with_histories
                (update N' (addEventToBranchHistory (_events m1) e)
                   (_histories m1)) m1 in
    onBranchHistory (getEventNode (_events m1 e))
      (addEventToBranchHistory (_events m1) e) m1 = Ok m2 /\
    forwardSetBranchHistories (Some e) (EventSet_insert e m2)
    = Ok (with_histories h4 (EventSet_insert e m2)) /\
    ConsistentCore (_tree m) (_rootEvent m)
      (insertEventSet e (_eventCollection m)) h4 (_events m1)
      (S (_nextEvent m)) /\
    (forall j, h4 j = spec_forwardSet (getRoot (_tree m)) (_rootEvent m) e
                        (eventNode be)
                        (update N' (addEventToBranchHistory (_events m1) e)
                           (_histories m)) j).
Proof.
  intros Core HP Hold F1 F2 F3 F4 F5 F6 e.
  pose proof (cons_tree _ _ _ _ _ _ Core) as [WT _].
  destruct (cons_root _ _ _ _ _ _ Core) as [re0 [Hre [Rn [Rr Rlt]]]].
  destruct (nodeOf_index _ _ (proj1 HP)) as [N' [HN' _]].
  assert (Ee : _events m1 e = be) by (rewrite F5; apply update_same).
  set (m2 := with_histories
               (update N' (addEventToBranchHistory (_events m1) e)
                  (_histories m1)) m1).
  destruct (forwardSetBranchHistories_refines (EventSet_insert e m2) e)
    as [h4 [E4 S4]].
  { cbn. rewrite F1. exact WT. }
  { cbn. rewrite Ee, F1. apply HP. }
  { cbn. rewrite F2, Hre. intros X. inversion X. unfold e in *. lia. }
  exists N', h4. split; [exact HN'|]. fold m2. cbv zeta.
  split; [unfold onBranchHistory, getEventNode; now rewrite Ee, HN'|].
  split; [exact E4|].
  cbn in S4. rewrite Ee, F1, F2, F4 in S4.
  split.
  - rewrite F5.
    apply (insert_fresh_core _ _ _ _ _ _ be N' Core HP Hold HN').
    intros j. rewrite S4, F5. reflexivity.
  - exact S4.
Qed.

Lemma addEventToTreeAt_consistent (x : Q) (m : Model) :
  Consistent m ->
  exists m', addEventToTreeAt x m = Ok m' /\ Consistent m'.
Proof.
  intros [Core Last].
  pose proof (cons_tree _ _ _ _ _ _ Core) as [_ [Wmap _]].
  unfold addEventToTreeAt, newBranchEventWithRandomParameters.
  destruct (drawParameters (_specific m) (_rng m)) as [ps r].
  set (be := mkBranchEvent (mapEventToTree (_tree m) x) x
               (mapEventToTree (_tree m) x) x ps).
  set (m1 := with_rng r _).
  destruct (insert_allocated m m1 be Core (Wmap x) eq_refl)
    as [N' [h4 [HN' [E2 [E4 [C4 _]]]]]]; try reflexivity.
  rewrite E2. cbn [bind]. rewrite E4. cbn [bind].
  eexists. split; [reflexivity|]. split.
  - exact C4.
  - cbn. intros y X. inversion X. apply In_insertEventSet. now left.
Qed.

Lemma addEventToTree_consistent (m : Model) :
  Consistent m ->
  exists m', addEventToTree m = Ok m' /\ Consistent m'.
Proof.
  intros Cm. unfold addEventToTree.
  destruct Cm as [Core Last].
  pose proof (cons_tree _ _ _ _ _ _ Core) as [[NN _] _].
  destruct (getRoot (_tree m)) as [|r ar tr mr lfR rtR] eqn:Hroot;
    [discriminate|].
  destruct (uniformRvRange _ _ _) as [x r'].
  apply addEventToTreeAt_consistent. split; cbn; assumption.
Qed.

(** ** The initializer *)

Lemma ConsistentCore_events_ext T re reg h ev ev' n :
  (forall y, eventNode (ev' y) = eventNode (ev y) /\
             oldEventNode (ev' y) = oldEventNode (ev y)) ->
  ConsistentCore T re reg h ev n -> ConsistentCore T re reg h ev' n.
Proof.
  intros E [F1 [re0 [R1 [R2 R3]]] F3 F4 F5 F6 F7]. constructor; auto.
  - exists re0. split; [exact R1|]. split; [|exact R3].
    destruct (E re0) as [-> _]. exact R2.
  - intros y Hy. destruct (E y) as [-> ->]. now apply F3.
  - intros i y Hy. destruct (E y) as [-> _]. now apply F4.
Qed.

Lemma Node_eqb_root_false (root x : Node) :
  nodeOf root x -> Node_eqb x root = false -> properNodeOf root x.
Proof.
  intros Hx E. split; [exact Hx|]. intros X. unfold Node_eqb in E.
  rewrite X in E. destruct (getIndex root); [|discriminate].
  rewrite Nat.eqb_refl in E. discriminate.
Qed.

(** A record that resolves to the root only changes the parameters of the
    Root Event. *)
Lemma initializeEvent_root (r : EventRecord) (m : Model) (x : Node) (re : nat) :
  resolveEventNode r m = Ok x ->
  Node_eqb x (getRoot (_tree m)) = true ->
  _rootEvent m = Some re ->
  initializeEvent r m =
  Ok (with_events
        (update re
           (fun b => mkBranchEvent (eventNode b) (mapTime b) (oldEventNode b)
                       (oldMapTime b) (readParameters r))
           (_events m)) m).
Proof.
  intros Hx Hr Hre. unfold initializeEvent. rewrite Hx. cbn [bind].
  rewrite Hr. unfold setRootEventWithReadParameters. now rewrite Hre.
Qed.

(** A record that resolves to a node with an incoming branch allocates an
    event there, puts it on the branch and in the Registry, sets the
    histories forward from it and recomputes the means. *)
Lemma initializeEvent_proper (r : EventRecord) (m : Model) (x : Node) :
  Consistent m ->
  resolveEventNode r m = Ok x ->
  Node_eqb x (getRoot (_tree m)) = false -> isNULL x = false ->
  let e := _nextEvent m in
  let newMapTime := getMapStart x + (getTime x - eTime r) in
  let be := mkBranchEvent x newMapTime x newMapTime (readParameters r) in
  exists m' N' h4,
    initializeEvent r m = Ok m' /\ Consistent m' /\
    getIndex x = Some N' /\
    _events m' = update e (fun _ => be) (_events m) /\
    _eventCollection m' = insertEventSet e (_eventCollection m) /\
    _histories m' = h4 /\
    (forall j, h4 j = spec_forwardSet (getRoot (_tree m)) (_rootEvent m) e x
                        (update N' (addEventToBranchHistory (_events m') e)
                           (_histories m)) j) /\
    _meanBranchParameters m'
    = meanBranchParametersOf (_specific m) (_histories m') (_events m') /\
    _nextEvent m' = S e /\ _lastEventModified m' = _lastEventModified m /\
    _rng m' = _rng m.
Proof.
  intros [Core Last] Hx Hr Hnull e newMapTime be.
  pose proof (cons_tree _ _ _ _ _ _ Core) as [WT [_ [Wm Wn]]].
  assert (Hnode : nodeOf (getRoot (_tree m)) x).
  { unfold resolveEventNode in Hx.
    destruct (negb (String.eqb (species1 r) NA) &&
              negb (String.eqb (species2 r) NA)).
    - destruct (Wm _ _ _ Hx) as [->|X]; [discriminate|exact X].
    - destruct (negb (String.eqb (species1 r) NA) &&
                String.eqb (species2 r) NA); [|discriminate].
      destruct (Wn _ _ Hx) as [->|X]; [discriminate|exact X]. }
  pose proof (Node_eqb_root_false _ _ Hnode Hr) as HP.
  set (m1 := with_nextEvent (S e)
               (with_events (update e (fun _ => be) (_events m)) m)).
  destruct (insert_allocated m m1 be Core HP eq_refl)
    as [N' [h4 [HN' [E2 [E4 [C4 S4]]]]]]; try reflexivity.
  eexists. exists N', h4. split.
  - unfold initializeEvent. rewrite Hx. cbn [bind]. rewrite Hr.
    destruct x as [|i a t ms lf rt]; [discriminate|].
    unfold newBranchEventWithReadParameters. cbv beta iota zeta.
    fold e. fold newMapTime. fold be. fold m1. unfold e.
    rewrite E2. cbn [bind]. rewrite E4. cbn [bind]. reflexivity.
  - split.
    + split; [exact C4|].
      cbn. intros y Hy. apply In_insertEventSet. right. now apply Last.
    + split; [exact HN'|]. split; [reflexivity|]. split; [reflexivity|].
      split; [reflexivity|]. split; [exact S4|]. repeat split.
Qed.

Lemma initializeEvent_consistent (r : EventRecord) (m m' : Model) :
  Consistent m -> initializeEvent r m = Ok m' -> Consistent m'.
Proof.
  intros Cm H.
  destruct (resolveEventNode r m) as [x| |] eqn:Hx;
    try (unfold initializeEvent in H; rewrite Hx in H; discriminate).
  destruct (Node_eqb x (getRoot (_tree m))) eqn:Hr.
  - destruct Cm as [Core Last].
    destruct (cons_root _ _ _ _ _ _ Core) as [re [Hre _]].
    rewrite (initializeEvent_root r m x re Hx Hr Hre) in H.
    inversion H; subst m'. split; [|exact Last].
    cbn. apply ConsistentCore_events_ext with (ev := _events m); [|exact Core].
    intros y. unfold update.
    destruct (Nat.eqb y re) eqn:E; [apply Nat.eqb_eq in E; rewrite E|];
      split; reflexivity.
  - destruct (isNULL x) eqn:Hn.
    + unfold initializeEvent in H. rewrite Hx in H. cbn [bind] in H.
      rewrite Hr in H. destruct x; discriminate.
    + destruct (initializeEvent_proper r m x Cm Hx Hr Hn)
        as [m2 [N' [h4 [E [C _]]]]].
      rewrite E in H. inversion H. now subst.
Qed.

(** C6, as the source has it.  The tree position of a record is the
    most-recent-common-ancestor of the two species when both names are
    given, the node of the first species when the second is "NA", and the
    initializer ends the process at this point exactly when the first name
    is "NA", whatever the second is. *)
Theorem resolveEventNode_cases (r : EventRecord) (m : Model) :
  (species1 r <> NA -> species2 r <> NA ->
   resolveEventNode r m = getNodeMRCA (_tree m) (species1 r) (species2 r)) /\
  (species1 r <> NA -> species2 r = NA ->
   resolveEventNode r m = getNodeByName (_tree m) (species1 r)) /\
  (species1 r = NA -> resolveEventNode r m = FatalExit) /\
  ((forall s1 s2, getNodeMRCA (_tree m) s1 s2 <> FatalExit) ->
   (forall s, getNodeByName (_tree m) s <> FatalExit) ->
   (resolveEventNode r m = FatalExit <-> species1 r = NA)).
Proof.
  unfold resolveEventNode.
  destruct (String.eqb (species1 r) NA) eqn:E1.
  - apply String.eqb_eq in E1. cbn [negb andb].
    split; [intros X; contradiction|]. split; [intros X; contradiction|].
    split; [reflexivity|]. intros _ _. split; [intros _; exact E1|reflexivity].
  - apply String.eqb_neq in E1. cbn [negb andb].
    destruct (String.eqb (species2 r) NA) eqn:E2.
    + apply String.eqb_eq in E2. cbn [negb].
      split; [intros _ X; contradiction|]. split; [reflexivity|].
      split; [intros X; contradiction|]. intros _ Hn.
      split; [intros X; exfalso; exact (Hn _ X)|intros X; contradiction].
    + apply String.eqb_neq in E2. cbn [negb].
      split; [reflexivity|]. split; [intros _ X; contradiction|].
      split; [intros X; contradiction|]. intros Hm _.
      split; [intros X; exfalso; exact (Hm _ _ X)|intros X; contradiction].
Qed.

(** ** The invariant of the effective events *)

Lemma eventMove_consistent (local : bool) (m m' : Model) :
  Consistent m -> eventMove local m = Ok m' -> Consistent m'.
Proof.
  intros Cm H.
  destruct (getNumberOfEvents m >? 0)%Z eqn:Hn.
  - destruct (chooseEventAtRandom m) as [[e m1]| |] eqn:Hc;
      try (unfold eventMove in H; rewrite Hn, Hc in H; discriminate).
    destruct (eventMove_chosen local m e m1 Cm Hn Hc)
      as [m2 [N [N' [E [C _]]]]].
    rewrite E in H. inversion H. now subst.
  - unfold eventMove in H. rewrite Hn in H. cbn [bind] in H.
    inversion H. subst m'. destruct Cm as [Core Last]. split; assumption.
Qed.

Lemma revert_consistent (m m' : Model) :
  Consistent m -> revertMovedEventToPrevious m = Ok m' -> Consistent m'.
Proof.
  intros Cm H.
  destruct (_lastEventModified m) as [e|] eqn:HL;
    [|unfold revertMovedEventToPrevious in H; rewrite HL in H; discriminate].
  destruct (revert_modified m e Cm HL) as [m2 [N [N' [E [C _]]]]].
  rewrite E in H. inversion H. now subst.
Qed.

Lemma reachable_consistent (m : Model) : reachable m -> Consistent m.
Proof.
  induction 1 as [m C|m x m' _ IH E|m m' _ IH E|m local m' _ IH E
                 |m m' _ IH E|m r m' _ IH E].
  - exact C.
  - destruct (addEventToTreeAt_consistent x m IH) as [m2 [E2 C2]].
    rewrite E in E2. inversion E2. now subst.
  - destruct (addEventToTree_consistent m IH) as [m2 [E2 C2]].
    rewrite E in E2. inversion E2. now subst.
  - eapply eventMove_consistent; eauto.
  - eapply revert_consistent; eauto.
  - eapply initializeEvent_consistent; eauto.
Qed.

Lemma cachesOk_at (h : nat -> BranchHistory) (p : Node) :
  forall a0 i a t ms lf rt,
    cachesOk nowhere h a0 p -> linked (Some a0) p ->
    nodeOf p (mkNode i (Some a) t ms lf rt) ->
    nodeEvent (h i) = effectiveEvent (h i) (nodeEvent (h a)) /\
    ancestralNodeEvent (h i) = nodeEvent (h a).
Proof.
  induction p as [|i' a' t' ms' lf' IHlf rt' IHrt];
    intros a0 i a t ms lf rt C L Hn; [contradiction|].
  destruct C as [C1 [C2 [C3 C4]]]. destruct L as [La [_ [L1 L2]]].
  destruct Hn as [Hn|[Hn|Hn]].
  - injection Hn as E1 E2 E3 E4 E5 E6. rewrite La in E2.
    injection E2 as E2. rewrite E1, E2.
    split; [apply C2; intros []|exact C1].
  - eapply IHlf; eauto.
  - eapply IHrt; eauto.
Qed.

(** C1.  In every state the model reaches from a consistent one, by any
    sequence of [addEventToTree], [eventMove], [revertMovedEventToPrevious]
    and insertions of the initializer, the [nodeEvent] of every node that
    has an ancestor is the most-tipward event of the node's own branch
    history when that history is not empty, and the [nodeEvent] of the
    ancestor when it is. *)
Theorem nodeEvent_invariant (m : Model) :
  reachable m ->
  forall i a t ms lf rt,
    nodeOf (getRoot (_tree m)) (mkNode i (Some a) t ms lf rt) ->
    nodeEvent (_histories m i) =
    if isEmpty (_histories m i) then nodeEvent (_histories m a)
    else getLastEvent (_histories m i).
Proof.
  intros R i a t ms lf rt Hn.
  destruct (reachable_consistent m R) as [Core _].
  pose proof (cons_tree _ _ _ _ _ _ Core) as [[NN [L ND]] _].
  pose proof (cons_caches _ _ _ _ _ _ Core) as T.
  destruct (getRoot (_tree m)) as [|r ar tr mr lfR rtR]; [discriminate|].
  destruct T as [T1 T2]. destruct L as [Lr [_ [L1 L2]]].
  destruct Hn as [Hn|[Hn|Hn]].
  - inversion Hn; subst. discriminate.
  - apply (cachesOk_at _ lfR r i a t ms lf rt T1 L1 Hn).
  - apply (cachesOk_at _ rtR r i a t ms lf rt T2 L2 Hn).
Qed.

(** ** A move followed by a revert *)

Lemma Qlt_bool_true (a b : Q) : a < b -> Qlt_bool a b = true.
Proof.
  intros H. unfold Qlt_bool. destruct (Qle_bool b a) eqn:E; [|reflexivity].
  apply Qle_bool_iff in E. exfalso. exact (Qlt_not_le _ _ H E).
Qed.

Lemma Qlt_bool_false (a b : Q) : b < a -> Qlt_bool a b = false.
Proof.
  intros H. unfold Qlt_bool.
  assert (E : Qle_bool b a = true) by (apply Qle_bool_iff; now apply Qlt_le_weak).
  now rewrite E.
Qed.

(** On a branch with distinct positions, an event taken off and put back at
    its position is back in its place. *)
Lemma insert_erase_increasing ev ev' e l :
  increasing ev l -> In e l ->
  (forall y, In y l -> mapTime (ev' y) = mapTime (ev y)) ->
  insertByMapTime ev' e (eraseEvent e l) = l.
Proof.
  induction l as [|y l IH]; intros Hs Hin Hm; [contradiction|].
  destruct Hs as [Hy Hs]. cbn [eraseEvent].
  destruct (Nat.eqb y e) eqn:E.
  - apply Nat.eqb_eq in E. subst y.
    destruct l as [|z l']; [reflexivity|].
    cbn [insertByMapTime].
    rewrite (Hm e) by now left. rewrite (Hm z) by (right; now left).
    rewrite Qlt_bool_true; [reflexivity|]. apply Hy. now left.
  - destruct Hin as [->|Hin]; [rewrite Nat.eqb_refl in E; discriminate|].
    cbn [insertByMapTime].
    rewrite (Hm e) by now right. rewrite (Hm y) by now left.
    rewrite Qlt_bool_false by now apply Hy.
    f_equal. apply IH; auto. intros z Hz. apply Hm. now right.
Qed.

(** The right caches of a subtree are determined by the events on its
    branches and by what the subtree inherits. *)
Lemma cachesOk_unique (h h' : nat -> BranchHistory) (p : Node) :
  forall a, cachesOk nowhere h a p -> cachesOk nowhere h' a p ->
    (forall j, eventsOnBranch (h' j) = eventsOnBranch (h j)) ->
    nodeEvent (h' a) = nodeEvent (h a) ->
    forall j, In j (indices p) ->
      nodeEvent (h' j) = nodeEvent (h j) /\
      ancestralNodeEvent (h' j) = ancestralNodeEvent (h j).
Proof.
  induction p as [|i a' t ms lf IHlf rt IHrt]; intros a C C' El Ea j Hj;
    [contradiction|].
  destruct C as [C1 [C2 [C3 C4]]]. destruct C' as [C1' [C2' [C3' C4']]].
  assert (Ei : nodeEvent (h' i) = nodeEvent (h i)).
  { rewrite C2, C2' by (intros []). unfold effectiveEvent, isEmpty, getLastEvent.
    now rewrite El, Ea. }
  simpl in Hj. destruct Hj as [<-|Hj].
  - split; [exact Ei|]. now rewrite C1, C1', Ea.
  - apply in_app_or in Hj. destruct Hj as [Hj|Hj].
    + now apply (IHlf i).
    + now apply (IHrt i).
Qed.

(** C2.  In a consistent state whose branches hold their events at
    distinct map positions, with at least one event in a Registry that fits
    an [int] and a generator whose next draw is in [0,1), a local or global
    move returns, and the revert called right after it returns too and
    puts the moved event back on its node, at its map position and in its
    place on the branch, with the [nodeEvent] and the [ancestralNodeEvent]
    of every node as they were before the move. *)
Theorem move_then_revert (local : bool) (m : Model) :
  Consistent m -> distinctPositions m ->
  (1 <= Z.of_nat (List.length (_eventCollection m)) <= INT_MAX)%Z ->
  0 <= draws (_rng m) (consumed (_rng m)) ->
  draws (_rng m) (consumed (_rng m)) < 1 ->
  exists e m1 m2,
    eventMove local m = Ok m1 /\ _lastEventModified m1 = Some e /\
    In e (_eventCollection m) /\
    revertMovedEventToPrevious m1 = Ok m2 /\
    eventNode (_events m2 e) = eventNode (_events m e) /\
    mapTime (_events m2 e) = mapTime (_events m e) /\
    (forall j, eventsOnBranch (_histories m2 j)
               = eventsOnBranch (_histories m j)) /\
    (forall j, nodeEvent (_histories m2 j) = nodeEvent (_histories m j) /\
               ancestralNodeEvent (_histories m2 j)
               = ancestralNodeEvent (_histories m j)).
Proof.
  intros Cm Hs Hn H0 H1.
  destruct (chooseEventAtRandom_nonempty m Hn H0 H1) as [e [_ [_ Hc]]].
  assert (Hpos : (getNumberOfEvents m >? 0)%Z = true).
  { unfold getNumberOfEvents. rewrite to_int_small by lia. apply Z.gtb_lt. lia. }
  destruct (eventMove_chosen local m e _ Cm Hpos Hc)
    as [m1 [N0 [N1 [E1 [C1 [He [HL1 [Ev1 [HN0 [HN1 [L1 [O1 [T1 [R1 [G1 _]]]]]]]]]]]]]]].
  destruct (revert_modified m1 e C1 HL1)
    as [m2 [Na [Nb [E2 [C2 [Ev2 [HNa [HNb [L2 [O2 [T2 [R2 [G2 _]]]]]]]]]]]]].
  set (m0' := with_rng _ m) in *.
  assert (Ecur : _events m1 e = movedEvent local m0' e)
    by (rewrite Ev1; apply update_same).
  assert (Eold : oldEventNode (_events m1 e) = eventNode (_events m e) /\
                 oldMapTime (_events m1 e) = mapTime (_events m e))
    by (rewrite Ecur; split; reflexivity).
  destruct Eold as [Eold1 Eold2].
  assert (Erev : _events m2 e = revertedEvent m1 e)
    by (rewrite Ev2; apply update_same).
  assert (Enode : eventNode (_events m2 e) = eventNode (_events m e))
    by (rewrite Erev; exact Eold1).
  assert (Etime : mapTime (_events m2 e) = mapTime (_events m e))
    by (rewrite Erev; exact Eold2).
  assert (Eother : forall y, y <> e -> _events m2 y = _events m y).
  { intros y Hy. rewrite Ev2, update_other, Ev1, update_other by exact Hy.
    reflexivity. }
  assert (ENa : Na = N1) by (rewrite Ecur, HN1 in HNa; now inversion HNa).
  assert (ENb : Nb = N0).
  { unfold revertedEvent in HNb. cbn in HNb. rewrite Eold1, HN0 in HNb.
    now inversion HNb. }
  subst Na Nb.
  destruct Cm as [Core Last].
  assert (HinN0 : In e (eventsOnBranch (_histories m N0))).
  { destruct (cons_registry _ _ _ _ _ _ Core e He) as [_ [_ [_ [i [X1 X2]]]]].
    rewrite HN0 in X1. inversion X1. now subst. }
  assert (Hlists : forall j, eventsOnBranch (_histories m2 j)
                             = eventsOnBranch (_histories m j)).
  { intros j. rewrite L2, events_update_add.
    assert (P1 : forall k, eventsOnBranch
                             (update N1 (popEventOffBranchHistory e)
                                (_histories m1) k)
                           = eventsOnBranch
                               (update N0 (popEventOffBranchHistory e)
                                  (_histories m) k)).
    { intros k. rewrite events_update_pop.
      destruct (Nat.eqb k N1) eqn:E.
      - apply Nat.eqb_eq in E. subst k.
        rewrite L1, events_update_add, Nat.eqb_refl.
        apply eraseEvent_insertByMapTime.
        rewrite events_update_pop. destruct (Nat.eqb N1 N0) eqn:E'.
        + apply eraseEvent_removes. apply (cons_nodup _ _ _ _ _ _ Core).
        + intros X. destruct (cons_histories _ _ _ _ _ _ Core N1 e X) as [_ Y].
          rewrite HN0 in Y. inversion Y. subst.
          rewrite Nat.eqb_refl in E'. discriminate.
      - rewrite L1, events_update_add, E. reflexivity. }
    destruct (Nat.eqb j N0) eqn:E.
    - apply Nat.eqb_eq in E. subst j.
      rewrite P1, events_update_pop, Nat.eqb_refl.
      apply insert_erase_increasing with (ev := _events m); auto.
      intros y Hy. destruct (Nat.eq_dec y e) as [->|Hne];
        [exact Etime|now rewrite Eother].
    - rewrite P1, events_update_pop, E. reflexivity. }
  exists e, m1, m2. repeat (split; [assumption|]).
  intros j.
  destruct (in_dec Nat.eq_dec j (properIndices (_tree m))) as [Hj|Hj].
  - destruct C2 as [Core2 _].
    pose proof (cons_tree _ _ _ _ _ _ Core) as [[NN [L ND]] _].
    pose proof (cons_caches _ _ _ _ _ _ Core) as K0.
    pose proof (cons_caches _ _ _ _ _ _ Core2) as K2.
    rewrite T2, T1 in K2. unfold properIndices in Hj.
    destruct (getRoot (_tree m)) as [|r ar tr mr lfR rtR] eqn:Hroot;
      [discriminate|].
    cbn [getLfDesc getRtDesc] in Hj.
    simpl in ND. inversion ND as [|? ? Hr ND']; subst.
    assert (Er : nodeEvent (_histories m2 r) = nodeEvent (_histories m r)).
    { assert (Hr' : ~ In r (properIndices (_tree m)))
        by (unfold properIndices; rewrite Hroot; exact Hr).
      destruct (O1 r Hr') as [X1 _].
      rewrite <- T1 in Hr'. destruct (O2 r Hr') as [X2 _]. congruence. }
    destruct K0 as [K01 K02]. destruct K2 as [K21 K22].
    apply in_app_or in Hj. destruct Hj as [Hj|Hj].
    + exact (cachesOk_unique _ _ lfR r K01 K21 Hlists Er j Hj).
    + exact (cachesOk_unique _ _ rtR r K02 K22 Hlists Er j Hj).
  - destruct (O1 j Hj) as [X1 X1'].
    rewrite <- T1 in Hj. destruct (O2 j Hj) as [X2 X2']. split; congruence.
Qed.

(** ** The initializer, record by record *)


(** ** Moves on an empty Registry, local moves *)

(** C8, as the source has it.  With an empty Registry [eventMove] does not
    choose, move or draw: all it does is recompute the derived means from
    the histories and the events, which it leaves as they are; so the
    Registry, every branch history with its cached events, the events,
    [_lastEventModified] and the generator are unchanged, and when the
    derived means were those of the state before the call they are
    unchanged as well: the state is returned as it was. *)
Theorem eventMove_empty_registry (local : bool) (m : Model) :
  _eventCollection m = [] ->
  eventMove local m = Ok (setMeanBranchParameters m) /\
  _eventCollection (setMeanBranchParameters m) = _eventCollection m /\
  _histories (setMeanBranchParameters m) = _histories m /\
  _events (setMeanBranchParameters m) = _events m /\
  _lastEventModified (setMeanBranchParameters m) = _lastEventModified m /\
  _rng (setMeanBranchParameters m) = _rng m /\
  (_meanBranchParameters m
   = meanBranchParametersOf (_specific m) (_histories m) (_events m) ->
   eventMove local m = Ok m).
Proof.
  intros He.
  assert (E : eventMove local m = Ok (setMeanBranchParameters m)).
  { unfold eventMove, getNumberOfEvents. rewrite He. reflexivity. }
  split; [exact E|]. repeat split.
  intros Hm. rewrite E. f_equal.
  unfold setMeanBranchParameters. rewrite <- Hm. destruct m. reflexivity.
Qed.

Lemma uniformRvRange_bounds (lo hi : Q) (r : MbRandom) :
  0 <= draws r (consumed r) -> draws r (consumed r) < 1 -> lo < hi ->
  lo <= fst (uniformRvRange lo hi r) /\ fst (uniformRvRange lo hi r) < hi.
Proof.
  intros H0 H1 Hlh. unfold uniformRvRange, uniformRv. cbn [fst].
  set (u := draws r (consumed r)) in *.
  assert (Hd : 0 < hi - lo) by (unfold Qminus; rewrite <- Qlt_minus_iff; exact Hlh).
  split.
  - rewrite <- (Qplus_0_r lo) at 1. apply Qplus_le_r.
    apply Qmult_le_0_compat; [exact H0|now apply Qlt_le_weak].
  - assert (K : u * (hi - lo) < 1 * (hi - lo))
      by (apply Qmult_lt_compat_r; assumption).
    setoid_replace hi with (lo + 1 * (hi - lo)) at 2 by ring.
    now apply Qplus_lt_r.
Qed.

(** C9.  The scale of the local moves is set when the model is built, to
    the configured location scale times the maximum root-to-tip length of
    the tree, and a move leaves it as it is.  A local move of the chosen
    event, at map position [oldPos], takes one draw [U] of
    [uniformRv(0, scale)], which lies in [0,scale), and puts the event at
    [oldPos + (U - 0.5 * scale)], that is at [oldPos + U - 0.5 * scale]. *)
Theorem local_move_position (m : Model) :
  Consistent m ->
  (1 <= Z.of_nat (List.length (_eventCollection m)) <= INT_MAX)%Z ->
  (forall k, 0 <= draws (_rng m) k /\ draws (_rng m) k < 1) ->
  0 < _scale m ->
  (forall rng tree settings prior specific histories events means,
      _scale (newModel rng tree settings prior specific histories events means)
      = getUpdateEventLocationScale settings * maxRootToTipLength tree) /\
  exists e m1 U,
    eventMove true m = Ok m1 /\ _lastEventModified m1 = Some e /\
    In e (_eventCollection m) /\ _scale m1 = _scale m /\
    U = fst (uniformRvRange 0 (_scale m) (snd (uniformRv (_rng m)))) /\
    0 <= U /\ U < _scale m /\
    mapTime (_events m1 e)
    = mapTime (_events m e) + (U - (1 # 2) * _scale m) /\
    mapTime (_events m1 e) == mapTime (_events m e) + U - (1 # 2) * _scale m.
Proof.
  intros Cm Hn Hu Hs. split; [reflexivity|].
  destruct (Hu (consumed (_rng m))) as [H0 H1].
  destruct (chooseEventAtRandom_nonempty m Hn H0 H1) as [e [_ [_ Hc]]].
  assert (Hpos : (getNumberOfEvents m >? 0)%Z = true).
  { unfold getNumberOfEvents. rewrite to_int_small by lia. apply Z.gtb_lt. lia. }
  destruct (eventMove_chosen true m e _ Cm Hpos Hc)
    as [m1 [N0 [N1 [E1 [C1 [He [HL1 [Ev1 [_ [_ [_ [_ [_ [_ [_ G1]]]]]]]]]]]]]]].
  exists e, m1, (fst (uniformRvRange 0 (_scale m) (snd (uniformRv (_rng m))))).
  split; [exact E1|]. split; [exact HL1|]. split; [exact He|].
  split; [exact G1|]. split; [reflexivity|].
  destruct (uniformRvRange_bounds 0 (_scale m) (snd (uniformRv (_rng m))))
    as [B0 B1]; try apply Hu; try exact Hs.
  split; [exact B0|]. split; [exact B1|].
  assert (K : mapTime (_events m1 e) =
              mapTime (_events m e) +
              (fst (uniformRvRange 0 (_scale m) (snd (uniformRv (_rng m))))
               - (1 # 2) * _scale m)).
  { rewrite Ev1, update_same. reflexivity. }
  split; [exact K|]. rewrite K. ring.
Qed.

(** ** What forward setting leaves alone *)

Lemma spec_propagate_nonempty (inh : EventPtr) (p : Node) :
  forall h j, isEmpty (h j) = false ->
    nodeEvent (spec_propagate inh p h j) = nodeEvent (h j).
Proof.
  induction p as [|i a t ms lf IHlf rt IHrt]; intros h j E; simpl; [reflexivity|].
  destruct (isEmpty (h i)) eqn:Ei.
  - assert (Hji : j <> i) by (intros ->; congruence).
    rewrite IHrt, IHlf.
    + now rewrite !update_other.
    + now rewrite !update_other.
    + rewrite spec_propagate_isEmpty. now rewrite !update_other.
  - unfold update. destruct (Nat.eqb j i) eqn:Eji; [|reflexivity].
    apply Nat.eqb_eq in Eji. now subst.
Qed.

Lemma spec_propagate_unvisited (inh : EventPtr) (p : Node) :
  forall h j, ~ visits h p j -> spec_propagate inh p h j = h j.
Proof.
  induction p as [|i a t ms lf IHlf rt IHrt]; intros h j V; simpl; [reflexivity|].
  simpl in V.
  assert (Hji : j <> i) by (intros ->; apply V; now left).
  destruct (isEmpty (h i)) eqn:Ei.
  - set (h2 := update i (setNodeEvent inh)
                 (update i (setAncestralNodeEvent inh) h)).
    assert (Hh2e : forall k, isEmpty (h2 k) = isEmpty (h k)).
    { intros k. unfold isEmpty, h2. now rewrite !update_events. }
    rewrite IHrt, IHlf.
    + unfold h2. now rewrite !update_other.
    + intros X. apply V. right. split; [reflexivity|]. left.
      apply visits_mono with (h := h2); [|exact X].
      intros k _ Ek. now rewrite <- Hh2e.
    + intros X. apply V. right. split; [reflexivity|]. right.
      apply visits_mono with (h := spec_propagate inh lf h2); [|exact X].
      intros k _ Ek. now rewrite <- Hh2e, <- (spec_propagate_isEmpty inh lf).
  - now rewrite update_other.
Qed.

(** The descent does not get below a node that has events of its own. *)
Lemma visits_shielded (h : nat -> BranchHistory) (p : Node)
  (i : nat) (a : option nat) (t s : Q) (ln rn : Node) :
  nodeOf p (mkNode i a t s ln rn) -> isEmpty (h i) = false ->
  NoDup (indices p) ->
  forall j, In j (indices ln ++ indices rn) -> ~ visits h p j.
Proof.
  induction p as [|i' a' t' s' lf IHlf rt IHrt]; intros Hn E ND j Hj;
    [contradiction|].
  simpl in ND. apply NoDup_cons_iff in ND. destruct ND as [Hi' ND'].
  assert (Sub : forall c, nodeOf c (mkNode i a t s ln rn) -> In j (indices c)).
  { intros c Hc. apply (nodeOf_indices _ _ Hc). simpl. now right. }
  destruct Hn as [Hn|[Hn|Hn]].
  - injection Hn as -> -> -> -> -> ->.
    intros [->|[X _]]; [contradiction|congruence].
  - intros [->|[_ [V|V]]].
    + apply Hi', in_or_app. left. now apply Sub.
    + revert V. apply IHlf; auto. eapply NoDup_app_l; eauto.
    + apply visits_in in V.
      exact (NoDup_app_disjoint _ _ _ ND' (Sub lf Hn) V).
  - intros [->|[_ [V|V]]].
    + apply Hi', in_or_app. right. now apply Sub.
    + apply visits_in in V.
      exact (NoDup_app_disjoint _ _ _ ND' V (Sub rt Hn)).
    + revert V. apply IHrt; auto. eapply NoDup_app_r; eauto.
Qed.

Lemma descend_both_shielded (inh : EventPtr) (lf rt : Node)
  (h : nat -> BranchHistory)
  (i : nat) (a : option nat) (t s : Q) (ln rn : Node) :
  NoDup (indices lf ++ indices rt) ->
  nodeOf lf (mkNode i a t s ln rn) \/ nodeOf rt (mkNode i a t s ln rn) ->
  isEmpty (h i) = false ->
  let h' := spec_propagate inh rt (spec_propagate inh lf h) in
  nodeEvent (h' i) = nodeEvent (h i) /\
  forall j, In j (indices ln ++ indices rn) -> h' j = h j.
Proof.
  intros ND Hn E h'. split.
  - unfold h'. rewrite !spec_propagate_nonempty; auto.
    now rewrite spec_propagate_isEmpty.
  - intros j Hj. unfold h'.
    assert (E3 : isEmpty (spec_propagate inh lf h i) = false)
      by now rewrite spec_propagate_isEmpty.
    destruct Hn as [Hn|Hn].
    + rewrite spec_propagate_frame.
      * apply spec_propagate_unvisited.
        apply (visits_shielded h lf i a t s ln rn Hn E
                 (NoDup_app_l _ _ ND) j Hj).
      * intros X. apply (NoDup_app_disjoint _ _ j ND); [|exact X].
        apply (nodeOf_indices _ _ Hn). simpl. now right.
    + rewrite spec_propagate_unvisited.
      * apply spec_propagate_frame. intros X.
        apply (NoDup_app_disjoint _ _ j ND); [exact X|].
        apply (nodeOf_indices _ _ Hn). simpl. now right.
      * apply (visits_shielded _ rt i a t s ln rn Hn E3
                 (NoDup_app_r _ _ ND) j Hj).
Qed.

(** C4, as the source has it.  Forward setting from an event that is not
    the Root Event and that has a more tipward event on its own branch
    changes nothing.  Forward setting from any event leaves alone, below
    the owning node of the event, every node that has events of its own,
    as to its [nodeEvent], and every node below such a node, as to its
    [nodeEvent] and its [ancestralNodeEvent]. *)
Theorem forwardSet_shielded (m : Model) (e : nat) :
  wellFormedTree (getRoot (_tree m)) ->
  nodeOf (getRoot (_tree m)) (eventNode (_events m e)) ->
  (_rootEvent m = Some e ->
   eventNode (_events m e) = getRoot (_tree m) /\
   isNULL (getLfDesc (getRoot (_tree m))) = false) ->
  exists m',
    forwardSetBranchHistories (Some e) m = Ok m' /\
    (_rootEvent m <> Some e ->
     (forall M, getIndex (eventNode (_events m e)) = Some M ->
                getLastEvent (_histories m M) <> Some e) ->
     m' = m) /\
    (forall i a t s ln rn,
        nodeOf (getLfDesc (eventNode (_events m e))) (mkNode i a t s ln rn) \/
        nodeOf (getRtDesc (eventNode (_events m e))) (mkNode i a t s ln rn) ->
        isEmpty (_histories m i) = false ->
        nodeEvent (_histories m' i) = nodeEvent (_histories m i) /\
        forall j, In j (indices ln ++ indices rn) ->
                  _histories m' j = _histories m j).
Proof.
  intros WT Hn HR.
  destruct (forwardSetBranchHistories_refines m e WT Hn HR)
    as [h' [E S]].
  exists (with_histories h' m). split; [exact E|].
  pose proof (nodeOf_NoDup _ _ (proj2 (proj2 WT)) Hn) as NDq.
  unfold spec_forwardSet in S.
  destruct (eventNode (_events m e)) as [|M aM tM sM lfM rtM] eqn:Eq.
  { destruct (nodeOf_index _ _ Hn) as [k [Ek _]]. discriminate. }
  simpl in NDq. apply NoDup_cons_iff in NDq. destruct NDq as [HM ND'].
  cbn [getIndex getLfDesc getRtDesc] in *.
  split.
  - intros Hne Hlast.
    assert (ER : EventPtr_eqb (Some e) (_rootEvent m) = false)
      by (apply EventPtr_eqb_neq; congruence).
    assert (EL : EventPtr_eqb (Some e) (getLastEvent (_histories m M)) = false).
    { apply EventPtr_eqb_neq. intros X. now apply (Hlast M eq_refl). }
    unfold forwardSetBranchHistories, getEventNode in E.
    rewrite Eq, ER, EL in E. injection E as E. now rewrite E.
  - intros i a t s ln rn Hin Ei. cbn [_histories with_histories].
    destruct (EventPtr_eqb (Some e) (_rootEvent m)) eqn:ER.
    + apply EventPtr_eqb_eq in ER. symmetry in ER.
      destruct (HR ER) as [Eroot _]. rewrite <- Eroot in S.
      cbn [getIndex getLfDesc getRtDesc] in S.
      destruct (descend_both_shielded (nodeEvent (_histories m M)) lfM rtM
                  (_histories m) i a t s ln rn ND' Hin Ei) as [K1 K2].
      split; [now rewrite S|]. intros j Hj. rewrite S. now apply K2.
    + destruct (EventPtr_eqb (Some e) (getLastEvent (_histories m M))) eqn:EL.
      * set (h0 := update M (setNodeEvent (Some e)) (_histories m)) in *.
        assert (HiM : In i (indices lfM ++ indices rtM)).
        { apply in_or_app.
          destruct Hin as [X|X]; [left|right];
            apply (nodeOf_indices _ _ X); simpl; now left. }
        assert (Hsub : forall j, In j (indices ln ++ indices rn) ->
                         In j (indices lfM ++ indices rtM)).
        { intros j Hj. apply in_or_app.
          destruct Hin as [X|X]; [left|right];
            apply (nodeOf_indices _ _ X); simpl; now right. }
        assert (Hh0 : forall j, In j (indices lfM ++ indices rtM) ->
                        h0 j = _histories m j).
        { intros j Hj. unfold h0. apply update_other. intros ->. contradiction. }
        assert (Ei0 : isEmpty (h0 i) = false) by (rewrite Hh0; auto).
        destruct (descend_both_shielded (Some e) lfM rtM h0 i a t s ln rn
                    ND' Hin Ei0) as [K1 K2].
        split.
        -- rewrite S, K1, Hh0; auto.
        -- intros j Hj. rewrite S, K2, Hh0; auto.
      * split; [now rewrite S|]. intros j _. now rewrite S.
Qed.

(** ** The scenario of the specification *)

Ltac in_tree := vm_compute; auto 12.

Lemma exampleMap_proper (x : Q) : properNodeOf rootR (exampleMap x).
Proof.
  unfold exampleMap.
  repeat match goal with
         | |- context [Qlt_bool ?a ?b] => destruct (Qlt_bool a b)
         end; (split; [in_tree|simpl; discriminate]).
Qed.

Lemma exampleTree_wellFormed : wellFormed exampleTree.
Proof.
  split; [|split; [exact exampleMap_proper|split]].
  - split; [reflexivity|]. split; [simpl; auto 20|].
    simpl. repeat (constructor; [simpl; intuition discriminate|]). constructor.
  - intros s1 s2 x. cbn. unfold exampleMRCA.
    repeat match goal with
           | |- context [if ?b then _ else _] => destruct b
           end; intros H; inversion H; right; in_tree.
  - intros s1 x. cbn. unfold exampleByName.
    repeat match goal with
           | |- context [if ?b then _ else _] => destruct b
           end; intros H; inversion H; right; in_tree.
Qed.

Lemma exampleStart_consistent : Consistent exampleStart.
Proof.
  split; [|intros e H; discriminate].
  constructor.
  - exact exampleTree_wellFormed.
  - exists 0%nat. cbn. repeat split; auto.
  - intros e [].
  - intros i e [].
  - intros i. constructor.
  - intros r _. reflexivity.
  - cbn. repeat split; reflexivity.
Qed.

Lemma oneEvent_added : addEventToTreeAt (1 # 2) exampleStart = Ok oneEvent.
Proof. vm_compute. reflexivity. Qed.

Lemma twoEvents_added : addEventToTreeAt (3 # 2) oneEvent = Ok twoEvents.
Proof. vm_compute. reflexivity. Qed.

Lemma twoTied_added : addEventToTreeAt (1 # 2) oneEvent = Ok twoTied.
Proof. vm_compute. reflexivity. Qed.

Lemma oneEvent_reachable : reachable oneEvent.
Proof.
  apply reach_addAt with (m := exampleStart) (x := 1 # 2).
  - apply reach_consistent. exact exampleStart_consistent.
  - exact oneEvent_added.
Qed.

Lemma twoEvents_reachable : reachable twoEvents.
Proof.
  apply reach_addAt with (m := oneEvent) (x := 3 # 2);
    [exact oneEvent_reachable|exact twoEvents_added].
Qed.

Lemma twoTied_reachable : reachable twoTied.
Proof.
  apply reach_addAt with (m := oneEvent) (x := 1 # 2);
    [exact oneEvent_reachable|exact twoTied_added].
Qed.

Lemma exampleRng_unit (k : nat) :
  0 <= draws exampleRng k /\ draws exampleRng k < 1.
Proof. cbn. destruct (Nat.even k); split; reflexivity || discriminate. Qed.

Ltac by_computation :=
  vm_compute; repeat split; try reflexivity;
  try (let H := fresh in intros H; discriminate H).

Lemma twoMoved_moved : eventMove false twoEvents = Ok twoMoved.
Proof. vm_compute. reflexivity. Qed.

Lemma twoMoved_reachable : reachable twoMoved.
Proof.
  apply reach_move with (m := twoEvents) (local := false);
    [exact twoEvents_reachable|exact twoMoved_moved].
Qed.

Lemma twoEvents_distinct : distinctPositions twoEvents.
Proof.
  intros i.
  do 7 (destruct i as [|i]; [vm_compute; repeat split; intros y []|]).
  vm_compute. exact I.
Qed.

(** C1, on the scenario: after two insertions and a global move, the leaf
    3 is governed as the invariant says. *)
Lemma nodeEvent_invariant_witness :
  reachable twoMoved /\
  nodeEvent (_histories twoMoved 3) =
  if isEmpty (_histories twoMoved 3) then nodeEvent (_histories twoMoved 1)
  else getLastEvent (_histories twoMoved 3).
Proof.
  split; [exact twoMoved_reachable|].
  apply (nodeEvent_invariant twoMoved twoMoved_reachable 3 1 0 2 NULL NULL).
  in_tree.
Defined.

(** C2 fails with two events at one position: the state is consistent, the
    global move takes the event 1 from the branch of node 1 to that of the
    leaf 5, the revert puts it back on node 1 at its position, but tipward
    of the event 2 that was tipward of it, and node 1, governed by the
    event 2 before the move, is governed by the event 1 after the
    revert. *)
Lemma move_then_revert_counterexample :
  Consistent twoTied /\
  _eventCollection twoTied = [1; 2]%nat /\
  eventsOnBranch (_histories twoTied 1) = [1; 2]%nat /\
  eventMove false twoTied = Ok tiedMoved /\
  _lastEventModified tiedMoved = Some 1%nat /\
  getIndex (eventNode (_events tiedMoved 1)) = Some 5%nat /\
  revertMovedEventToPrevious tiedMoved = Ok tiedReverted /\
  eventNode (_events tiedReverted 1) = eventNode (_events twoTied 1) /\
  mapTime (_events tiedReverted 1) = mapTime (_events twoTied 1) /\
  eventsOnBranch (_histories tiedReverted 1) = [2; 1]%nat /\
  nodeEvent (_histories twoTied 1) = Some 2%nat /\
  nodeEvent (_histories tiedReverted 1) = Some 1%nat /\
  nodeEvent (_histories tiedReverted 1) <> nodeEvent (_histories twoTied 1).
Proof.
  split; [exact (reachable_consistent _ twoTied_reachable)|].
  by_computation.
Qed.

(** C2, on the scenario, with the two events at distinct positions. *)
Lemma move_then_revert_witness :
  distinctPositions twoEvents /\
  exists e m1 m2,
    eventMove false twoEvents = Ok m1 /\ _lastEventModified m1 = Some e /\
    In e (_eventCollection twoEvents) /\
    revertMovedEventToPrevious m1 = Ok m2 /\
    eventNode (_events m2 e) = eventNode (_events twoEvents e) /\
    mapTime (_events m2 e) = mapTime (_events twoEvents e) /\
    (forall j, eventsOnBranch (_histories m2 j)
               = eventsOnBranch (_histories twoEvents j)) /\
    (forall j, nodeEvent (_histories m2 j) = nodeEvent (_histories twoEvents j) /\
               ancestralNodeEvent (_histories m2 j)
               = ancestralNodeEvent (_histories twoEvents j)).
Proof.
  split; [exact twoEvents_distinct|].
  apply (move_then_revert false twoEvents
           (reachable_consistent _ twoEvents_reachable) twoEvents_distinct);
    by_computation.
Defined.

(** C3, on the scenario: the forward setting from the event 2, just put
    tipward of the event 1 on the branch of node 1. *)
Lemma forwardSetBranchHistories_as_specified_witness :
  exists h',
    forwardSetBranchHistories (Some 2%nat) tipwardOfOne
    = Ok (with_histories h' tipwardOfOne) /\
    forall j, h' j = spec_forwardSet (getRoot (_tree tipwardOfOne))
                       (_rootEvent tipwardOfOne) 2
                       (eventNode (_events tipwardOfOne 2))
                       (_histories tipwardOfOne) j.
Proof.
  apply (forwardSetBranchHistories_as_specified tipwardOfOne 2).
  - exact (proj1 exampleTree_wellFormed).
  - vm_compute. auto 12.
  - intros H. vm_compute in H. discriminate H.
Defined.

(** C4 fails as it is stated, whichever way "closer to the root" is read.
    On the branch of node 1 the event 1 is rootward of the event 2, and the
    forward setting from the event 2 changes the [nodeEvent] of node 1.
    The leaf 3, below node 1, has the event 1 of its own, and the forward
    setting from the event 2, on node 1, changes the [ancestralNodeEvent]
    of the leaf. *)
Lemma forwardSet_shielded_counterexample :
  (eventsOnBranch (_histories tipwardOfOne 1) = [1; 2]%nat /\
   getIndex (eventNode (_events tipwardOfOne 2)) = Some 1%nat /\
   mapTime (_events tipwardOfOne 1) < mapTime (_events tipwardOfOne 2) /\
   exists m', forwardSetBranchHistories (Some 2%nat) tipwardOfOne = Ok m' /\
              nodeEvent (_histories tipwardOfOne 1) = Some 1%nat /\
              nodeEvent (_histories m' 1) = Some 2%nat) /\
  (eventsOnBranch (_histories aboveLeaf 3) = [1]%nat /\
   getIndex (eventNode (_events aboveLeaf 2)) = Some 1%nat /\
   nodeOf (eventNode (_events aboveLeaf 2)) (eventNode (_events aboveLeaf 1)) /\
   exists m', forwardSetBranchHistories (Some 2%nat) aboveLeaf = Ok m' /\
              ancestralNodeEvent (_histories aboveLeaf 3) = Some 0%nat /\
              ancestralNodeEvent (_histories m' 3) = Some 2%nat).
Proof.
  split.
  - split; [reflexivity|]. split; [reflexivity|]. split; [reflexivity|].
    eexists. split; [vm_compute; reflexivity|]. split; reflexivity.
  - split; [reflexivity|]. split; [reflexivity|]. split; [vm_compute; auto|].
    eexists. split; [vm_compute; reflexivity|]. split; reflexivity.
Qed.

(** C4 as amended, on the scenario: the forward setting from the event 2,
    on node 1, leaves the [nodeEvent] of the leaf 3 alone. *)
Lemma forwardSet_shielded_witness :
  exists m',
    forwardSetBranchHistories (Some 2%nat) aboveLeaf = Ok m' /\
    (_rootEvent aboveLeaf <> Some 2%nat ->
     (forall M, getIndex (eventNode (_events aboveLeaf 2)) = Some M ->
                getLastEvent (_histories aboveLeaf M) <> Some 2%nat) ->
     m' = aboveLeaf) /\
    (forall i a t s ln rn,
        nodeOf (getLfDesc (eventNode (_events aboveLeaf 2)))
          (mkNode i a t s ln rn) \/
        nodeOf (getRtDesc (eventNode (_events aboveLeaf 2)))
          (mkNode i a t s ln rn) ->
        isEmpty (_histories aboveLeaf i) = false ->
        nodeEvent (_histories m' i) = nodeEvent (_histories aboveLeaf i) /\
        forall j, In j (indices ln ++ indices rn) ->
                  _histories m' j = _histories aboveLeaf j).
Proof.
  apply (forwardSet_shielded aboveLeaf 2).
  - exact (proj1 exampleTree_wellFormed).
  - vm_compute. auto 12.
  - intros H. vm_compute in H. discriminate H.
Defined.


(** C10, on the scenario: three events and the draw just below 1/3, whose
    product with 3 rounds to 1. *)
Lemma chooseEventAtRandom_in_range_witness :
  exists p,
    double_mul (draws (_rng threeAtBoundary) (consumed (_rng threeAtBoundary)))
      (inject_Z
         (to_int (Z.of_nat (List.length (_eventCollection threeAtBoundary)))))
    = Some p /\
    (0 <= Qfloor p
     <= Z.of_nat (List.length (_eventCollection threeAtBoundary)) - 1)%Z /\
    chosenIndex (draws (_rng threeAtBoundary) (consumed (_rng threeAtBoundary)))
      (to_int (Z.of_nat (List.length (_eventCollection threeAtBoundary))))
    = Ok (Qfloor p) /\
    exists e rest,
      advance (Z.to_nat (Qfloor p)) (_eventCollection threeAtBoundary)
      = Ok (e :: rest) /\
      In e (_eventCollection threeAtBoundary) /\
      exists m1, chooseEventAtRandom threeAtBoundary = Ok (e, m1).
Proof.
  apply (chooseEventAtRandom_in_range threeAtBoundary); by_computation.
Defined.

(** C6 fails as it is stated: a record with "NA" for its first species and
    a name for its second ends the process, though its names are not both
    "NA". *)
Lemma resolveEventNode_counterexample :
  resolveEventNode recordNoFirst exampleStart = FatalExit /\
  species2 recordNoFirst <> NA /\
  ~ (species1 recordNoFirst = NA /\ species2 recordNoFirst = NA).
Proof.
  split; [reflexivity|]. split; [discriminate|]. intros [_ H]. discriminate H.
Qed.


(** C8, on the scenario: a move in the model without events. *)
Lemma eventMove_empty_registry_witness :
  eventMove true exampleStart = Ok exampleStart /\
  eventMove false exampleStart = Ok exampleStart.
Proof.
  split.
  - apply (eventMove_empty_registry true exampleStart eq_refl). reflexivity.
  - apply (eventMove_empty_registry false exampleStart eq_refl). reflexivity.
Defined.

(** C9, on the scenario: a local move in the state with one event. *)
Lemma local_move_position_witness :
  exists e m1 U,
    eventMove true oneEvent = Ok m1 /\ _lastEventModified m1 = Some e /\
    In e (_eventCollection oneEvent) /\ _scale m1 = _scale oneEvent /\
    U = fst (uniformRvRange 0 (_scale oneEvent)
               (snd (uniformRv (_rng oneEvent)))) /\
    0 <= U /\ U < _scale oneEvent /\
    mapTime (_events m1 e)
    = mapTime (_events oneEvent e) + (U - (1 # 2) * _scale oneEvent) /\
    mapTime (_events m1 e)
    == mapTime (_events oneEvent e) + U - (1 # 2) * _scale oneEvent.
Proof.
  apply (local_move_position oneEvent
           (reachable_consistent _ oneEvent_reachable)).
  - by_computation.
  - intros k. change (_rng oneEvent) with (mkMbRandom (draws exampleRng) 101).
    apply exampleRng_unit.
  - reflexivity.
Defined.

(** C8 fails as it is stated.  After the record for the root was read the
    Registry is empty and the derived means are those of the parameters the
    Root Event had before; a move then recomputes them, from the
    parameters of the record. *)
Lemma eventMove_empty_registry_counterexample :
  initializeEvent recordRoot exampleStart = Ok rootInstalled /\
  reachable rootInstalled /\
  _eventCollection rootInstalled = [] /\
  exists m',
    eventMove true rootInstalled = Ok m' /\
    _meanBranchParameters rootInstalled 1 = [1] /\
    _meanBranchParameters m' 1 = [7] /\
    m' <> rootInstalled.
Proof.
  assert (E : initializeEvent recordRoot exampleStart = Ok rootInstalled)
    by (vm_compute; reflexivity).
  split; [exact E|]. split.
  - apply reach_initialize with (m := exampleStart) (r := recordRoot);
      [apply reach_consistent; exact exampleStart_consistent|exact E].
  - split; [reflexivity|].
    exists (setMeanBranchParameters rootInstalled).
    split; [reflexivity|]. split; [reflexivity|]. split; [reflexivity|].
    intros H. apply (f_equal (fun m => _meanBranchParameters m 1%nat)) in H.
    vm_compute in H. discriminate H.
Qed.

(** C6, on the scenario: a record with both names, a record with the first
    name only, and a record without the first name. *)
Lemma resolveEventNode_cases_witness :
  resolveEventNode recordRoot exampleStart
  = getNodeMRCA (_tree exampleStart) (species1 recordRoot) (species2 recordRoot) /\
  resolveEventNode recordLeaf exampleStart
  = getNodeByName (_tree exampleStart) (species1 recordLeaf) /\
  resolveEventNode recordNoFirst exampleStart = FatalExit.
Proof.
  split; [|split].
  - apply (proj1 (resolveEventNode_cases recordRoot exampleStart));
      discriminate.
  - apply (proj1 (proj2 (resolveEventNode_cases recordLeaf exampleStart)));
      [discriminate|reflexivity].
  - apply (proj1 (proj2 (proj2 (resolveEventNode_cases recordNoFirst
                                  exampleStart)))).
    reflexivity.
Defined.

(** * Further properties of the engine *)

(** ** What the operations leave alone *)

Lemma onBranchHistory_Ok (p : Node) (f : BranchHistory -> BranchHistory)
  (m m' : Model) :
  onBranchHistory p f m = Ok m' ->
  exists i, getIndex p = Some i /\
            m' = with_histories (update i f (_histories m)) m.
Proof.
  unfold onBranchHistory. destruct (getIndex p) as [i|]; [|discriminate].
  intros H. injection H as <-. now exists i.
Qed.

Lemma forwardSetBranchHistories_Ok (x : EventPtr) (m m' : Model) :
  forwardSetBranchHistories x m = Ok m' ->
  exists h', m' = with_histories h' m.
Proof.
  unfold forwardSetBranchHistories. destruct x as [e|]; [|discriminate].
  destruct (getEventNode (_events m e)) as [|i a t s lf rt]; [discriminate|].
  destruct (EventPtr_eqb (Some e) (_rootEvent m)).
  - intros H. apply bind_Ok_inv in H. destruct H as [h1 [_ H]].
    apply bind_Ok_inv in H. destruct H as [h2 [_ H]].
    injection H as <-. now exists h2.
  - destruct (EventPtr_eqb (Some e) (getLastEvent (_histories m i))).
    + destruct (negb (isNULL lf) && negb (isNULL rt)).
      * intros H. apply bind_Ok_inv in H. destruct H as [h1 [_ H]].
        apply bind_Ok_inv in H. destruct H as [h2 [_ H]].
        injection H as <-. now exists h2.
      * intros H. injection H as <-. eexists. reflexivity.
    + intros H. injection H as <-. exists (_histories m).
      symmetry. apply with_histories_same.
Qed.

(** X1.  A revert that returns has undone the last modified event and
    nothing else: the record of that event is the saved one, no other
    event and no parameter vector is touched, no random number is drawn,
    the Registry and the allocation mark are as before, and
    [_lastEventModified] is cleared; a second revert right after it
    dereferences the null pointer. *)
Theorem revert_only_once (m m' : Model) :
  revertMovedEventToPrevious m = Ok m' ->
  (exists e, _lastEventModified m = Some e /\
             _events m' = update e (fun _ => revertedEvent m e) (_events m)) /\
  _lastEventModified m' = None /\
  revertMovedEventToPrevious m' = Undefined /\
  _rng m' = _rng m /\ _eventCollection m' = _eventCollection m /\
  _nextEvent m' = _nextEvent m /\
  (forall j, parameters (_events m' j) = parameters (_events m j)).
Proof.
  unfold revertMovedEventToPrevious at 1.
  destruct (_lastEventModified m) as [e|] eqn:El; [|discriminate].
  intros H.
  apply bind_Ok_inv in H. destruct H as [nl [_ H]].
  apply bind_Ok_inv in H. destruct H as [m1 [H1 H]].
  apply onBranchHistory_Ok in H1. destruct H1 as [i1 [_ ->]].
  apply bind_Ok_inv in H. destruct H as [m3 [H3 H]].
  apply onBranchHistory_Ok in H3. destruct H3 as [i3 [_ ->]].
  apply bind_Ok_inv in H. destruct H as [m4 [H4 H]].
  apply forwardSetBranchHistories_Ok in H4. destruct H4 as [h4 ->].
  apply bind_Ok_inv in H. destruct H as [m5 [H5 H]].
  apply forwardSetBranchHistories_Ok in H5. destruct H5 as [h5 ->].
  injection H as <-.
  split; [exists e; split; reflexivity|].
  split; [reflexivity|]. split; [reflexivity|].
  split; [reflexivity|]. split; [reflexivity|]. split; [reflexivity|].
  intros j. cbn. unfold update. destruct (Nat.eqb j e) eqn:E; [|reflexivity].
  apply Nat.eqb_eq in E. now subst.
Qed.

(** X1, on the scenario: the revert of the global move of the two events,
    and a second revert. *)
Lemma revert_only_once_witness :
  revertMovedEventToPrevious twoMoved = Ok twoReverted /\
  _lastEventModified twoMoved = Some 1%nat /\
  _lastEventModified twoReverted = None /\
  revertMovedEventToPrevious twoReverted = Undefined /\
  _rng twoReverted = _rng twoMoved.
Proof.
  assert (E : revertMovedEventToPrevious twoMoved = Ok twoReverted)
    by (vm_compute; reflexivity).
  destruct (revert_only_once twoMoved twoReverted E)
    as [_ [H1 [H2 [H3 _]]]].
  split; [exact E|]. split; [vm_compute; reflexivity|]. split; [exact H1|].
  split; [exact H2|exact H3].
Defined.

(** X2.  A move on a Registry with events, when it returns, has chosen a
    Registry event and recorded it as [_lastEventModified]; it has saved
    the node and the map position the event had as the position to roll
    back to; it has touched no other event and no parameter vector, has
    neither added nor removed nor allocated an event, and has drawn from
    the generator without changing its sequence: a local move exactly two
    draws, one for the choice and one for the step. *)
Theorem eventMove_bookkeeping (local : bool) (m m' : Model) :
  (1 <= Z.of_nat (List.length (_eventCollection m)) <= INT_MAX)%Z ->
  eventMove local m = Ok m' ->
  exists e,
    In e (_eventCollection m) /\ _lastEventModified m' = Some e /\
    (forall j, j <> e -> _events m' j = _events m j) /\
    oldEventNode (_events m' e) = eventNode (_events m e) /\
    oldMapTime (_events m' e) = mapTime (_events m e) /\
    (forall j, parameters (_events m' j) = parameters (_events m j)) /\
    _eventCollection m' = _eventCollection m /\
    _nextEvent m' = _nextEvent m /\
    draws (_rng m') = draws (_rng m) /\
    (consumed (_rng m) < consumed (_rng m'))%nat /\
    (local = true -> consumed (_rng m') = (consumed (_rng m) + 2)%nat).
Proof.
  intros Hn. unfold eventMove, getNumberOfEvents.
  rewrite to_int_small by lia.
  assert (Hp : (Z.of_nat (List.length (_eventCollection m)) >? 0)%Z = true)
    by (apply Z.gtb_lt; lia).
  rewrite Hp. intros H.
  apply bind_Ok_inv in H. destruct H as [m7 [H E]]. injection E as <-.
  apply bind_Ok_inv in H. destruct H as [[e m1] [Hc H]].
  apply chooseEventAtRandom_Ok in Hc. destruct Hc as [He ->].
  apply bind_Ok_inv in H. destruct H as [pe [_ H]].
  apply bind_Ok_inv in H. destruct H as [m3 [H3 H]].
  apply onBranchHistory_Ok in H3. destruct H3 as [i3 [_ ->]].
  apply bind_Ok_inv in H. destruct H as [m5 [H5 H]].
  apply onBranchHistory_Ok in H5. destruct H5 as [i5 [_ ->]].
  apply bind_Ok_inv in H. destruct H as [m6 [H6 H]].
  apply forwardSetBranchHistories_Ok in H6. destruct H6 as [h6 ->].
  apply forwardSetBranchHistories_Ok in H. destruct H as [h7 ->].
  exists e. split; [exact He|].
  destruct local; cbn.
  - split; [reflexivity|]. split; [intros j Hj; now apply update_other|].
    rewrite !update_same. cbn.
    split; [reflexivity|]. split; [reflexivity|]. split.
    + intros j. unfold update. destruct (Nat.eqb j e) eqn:E; [|reflexivity].
      apply Nat.eqb_eq in E. now subst.
    + split; [reflexivity|]. split; [reflexivity|]. split; [reflexivity|].
      split; [lia|intros _; lia].
  - split; [reflexivity|]. split; [intros j Hj; now apply update_other|].
    rewrite !update_same. cbn.
    split; [reflexivity|]. split; [reflexivity|]. split.
    + intros j. unfold update. destruct (Nat.eqb j e) eqn:E; [|reflexivity].
      apply Nat.eqb_eq in E. now subst.
    + split; [reflexivity|]. split; [reflexivity|]. split; [reflexivity|].
      split; [lia|intros X; discriminate X].
Qed.

(** X2, on the scenario: the local move of the one event, and the global
    move of one of the two events. *)
Lemma eventMove_bookkeeping_witness :
  (eventMove true oneEvent = Ok oneLocal /\
   consumed (_rng oneEvent) = 101%nat /\
   exists e, _lastEventModified oneLocal = Some e /\
             _eventCollection oneLocal = _eventCollection oneEvent /\
             consumed (_rng oneLocal) = (consumed (_rng oneEvent) + 2)%nat) /\
  (exists e, _lastEventModified twoMoved = Some e /\
             oldMapTime (_events twoMoved e) = mapTime (_events twoEvents e) /\
             _eventCollection twoMoved = _eventCollection twoEvents).
Proof.
  assert (E : eventMove true oneEvent = Ok oneLocal)
    by (vm_compute; reflexivity).
  split.
  - split; [exact E|]. split; [vm_compute; reflexivity|].
    destruct (eventMove_bookkeeping true oneEvent oneLocal)
      as [e [_ [H1 [_ [_ [_ [_ [H2 [_ [_ [_ H3]]]]]]]]]]];
      [by_computation|exact E|].
    exists e. split; [exact H1|]. split; [exact H2|exact (H3 eq_refl)].
  - destruct (eventMove_bookkeeping false twoEvents twoMoved)
      as [e [_ [H1 [_ [_ [H2 [_ [H3 _]]]]]]]];
      [by_computation|exact twoMoved_moved|].
    exists e. split; [exact H1|]. split; [exact H2|exact H3].
Defined.

(** ** The forward setting: what it writes, and that once is enough *)

(** X3.  On a well-formed tree the forward setting from an event writes
    into cached effective events only, and only at and below the owning
    node of the event: the ordered events of every branch stay as they
    are, the record of every node outside the subtree of the owning node
    is untouched, and the owning node itself keeps its
    [ancestralNodeEvent], its [nodeEvent] either staying or becoming the
    event, when that is the most-tipward one of the branch. *)
Theorem forwardSet_frame (m : Model) (e : nat) :
  wellFormedTree (getRoot (_tree m)) ->
  nodeOf (getRoot (_tree m)) (eventNode (_events m e)) ->
  (_rootEvent m = Some e ->
   eventNode (_events m e) = getRoot (_tree m) /\
   isNULL (getLfDesc (getRoot (_tree m))) = false) ->
  exists h',
    forwardSetBranchHistories (Some e) m = Ok (with_histories h' m) /\
    (forall j, eventsOnBranch (h' j) = eventsOnBranch (_histories m j)) /\
    (forall j, ~ In j (indices (eventNode (_events m e))) ->
               h' j = _histories m j) /\
    (forall i, getIndex (eventNode (_events m e)) = Some i ->
               ancestralNodeEvent (h' i) = ancestralNodeEvent (_histories m i) /\
               (nodeEvent (h' i) = nodeEvent (_histories m i) \/
                nodeEvent (h' i) = Some e /\
                getLastEvent (_histories m i) = Some e)).
Proof.
  intros WT Hn HR.
  destruct (forwardSetBranchHistories_refines m e WT Hn HR) as [h' [E S]].
  exists h'. split; [exact E|].
  split; [intros j; rewrite S; apply spec_forwardSet_events|].
  pose proof (nodeOf_NoDup _ _ (proj2 (proj2 WT)) Hn) as NDq.
  unfold spec_forwardSet in S.
  destruct (EventPtr_eqb (Some e) (_rootEvent m)) eqn:ER.
  - apply EventPtr_eqb_eq in ER. symmetry in ER.
    destruct (HR ER) as [Eroot _]. rewrite Eroot in *.
    destruct (getRoot (_tree m)) as [|r a t s lf rt];
      [destruct WT as [NN _]; discriminate|].
    cbn [getIndex getLfDesc getRtDesc indices] in *.
    inversion NDq as [|? ? Hr ND']; subst.
    split.
    + intros j Hj. rewrite S. rewrite !spec_propagate_frame; [reflexivity|..];
        intros X; apply Hj; right; apply in_or_app; auto.
    + intros i Hi. injection Hi as <-.
      rewrite S. rewrite !spec_propagate_frame; [auto|..];
        intros X; apply Hr; apply in_or_app; auto.
  - destruct (eventNode (_events m e)) as [|i a t s lf rt];
      [destruct (nodeOf_index _ _ Hn) as [k [Ek _]]; discriminate|].
    cbn [getIndex getLfDesc getRtDesc indices] in *.
    inversion NDq as [|? ? Hi ND']; subst.
    destruct (EventPtr_eqb (Some e) (getLastEvent (_histories m i))) eqn:EL.
    + apply EventPtr_eqb_eq in EL. split.
      * intros j Hj. rewrite S. rewrite !spec_propagate_frame;
          [apply update_other; intros ->; apply Hj; now left|..];
          intros X; apply Hj; right; apply in_or_app; auto.
      * intros i' Hi'. injection Hi' as <-. rewrite S.
        rewrite !spec_propagate_frame;
          [|intros X; apply Hi; apply in_or_app; auto..].
        rewrite update_same. cbn. split; [reflexivity|]. right. auto.
    + split; [intros j _; apply S|].
      intros i' Hi'. rewrite S. auto.
Qed.

Lemma visitsb_in h p j : visitsb h p j = true -> In j (indices p).
Proof.
  induction p as [|i a t s lf IHlf rt IHrt]; simpl; [discriminate|].
  intros H. apply orb_true_iff in H. destruct H as [H|H].
  - apply Nat.eqb_eq in H. now left.
  - apply andb_true_iff in H. destruct H as [_ H].
    apply orb_true_iff in H. right. apply in_or_app. destruct H; auto.
Qed.

Lemma visitsb_ext h h' p j :
  (forall k, isEmpty (h k) = isEmpty (h' k)) -> visitsb h p j = visitsb h' p j.
Proof.
  intros E. induction p as [|i a t s lf IHlf rt IHrt]; simpl; [reflexivity|].
  now rewrite E, IHlf, IHrt.
Qed.

Lemma touch_touch v b : touch v (touch v b) = touch v b.
Proof. unfold touch, isEmpty. destruct b as [[|x l] n a]; reflexivity. Qed.

Lemma isEmpty_touch v b : isEmpty (touch v b) = isEmpty b.
Proof. unfold touch, isEmpty. destruct b as [[|x l] n a]; reflexivity. Qed.

(** The descent in closed form: the nodes it reaches are touched, the
    others are left alone. *)
Lemma spec_propagate_closed (v : EventPtr) (p : Node) :
  NoDup (indices p) ->
  forall h j, spec_propagate v p h j
              = if visitsb h p j then touch v (h j) else h j.
Proof.
  induction p as [|i a t s lf IHlf rt IHrt]; intros ND h j; [reflexivity|].
  simpl in ND. inversion ND as [|? ? Hi ND']; subst.
  pose proof (NoDup_app_l _ _ ND') as NDl.
  pose proof (NoDup_app_r _ _ ND') as NDr.
  cbn [spec_propagate visitsb].
  destruct (isEmpty (h i)) eqn:Ei.
  - set (h1 := update i (setNodeEvent v)
                 (update i (setAncestralNodeEvent v) h)).
    assert (E1 : forall k, isEmpty (h1 k) = isEmpty (h k)).
    { intros k. unfold h1, update. destruct (Nat.eqb k i) eqn:E; [|reflexivity].
      apply Nat.eqb_eq in E. subst k. now rewrite Nat.eqb_refl. }
    rewrite (IHrt NDr).
    rewrite (visitsb_ext _ h rt j)
      by (intros k; rewrite spec_propagate_isEmpty; apply E1).
    rewrite (IHlf NDl).
    rewrite (visitsb_ext h1 h lf j) by exact E1.
    destruct (Nat.eqb j i) eqn:Eji.
    + apply Nat.eqb_eq in Eji. subst j. cbn [orb].
      assert (Vl : visitsb h lf i = false).
      { destruct (visitsb h lf i) eqn:V; [|reflexivity].
        exfalso. apply Hi. apply in_or_app. left. now apply visitsb_in in V. }
      assert (Vr : visitsb h rt i = false).
      { destruct (visitsb h rt i) eqn:V; [|reflexivity].
        exfalso. apply Hi. apply in_or_app. right. now apply visitsb_in in V. }
      rewrite Vl, Vr. unfold h1. rewrite !update_same.
      unfold touch. rewrite Ei. reflexivity.
    + cbn [orb andb].
      assert (Hh : h1 j = h j).
      { unfold h1. apply Nat.eqb_neq in Eji. now rewrite !update_other. }
      rewrite Hh.
      destruct (visitsb h rt j) eqn:Vr.
      * rewrite orb_true_r.
        destruct (visitsb h lf j) eqn:Vl; [|reflexivity].
        exfalso. apply (NoDup_app_disjoint _ _ j ND');
          [now apply visitsb_in in Vl|now apply visitsb_in in Vr].
      * rewrite orb_false_r. destruct (visitsb h lf j); reflexivity.
  - cbn [andb]. rewrite orb_false_r. unfold update.
    destruct (Nat.eqb j i) eqn:Eji; [|reflexivity].
    apply Nat.eqb_eq in Eji. subst j. unfold touch. rewrite Ei. reflexivity.
Qed.

Lemma descend_both_closed (v : EventPtr) (lf rt : Node) :
  NoDup (indices lf ++ indices rt) ->
  forall h j, spec_propagate v rt (spec_propagate v lf h) j
              = if visitsb h lf j || visitsb h rt j then touch v (h j)
                else h j.
Proof.
  intros ND h j.
  rewrite (spec_propagate_closed v rt (NoDup_app_r _ _ ND)).
  rewrite (visitsb_ext _ h rt j)
    by (intros k; apply spec_propagate_isEmpty).
  rewrite (spec_propagate_closed v lf (NoDup_app_l _ _ ND)).
  destruct (visitsb h rt j) eqn:Vr.
  - rewrite orb_true_r.
    destruct (visitsb h lf j) eqn:Vl; [|reflexivity].
    exfalso. apply (NoDup_app_disjoint _ _ j ND);
      [now apply visitsb_in in Vl|now apply visitsb_in in Vr].
  - rewrite orb_false_r. destruct (visitsb h lf j); reflexivity.
Qed.

Lemma spec_forwardSet_idempotent (root : Node) (re : EventPtr) (x : nat)
  (node : Node) (h : nat -> BranchHistory) :
  NoDup (indices root) -> NoDup (indices node) ->
  forall j,
    spec_forwardSet root re x node (spec_forwardSet root re x node h) j
    = spec_forwardSet root re x node h j.
Proof.
  intros NDr NDn j. unfold spec_forwardSet.
  destruct (EventPtr_eqb (Some x) re).
  - destruct root as [|r a t s lf rt]; [reflexivity|].
    cbn [getIndex getLfDesc getRtDesc].
    simpl in NDr. inversion NDr as [|? ? Hr ND']; subst.
    assert (Er : nodeEvent (spec_propagate (nodeEvent (h r)) rt
                              (spec_propagate (nodeEvent (h r)) lf h) r)
                 = nodeEvent (h r)).
    { rewrite !spec_propagate_frame; [reflexivity|..];
        intros X; apply Hr; apply in_or_app; auto. }
    rewrite Er. set (v := nodeEvent (h r)).
    rewrite (descend_both_closed v lf rt ND').
    rewrite (visitsb_ext _ h lf j), (visitsb_ext _ h rt j)
      by (intros k; now rewrite !spec_propagate_isEmpty).
    rewrite (descend_both_closed v lf rt ND' h j).
    destruct (visitsb h lf j || visitsb h rt j); [apply touch_touch|reflexivity].
  - destruct node as [|i a t s lf rt]; [reflexivity|].
    cbn [getIndex getLfDesc getRtDesc].
    simpl in NDn. inversion NDn as [|? ? Hi ND']; subst.
    destruct (EventPtr_eqb (Some x) (getLastEvent (h i))) eqn:EL.
    + set (h0 := update i (setNodeEvent (Some x)) h).
      set (h1 := spec_propagate (Some x) rt (spec_propagate (Some x) lf h0)).
      assert (E0 : forall k, isEmpty (h0 k) = isEmpty (h k)).
      { intros k. unfold h0, update. destruct (Nat.eqb k i) eqn:E; [|reflexivity].
        apply Nat.eqb_eq in E. now subst k. }
      assert (E1 : forall k, isEmpty (h1 k) = isEmpty (h k)).
      { intros k. unfold h1. now rewrite !spec_propagate_isEmpty. }
      assert (L1 : getLastEvent (h1 i) = getLastEvent (h i)).
      { unfold h1, getLastEvent. rewrite !spec_propagate_events.
        unfold h0. now rewrite update_same. }
      rewrite L1, EL.
      set (h2 := update i (setNodeEvent (Some x)) h1).
      assert (E2 : forall k, isEmpty (h2 k) = isEmpty (h k)).
      { intros k. unfold h2, update. destruct (Nat.eqb k i) eqn:E;
          [|apply E1]. apply Nat.eqb_eq in E. subst k.
        rewrite <- E1. reflexivity. }
      rewrite (descend_both_closed (Some x) lf rt ND' h2 j).
      rewrite (visitsb_ext h2 h lf j), (visitsb_ext h2 h rt j) by exact E2.
      assert (H1 : h1 j = if visitsb h lf j || visitsb h rt j
                          then touch (Some x) (h0 j) else h0 j).
      { unfold h1. rewrite (descend_both_closed (Some x) lf rt ND' h0 j).
        now rewrite (visitsb_ext h0 h lf j), (visitsb_ext h0 h rt j)
          by exact E0. }
      destruct (Nat.eq_dec j i) as [->|Hji].
      * assert (V : visitsb h lf i || visitsb h rt i = false).
        { apply orb_false_iff. split.
          - destruct (visitsb h lf i) eqn:V; [|reflexivity].
            exfalso. apply Hi. apply in_or_app. left.
            now apply visitsb_in in V.
          - destruct (visitsb h rt i) eqn:V; [|reflexivity].
            exfalso. apply Hi. apply in_or_app. right.
            now apply visitsb_in in V. }
        rewrite V in *. unfold h2. rewrite update_same, H1.
        unfold h0. rewrite update_same. reflexivity.
      * assert (H2 : h2 j = h1 j) by (unfold h2; now rewrite update_other).
        rewrite H2, H1.
        destruct (visitsb h lf j || visitsb h rt j);
          [apply touch_touch|reflexivity].
    + rewrite EL. reflexivity.
Qed.

(** X4.  Forward setting is idempotent: a second call from the same event,
    right after the first, returns and leaves every branch history record
    as the first call left it. *)
Theorem forwardSet_idempotent (m : Model) (e : nat) :
  wellFormedTree (getRoot (_tree m)) ->
  nodeOf (getRoot (_tree m)) (eventNode (_events m e)) ->
  (_rootEvent m = Some e ->
   eventNode (_events m e) = getRoot (_tree m) /\
   isNULL (getLfDesc (getRoot (_tree m))) = false) ->
  exists h1 h2,
    forwardSetBranchHistories (Some e) m = Ok (with_histories h1 m) /\
    forwardSetBranchHistories (Some e) (with_histories h1 m)
    = Ok (with_histories h2 (with_histories h1 m)) /\
    forall j, h2 j = h1 j.
Proof.
  intros WT Hn HR.
  destruct (forwardSetBranchHistories_refines m e WT Hn HR) as [h1 [E1 S1]].
  destruct (forwardSetBranchHistories_refines (with_histories h1 m) e WT Hn HR)
    as [h2 [E2 S2]].
  exists h1, h2. split; [exact E1|]. split; [exact E2|].
  intros j. rewrite S2, S1. cbn.
  rewrite (spec_forwardSet_ext _ _ _ _ h1
             (spec_forwardSet (getRoot (_tree m)) (_rootEvent m) e
                (eventNode (_events m e)) (_histories m)) S1).
  apply spec_forwardSet_idempotent.
  - exact (proj2 (proj2 WT)).
  - exact (nodeOf_NoDup _ _ (proj2 (proj2 WT)) Hn).
Qed.

(** X3, on the scenario: the forward setting from the event 2 on node 1
    leaves the records of node 2 and of its leaves alone. *)
Lemma forwardSet_frame_witness :
  exists h',
    forwardSetBranchHistories (Some 2%nat) tipwardOfOne
    = Ok (with_histories h' tipwardOfOne) /\
    h' 2%nat = _histories tipwardOfOne 2%nat /\
    h' 5%nat = _histories tipwardOfOne 5%nat /\
    h' 6%nat = _histories tipwardOfOne 6%nat /\
    eventsOnBranch (h' 1%nat) = eventsOnBranch (_histories tipwardOfOne 1%nat).
Proof.
  destruct (forwardSet_frame tipwardOfOne 2) as [h' [E [L [F _]]]].
  - exact (proj1 exampleTree_wellFormed).
  - vm_compute. auto 12.
  - intros H. vm_compute in H. discriminate H.
  - exists h'. split; [exact E|].
    assert (Out : forall j, (j = 2 \/ j = 5 \/ j = 6)%nat ->
                  ~ In j (indices (eventNode (_events tipwardOfOne 2)))).
    { intros j Hj X. vm_compute in X. lia. }
    split; [apply F, Out; lia|]. split; [apply F, Out; lia|].
    split; [apply F, Out; lia|apply L].
Defined.

(** X4, on the scenario: two forward settings in a row from the event 2,
    just put on node 1 above the leaf 3 and its event. *)
Lemma forwardSet_idempotent_witness :
  exists h1 h2,
    forwardSetBranchHistories (Some 2%nat) aboveLeaf
    = Ok (with_histories h1 aboveLeaf) /\
    forwardSetBranchHistories (Some 2%nat) (with_histories h1 aboveLeaf)
    = Ok (with_histories h2 (with_histories h1 aboveLeaf)) /\
    forall j, h2 j = h1 j.
Proof.
  apply (forwardSet_idempotent aboveLeaf 2).
  - exact (proj1 exampleTree_wellFormed).
  - vm_compute. auto 12.
  - intros H. vm_compute in H. discriminate H.
Defined.

(** ** Insertion of a new event *)

Lemma insertEventSet_fresh (x : nat) (l : list nat) :
  ~ In x l -> Permutation (insertEventSet x l) (x :: l).
Proof.
  induction l as [|y l IH]; intros Hx; [reflexivity|].
  simpl. destruct (Nat.ltb x y); [reflexivity|].
  destruct (Nat.eqb x y) eqn:E.
  - apply Nat.eqb_eq in E. exfalso. apply Hx. now left.
  - rewrite IH by (intros X; apply Hx; now right). apply perm_swap.
Qed.

Lemma addEventToTreeAt_inserted (x : Q) (m : Model) :
  Consistent m ->
  let e := _nextEvent m in
  exists m' N,
    addEventToTreeAt x m = Ok m' /\ Consistent m' /\
    ~ In e (_eventCollection m) /\
    _eventCollection m' = insertEventSet e (_eventCollection m) /\
    List.length (_eventCollection m') = S (List.length (_eventCollection m)) /\
    _lastEventModified m' = Some e /\
    eventNode (_events m' e) = mapEventToTree (_tree m) x /\
    mapTime (_events m' e) = x /\
    (forall j, j <> e -> _events m' j = _events m j) /\
    getIndex (mapEventToTree (_tree m) x) = Some N /\
    eventsOnBranch (_histories m' N)
    = insertByMapTime (_events m') e (eventsOnBranch (_histories m N)) /\
    (forall j, j <> N -> eventsOnBranch (_histories m' j)
                         = eventsOnBranch (_histories m j)) /\
    _nextEvent m' = S e /\
    _meanBranchParameters m'
    = meanBranchParametersOf (_specific m) (_histories m') (_events m').
Proof.
  intros [Core Last] e.
  pose proof (cons_tree _ _ _ _ _ _ Core) as [_ [Wmap _]].
  assert (Fresh : ~ In e (_eventCollection m)).
  { intros X. destruct (cons_registry _ _ _ _ _ _ Core e X) as [Lt _].
    unfold e in Lt. lia. }
  unfold addEventToTreeAt, newBranchEventWithRandomParameters.
  destruct (drawParameters (_specific m) (_rng m)) as [ps r].
  set (be := mkBranchEvent (mapEventToTree (_tree m) x) x
               (mapEventToTree (_tree m) x) x ps).
  set (m1 := with_rng r _).
  destruct (insert_allocated m m1 be Core (Wmap x) eq_refl)
    as [N' [h4 [HN' [E2 [E4 [C4 S4]]]]]]; try reflexivity.
  rewrite E2. cbn [bind]. rewrite E4. cbn [bind].
  eexists. exists N'. split; [reflexivity|]. split.
  { split; [exact C4|].
    cbn. intros y X. inversion X. apply In_insertEventSet. now left. }
  split; [exact Fresh|]. cbn. fold e.
  split; [reflexivity|].
  split; [now rewrite (Permutation_length (insertEventSet_fresh e _ Fresh))|].
  split; [reflexivity|].
  rewrite update_same. cbn.
  split; [reflexivity|]. split; [reflexivity|].
  split; [intros j Hj; now apply update_other|].
  split; [exact HN'|].
  assert (L : forall j, eventsOnBranch (h4 j) =
              eventsOnBranch
                (update N' (addEventToBranchHistory (_events m1) e)
                   (_histories m) j)).
  { intros j. rewrite S4. apply spec_forwardSet_events. }
  split.
  - rewrite L, update_same. reflexivity.
  - split; [|split; reflexivity].
    intros j Hj. rewrite L. now rewrite update_other.
Qed.

(** X5.  In a consistent state [addEventToTree(x)] returns a consistent
    state in which exactly one event was added: the event is new to the
    Registry, which grows by one, it is recorded as [_lastEventModified],
    it sits at map position [x] on the node the coordinate lookup gives for
    [x], and it was inserted by map position into the branch history of
    that node; no other event and no other branch is touched, and the
    derived means are those of the new state. *)
Theorem addEventToTree_postcondition (x : Q) (m : Model) :
  Consistent m ->
  let e := _nextEvent m in
  exists m' N,
    addEventToTreeAt x m = Ok m' /\ Consistent m' /\
    ~ In e (_eventCollection m) /\
    _eventCollection m' = insertEventSet e (_eventCollection m) /\
    List.length (_eventCollection m') = S (List.length (_eventCollection m)) /\
    _lastEventModified m' = Some e /\
    eventNode (_events m' e) = mapEventToTree (_tree m) x /\
    mapTime (_events m' e) = x /\
    (forall j, j <> e -> _events m' j = _events m j) /\
    getIndex (mapEventToTree (_tree m) x) = Some N /\
    eventsOnBranch (_histories m' N)
    = insertByMapTime (_events m') e (eventsOnBranch (_histories m N)) /\
    (forall j, j <> N -> eventsOnBranch (_histories m' j)
                         = eventsOnBranch (_histories m j)) /\
    _nextEvent m' = S e /\
    _meanBranchParameters m'
    = meanBranchParametersOf (_specific m) (_histories m') (_events m').
Proof. exact (addEventToTreeAt_inserted x m). Qed.

(** X6.  In a consistent state, with the length of the map beyond the map
    start of the root and the next draw [u] in [0,1), [addEventToTree()]
    returns a consistent state with one more event, placed at
    [aa + u * (bb - aa)], a position from the map start [aa] of the root up
    to, and not including, the total map length [bb]. *)
Theorem addEventToTree_random_position (m : Model) :
  Consistent m ->
  0 <= draws (_rng m) (consumed (_rng m)) ->
  draws (_rng m) (consumed (_rng m)) < 1 ->
  getMapStart (getRoot (_tree m)) < getTotalMapLength (_tree m) ->
  let e := _nextEvent m in
  let aa := getMapStart (getRoot (_tree m)) in
  let bb := getTotalMapLength (_tree m) in
  let x := aa + draws (_rng m) (consumed (_rng m)) * (bb - aa) in
  exists m',
    addEventToTree m = Ok m' /\ Consistent m' /\
    aa <= x /\ x < bb /\
    mapTime (_events m' e) = x /\
    eventNode (_events m' e) = mapEventToTree (_tree m) x /\
    _lastEventModified m' = Some e /\
    _eventCollection m' = insertEventSet e (_eventCollection m) /\
    List.length (_eventCollection m') = S (List.length (_eventCollection m)).
Proof.
  intros Cm H0 H1 Hab e aa bb x.
  pose proof (uniformRvRange_bounds aa bb (_rng m) H0 H1 Hab) as [B0 B1].
  unfold addEventToTree.
  destruct Cm as [Core Last].
  pose proof (cons_tree _ _ _ _ _ _ Core) as [[NN _] _].
  destruct (getRoot (_tree m)) as [|r ar tr mr lfR rtR] eqn:Hroot;
    [discriminate|].
  change (getMapStart (mkNode r ar tr mr lfR rtR)) with aa.
  change (uniformRvRange aa (getTotalMapLength (_tree m)) (_rng m))
    with (x, mkMbRandom (draws (_rng m)) (S (consumed (_rng m)))).
  cbv iota beta.
  set (m0 := with_rng _ m).
  destruct (addEventToTreeAt_inserted x m0 (conj Core Last))
    as [m' [N [E [C [_ [R [Ln [Lm [En [Em _]]]]]]]]]].
  exists m'. split; [exact E|]. split; [exact C|].
  split; [exact B0|]. split; [exact B1|].
  split; [exact Em|]. split; [exact En|]. split; [exact Lm|].
  split; [exact R|exact Ln].
Qed.

(** X5, on the scenario: a second event, added at 3/2 to the state with
    one event. *)
Lemma addEventToTree_postcondition_witness :
  exists m',
    addEventToTreeAt (3 # 2) oneEvent = Ok m' /\ Consistent m' /\
    List.length (_eventCollection m') = 2%nat /\
    _lastEventModified m' = Some (_nextEvent oneEvent) /\
    mapTime (_events m' (_nextEvent oneEvent)) = 3 # 2.
Proof.
  destruct (addEventToTree_postcondition (3 # 2) oneEvent
              (reachable_consistent _ oneEvent_reachable))
    as [m' [N [E [C [_ [_ [Ln [Lm [_ [Et _]]]]]]]]]].
  exists m'. split; [exact E|]. split; [exact C|].
  split; [rewrite Ln; vm_compute; reflexivity|]. split; [exact Lm|exact Et].
Defined.

(** X6, on the scenario: an event added at a drawn position to the state
    with one event. *)
Lemma addEventToTree_random_position_witness :
  exists m',
    addEventToTree oneEvent = Ok m' /\ Consistent m' /\
    getMapStart (getRoot (_tree oneEvent))
    <= mapTime (_events m' (_nextEvent oneEvent)) /\
    mapTime (_events m' (_nextEvent oneEvent))
    < getTotalMapLength (_tree oneEvent) /\
    List.length (_eventCollection m')
    = S (List.length (_eventCollection oneEvent)).
Proof.
  destruct (addEventToTree_random_position oneEvent
              (reachable_consistent _ oneEvent_reachable))
    as [m' [E [C [B0 [B1 [Em [_ [_ [_ Ln]]]]]]]]];
    [by_computation..|].
  exists m'. split; [exact E|]. split; [exact C|].
  split; [rewrite Em; exact B0|]. split; [rewrite Em; exact B1|exact Ln].
Defined.

(** ** The cached events in the states the model reaches *)

(** X7.  In every state the model reaches from a consistent one, the
    [ancestralNodeEvent] of every node below the root is the [nodeEvent] of
    its ancestor, the [nodeEvent] of the root is the Root Event, and the
    branch history of the root holds no event. *)
Theorem ancestralNodeEvent_invariant (m : Model) :
  reachable m ->
  (forall i a t ms lf rt,
      nodeOf (getRoot (_tree m)) (mkNode i (Some a) t ms lf rt) ->
      ancestralNodeEvent (_histories m i) = nodeEvent (_histories m a)) /\
  (forall r, getIndex (getRoot (_tree m)) = Some r ->
             nodeEvent (_histories m r) = _rootEvent m /\
             eventsOnBranch (_histories m r) = []).
Proof.
  intros R.
  destruct (reachable_consistent m R) as [Core _].
  pose proof (cons_tree _ _ _ _ _ _ Core) as [[NN [L ND]] _].
  pose proof (cons_caches _ _ _ _ _ _ Core) as T.
  split.
  - intros i a t ms lf rt Hn.
    destruct (getRoot (_tree m)) as [|r ar tr mr lfR rtR]; [discriminate|].
    destruct T as [T1 T2]. destruct L as [Lr [_ [L1 L2]]].
    destruct Hn as [Hn|[Hn|Hn]].
    + inversion Hn; subst. discriminate.
    + apply (cachesOk_at _ lfR r i a t ms lf rt T1 L1 Hn).
    + apply (cachesOk_at _ rtR r i a t ms lf rt T2 L2 Hn).
  - intros r Hr. split; [now apply (cons_rootCache _ _ _ _ _ _ Core)|].
    destruct (eventsOnBranch (_histories m r)) as [|x l] eqn:El; [reflexivity|].
    exfalso.
    destruct (cons_histories _ _ _ _ _ _ Core r x) as [Hreg Hi];
      [rewrite El; now left|].
    destruct (cons_registry _ _ _ _ _ _ Core x Hreg) as [_ [[_ Hp] _]].
    apply Hp. now rewrite Hi, Hr.
Qed.

Section Governed.
Variables (root : Node) (rootEvent : EventPtr) (reg : list nat)
  (h : nat -> BranchHistory) (ev : nat -> BranchEvent).
Hypothesis ND : NoDup (indices root).
Hypothesis Hist : forall i e, In e (eventsOnBranch (h i)) ->
                    In e reg /\ getIndex (eventNode (ev e)) = Some i.
Hypothesis Reg : forall e, In e reg -> nodeOf root (eventNode (ev e)).

Let governed := governedBy rootEvent reg ev.

Lemma governed_below (p : Node) :
  forall a e,
    (isNULL p = false -> nodeOf root p) ->
    cachesOk nowhere h a p -> nodeEvent (h a) = Some e ->
    (forall n, nodeOf p n -> governed e n) ->
    forall n j, nodeOf p n -> getIndex n = Some j ->
      exists e', nodeEvent (h j) = Some e' /\ governed e' n.
Proof.
  induction p as [|i a' t s lf IHlf rt IHrt];
    intros a e Hp C Ha Q n j Hn Hj; [contradiction|].
  specialize (Hp eq_refl).
  destruct C as [_ [C2 [C3 C4]]]. specialize (C2 (fun X => X)).
  set (p := mkNode i a' t s lf rt) in *.
  assert (Self : nodeOf p p) by (left; reflexivity).
  assert (Own : exists e0, nodeEvent (h i) = Some e0 /\
                           forall n', nodeOf p n' -> governed e0 n').
  { unfold effectiveEvent in C2. destruct (isEmpty (h i)) eqn:Ei.
    - exists e. split; [congruence|exact Q].
    - destruct (getLastEvent_nonempty _ Ei) as [e0 [E0 In0]].
      exists e0. split; [congruence|].
      destruct (Hist i e0 In0) as [Hr Hi].
      assert (Eq : eventNode (ev e0) = p)
        by (apply (nodeOf_unique root); auto).
      intros n' Hn'. right. split; [exact Hr|]. now rewrite Eq. }
  destruct Own as [e0 [E0 Q0]].
  assert (Child : forall c, nodeOf p c -> isNULL c = false -> nodeOf root c).
  { intros c Hc _. exact (nodeOf_trans _ _ _ Hp Hc). }
  destruct Hn as [Hn|[Hn|Hn]].
  - subst n. injection Hj as <-. exists e0. split; [exact E0|now apply Q0].
  - apply (IHlf i e0); auto.
    + intros Hl. apply Child; [|exact Hl]. right. left.
      destruct lf; [discriminate|left; reflexivity].
    + intros n' Hn'. apply Q0. right. now left.
  - apply (IHrt i e0); auto.
    + intros Hl. apply Child; [|exact Hl]. right. right.
      destruct rt; [discriminate|left; reflexivity].
    + intros n' Hn'. apply Q0. right. now right.
Qed.
End Governed.

(** X8.  In every state the model reaches from a consistent one, the
    [nodeEvent] of every node of the tree is never null: it is an allocated
    event, either the Root Event or a Registry event that sits on the
    branch of the node or of a node above it. *)
Theorem nodeEvent_governing (m : Model) :
  reachable m ->
  forall n j, nodeOf (getRoot (_tree m)) n -> getIndex n = Some j ->
    exists e, nodeEvent (_histories m j) = Some e /\
              (e < _nextEvent m)%nat /\
              governedBy (_rootEvent m) (_eventCollection m) (_events m) e n.
Proof.
  intros R n j Hn Hj.
  destruct (reachable_consistent m R) as [Core _].
  pose proof (cons_tree _ _ _ _ _ _ Core) as [[NN [L ND]] _].
  pose proof (cons_caches _ _ _ _ _ _ Core) as T.
  destruct (cons_root _ _ _ _ _ _ Core) as [re [Hre [_ [_ Lre]]]].
  assert (Reg : forall e, In e (_eventCollection m) ->
                          nodeOf (getRoot (_tree m)) (eventNode (_events m e))).
  { intros e He.
    now destruct (cons_registry _ _ _ _ _ _ Core e He) as [_ [[X _] _]]. }
  assert (G : exists e, nodeEvent (_histories m j) = Some e /\
              governedBy (_rootEvent m) (_eventCollection m) (_events m) e n).
  { pose proof (cons_rootCache _ _ _ _ _ _ Core) as RC.
    destruct (getRoot (_tree m)) as [|r ar tr mr lfR rtR] eqn:Hroot;
      [discriminate|].
    specialize (RC r eq_refl). destruct T as [T1 T2].
    assert (Hr : nodeOf (mkNode r ar tr mr lfR rtR) (mkNode r ar tr mr lfR rtR))
      by (left; reflexivity).
    destruct Hn as [Hn|[Hn|Hn]].
    - subst n. injection Hj as <-. exists re. split; [congruence|now left].
    - apply (governed_below (mkNode r ar tr mr lfR rtR) (_rootEvent m)
               (_eventCollection m) (_histories m) (_events m) ND
               (cons_histories _ _ _ _ _ _ Core) Reg lfR r re); auto.
      + intros Hl. right. left. destruct lfR; [discriminate|left; reflexivity].
      + congruence.
      + intros n' _. now left.
    - apply (governed_below (mkNode r ar tr mr lfR rtR) (_rootEvent m)
               (_eventCollection m) (_histories m) (_events m) ND
               (cons_histories _ _ _ _ _ _ Core) Reg rtR r re); auto.
      + intros Hl. right. right. destruct rtR; [discriminate|left; reflexivity].
      + congruence.
      + intros n' _. now left. }
  destruct G as [e [E G]]. exists e. split; [exact E|]. split; [|exact G].
  destruct G as [G|[G _]].
  - rewrite Hre in G. injection G as <-. exact Lre.
  - now destruct (cons_registry _ _ _ _ _ _ Core e G) as [X _].
Qed.

(** X7, on the scenario: the caches of the leaf 5, to whose branch the
    global move took an event, and of the root. *)
Lemma ancestralNodeEvent_invariant_witness :
  ancestralNodeEvent (_histories twoMoved 5) = nodeEvent (_histories twoMoved 2) /\
  nodeEvent (_histories twoMoved 0) = _rootEvent twoMoved.
Proof.
  destruct (ancestralNodeEvent_invariant twoMoved twoMoved_reachable)
    as [H1 H2].
  split.
  - apply (H1 5%nat 2%nat 0 4 NULL NULL). in_tree.
  - apply (H2 0%nat). vm_compute. reflexivity.
Defined.

(** X8, on the scenario: the event that governs the leaf 5 after the
    global move. *)
Lemma nodeEvent_governing_witness :
  exists e, nodeEvent (_histories twoMoved 5) = Some e /\
            (e < _nextEvent twoMoved)%nat /\
            governedBy (_rootEvent twoMoved) (_eventCollection twoMoved)
              (_events twoMoved) e (leaf 5 2 4).
Proof.
  apply (nodeEvent_governing twoMoved twoMoved_reachable (leaf 5 2 4) 5%nat).
  - in_tree.
  - reflexivity.
Defined.

(** ** Counting the events on the branches *)

Lemma In_eventsBelow (h : nat -> BranchHistory) (p : Node) (x : nat) :
  In x (eventsBelow h p) <->
  exists i, In i (indices p) /\ In x (eventsOnBranch (h i)).
Proof.
  induction p as [|i a t s lf IHlf rt IHrt]; simpl.
  - split; [contradiction|intros [i [[] _]]].
  - rewrite !in_app_iff, IHlf, IHrt. split.
    + intros [H|[[k [Hk H]]|[k [Hk H]]]].
      * exists i. auto.
      * exists k. split; [right; apply in_or_app|]; auto.
      * exists k. split; [right; apply in_or_app|]; auto.
    + intros [k [[<-|Hk] H]]; [now left|].
      apply in_app_or in Hk. destruct Hk as [Hk|Hk]; right;
        [left|right]; exists k; auto.
Qed.

Lemma NoDup_eventsBelow (h : nat -> BranchHistory) (ev : nat -> BranchEvent)
  (p : Node) :
  (forall i, NoDup (eventsOnBranch (h i))) ->
  (forall i e, In e (eventsOnBranch (h i)) ->
               getIndex (eventNode (ev e)) = Some i) ->
  NoDup (indices p) -> NoDup (eventsBelow h p).
Proof.
  intros Hn Hi. induction p as [|i a t s lf IHlf rt IHrt]; intros ND;
    [constructor|].
  simpl in *. inversion ND as [|? ? Hni ND']; subst.
  assert (Once : forall x j k, In x (eventsOnBranch (h j)) ->
                   In x (eventsOnBranch (h k)) -> j = k).
  { intros x j k X Y. apply Hi in X. apply Hi in Y. congruence. }
  apply NoDup_app; [apply Hn| |].
  - apply NoDup_app;
      [apply IHlf; exact (NoDup_app_l _ _ ND')
      |apply IHrt; exact (NoDup_app_r _ _ ND')|].
    intros x X Y. apply In_eventsBelow in X. apply In_eventsBelow in Y.
    destruct X as [j [Hj X]]. destruct Y as [k [Hk Y]].
    assert (j = k) by (eapply Once; eauto). subst k.
    exact (NoDup_app_disjoint _ _ j ND' Hj Hk).
  - intros x X Y. apply Hni.
    apply in_app_or in Y. apply in_or_app.
    destruct Y as [Y|Y]; apply In_eventsBelow in Y; destruct Y as [k [Hk Y]];
      assert (i = k) by (eapply Once; eauto); subst k; auto.
Qed.

Lemma int_add_small (a b : Z) :
  (0 <= a)%Z -> (0 <= b)%Z -> (a + b <= INT_MAX)%Z ->
  int_add a b = Ok (a + b)%Z.
Proof.
  intros Ha Hb Hs. unfold int_add.
  assert (R : ((INT_MIN <=? a + b)%Z && (a + b <=? INT_MAX)%Z) = true).
  { apply andb_true_iff. split; apply Z.leb_le; unfold INT_MIN in *; lia. }
  now rewrite R.
Qed.

Lemma countEventsInBranchHistory_total (h : nat -> BranchHistory) (p : Node) :
  isNULL p = false ->
  (Z.of_nat (List.length (eventsBelow h p)) <= INT_MAX)%Z ->
  countEventsInBranchHistory h p
  = Ok (Z.of_nat (List.length (eventsBelow h p))).
Proof.
  induction p as [|i a t s lf IHlf rt IHrt]; intros Hnull Hb; [discriminate|].
  cbn [countEventsInBranchHistory eventsBelow] in *.
  rewrite !length_app in Hb. rewrite !length_app.
  unfold getNumberOfBranchEvents.
  set (c := List.length (eventsOnBranch (h i))) in *.
  set (l := List.length (eventsBelow h lf)) in *.
  set (r := List.length (eventsBelow h rt)) in *.
  assert (E1 : match lf with
               | NULL => Ok (Z.of_nat c)
               | _ => n <- countEventsInBranchHistory h lf ;;
                      int_add (Z.of_nat c) n
               end = Ok (Z.of_nat (c + l))).
  { destruct lf as [|il al tl sl ll rl] eqn:El.
    - unfold l. simpl. now rewrite Nat.add_0_r.
    - rewrite IHlf by (try reflexivity; fold l; lia). fold l. cbn [bind].
      rewrite int_add_small by lia. now rewrite Nat2Z.inj_add. }
  rewrite E1. cbn [bind].
  destruct rt as [|ir ar tr sr lr rr] eqn:Er.
  - unfold r. simpl. now rewrite Nat.add_0_r.
  - rewrite IHrt by (try reflexivity; fold r; lia). fold r. cbn [bind].
    rewrite int_add_small by lia. f_equal. lia.
Qed.

Lemma eventsBelow_registry (m : Model) :
  Consistent m -> NoDup (_eventCollection m) ->
  List.length (eventsBelow (_histories m) (getRoot (_tree m)))
  = List.length (_eventCollection m).
Proof.
  intros [Core _] NDreg.
  pose proof (cons_tree _ _ _ _ _ _ Core) as [[NN [L ND]] _].
  assert (NDb : NoDup (eventsBelow (_histories m) (getRoot (_tree m)))).
  { apply NoDup_eventsBelow with (ev := _events m).
    - apply (cons_nodup _ _ _ _ _ _ Core).
    - intros i e H. now destruct (cons_histories _ _ _ _ _ _ Core i e H).
    - exact ND. }
  apply Nat.le_antisymm; apply NoDup_incl_length; try assumption.
  - intros x X. apply In_eventsBelow in X. destruct X as [i [_ X]].
    now destruct (cons_histories _ _ _ _ _ _ Core i x X).
  - intros x X.
    destruct (cons_registry _ _ _ _ _ _ Core x X)
      as [_ [[Hn _] [_ [i [Hi Hx]]]]].
    apply In_eventsBelow. exists i. split; [|exact Hx].
    destruct (nodeOf_index _ _ Hn) as [k [Hk Hin]].
    rewrite Hi in Hk. injection Hk as <-.
    exact (nodeOf_indices _ _ Hn i Hin).
Qed.

Lemma eventMove_registry (local : bool) (m m' : Model) :
  eventMove local m = Ok m' -> _eventCollection m' = _eventCollection m.
Proof.
  unfold eventMove. intros H.
  apply bind_Ok_inv in H. destruct H as [m7 [H E]]. injection E as <-.
  destruct (getNumberOfEvents m >? 0)%Z; [|now injection H as <-].
  apply bind_Ok_inv in H. destruct H as [[e m1] [Hc H]].
  apply chooseEventAtRandom_Ok in Hc. destruct Hc as [He ->].
  apply bind_Ok_inv in H. destruct H as [pe [_ H]].
  apply bind_Ok_inv in H. destruct H as [m3 [H3 H]].
  apply onBranchHistory_Ok in H3. destruct H3 as [i3 [_ ->]].
  apply bind_Ok_inv in H. destruct H as [m5 [H5 H]].
  apply onBranchHistory_Ok in H5. destruct H5 as [i5 [_ ->]].
  apply bind_Ok_inv in H. destruct H as [m6 [H6 H]].
  apply forwardSetBranchHistories_Ok in H6. destruct H6 as [h6 ->].
  apply forwardSetBranchHistories_Ok in H. destruct H as [h7 ->].
  destruct local; reflexivity.
Qed.

Lemma revert_registry (m m' : Model) :
  revertMovedEventToPrevious m = Ok m' ->
  _eventCollection m' = _eventCollection m.
Proof.
  unfold revertMovedEventToPrevious.
  destruct (_lastEventModified m) as [e|]; [|discriminate].
  intros H.
  apply bind_Ok_inv in H. destruct H as [nl [_ H]].
  apply bind_Ok_inv in H. destruct H as [m1 [H1 H]].
  apply onBranchHistory_Ok in H1. destruct H1 as [i1 [_ ->]].
  apply bind_Ok_inv in H. destruct H as [m3 [H3 H]].
  apply onBranchHistory_Ok in H3. destruct H3 as [i3 [_ ->]].
  apply bind_Ok_inv in H. destruct H as [m4 [H4 H]].
  apply forwardSetBranchHistories_Ok in H4. destruct H4 as [h4 ->].
  apply bind_Ok_inv in H. destruct H as [m5 [H5 H]].
  apply forwardSetBranchHistories_Ok in H5. destruct H5 as [h5 ->].
  now injection H as <-.
Qed.

Lemma fresh_allocation (m : Model) :
  Consistent m -> ~ In (_nextEvent m) (_eventCollection m).
Proof.
  intros [Core _] X.
  destruct (cons_registry _ _ _ _ _ _ Core _ X) as [Lt _]. lia.
Qed.

Lemma initializeEvent_registry (r : EventRecord) (m m' : Model) :
  Consistent m -> initializeEvent r m = Ok m' ->
  (exists x, resolveEventNode r m = Ok x /\
     if Node_eqb x (getRoot (_tree m))
     then _eventCollection m' = _eventCollection m
     else _eventCollection m'
          = insertEventSet (_nextEvent m) (_eventCollection m)) /\
  _tree m' = _tree m.
Proof.
  intros Cm H.
  destruct (resolveEventNode r m) as [x| |] eqn:Hx;
    try (unfold initializeEvent in H; rewrite Hx in H; discriminate).
  destruct (Node_eqb x (getRoot (_tree m))) eqn:Hr.
  - destruct Cm as [Core Last].
    destruct (cons_root _ _ _ _ _ _ Core) as [re [Hre _]].
    rewrite (initializeEvent_root r m x re Hx Hr Hre) in H.
    injection H as <-. split; [|reflexivity].
    exists x. split; [reflexivity|]. now rewrite Hr.
  - destruct (isNULL x) eqn:Hn.
    + unfold initializeEvent in H. rewrite Hx in H. cbn [bind] in H.
      rewrite Hr in H. destruct x; discriminate.
    + assert (T : _tree m' = _tree m).
      { unfold initializeEvent in H. rewrite Hx in H. cbn [bind] in H.
        rewrite Hr in H. destruct x as [|i a t s lf rt]; [discriminate|].
        unfold newBranchEventWithReadParameters in H.
        cbv beta iota zeta in H.
        apply bind_Ok_inv in H. destruct H as [m2 [H2 H]].
        apply onBranchHistory_Ok in H2. destruct H2 as [i2 [_ ->]].
        apply bind_Ok_inv in H. destruct H as [m4 [H4 H]].
        apply forwardSetBranchHistories_Ok in H4. destruct H4 as [h4 ->].
        now injection H as <-. }
      split; [|exact T].
      destruct (initializeEvent_proper r m x Cm Hx Hr Hn)
        as [m2 [N' [h4 [E [_ [_ [_ [Ec _]]]]]]]].
      rewrite E in H. injection H as <-.
      exists x. split; [reflexivity|]. now rewrite Hr.
Qed.

Lemma step_registry (m m' : Model) :
  step m m' -> Consistent m -> NoDup (_eventCollection m) ->
  Consistent m' /\ NoDup (_eventCollection m') /\
  (List.length (_eventCollection m) <= List.length (_eventCollection m')
   <= S (List.length (_eventCollection m)))%nat.
Proof.
  assert (Ins : forall m0 : Model, Consistent m0 ->
            NoDup (_eventCollection m0) ->
            NoDup (insertEventSet (_nextEvent m0) (_eventCollection m0)) /\
            List.length (insertEventSet (_nextEvent m0) (_eventCollection m0))
            = S (List.length (_eventCollection m0))).
  { intros m0 C0 N0.
    pose proof (insertEventSet_fresh _ _ (fresh_allocation m0 C0)) as P.
    split.
    - apply (Permutation_NoDup (Permutation_sym P)). constructor; [|exact N0].
      exact (fresh_allocation m0 C0).
    - now rewrite (Permutation_length P). }
  assert (At : forall x m0 m1, addEventToTreeAt x m0 = Ok m1 ->
            Consistent m0 -> NoDup (_eventCollection m0) ->
            Consistent m1 /\ NoDup (_eventCollection m1) /\
            (List.length (_eventCollection m0)
             <= List.length (_eventCollection m1)
             <= S (List.length (_eventCollection m0)))%nat).
  { intros x m0 m1 E C0 N0.
    destruct (addEventToTreeAt_inserted x m0 C0)
      as [m2 [N [E2 [C2 [_ [R [Ln _]]]]]]].
    rewrite E2 in E. injection E as <-.
    destruct (Ins m0 C0 N0) as [I1 I2].
    split; [exact C2|]. rewrite R. split; [exact I1|]. lia. }
  intros S Cm Nm. destruct S as [m x m' E|m m' E|m local m' E|m m' E|m r m' E].
  - exact (At x m m' E Cm Nm).
  - unfold addEventToTree in E.
    destruct (getRoot (_tree m)) as [|r ar tr mr lfR rtR]; [discriminate|].
    destruct (uniformRvRange _ _ _) as [x r'].
    destruct Cm as [Core Last].
    exact (At x (with_rng r' m) m' E (conj Core Last) Nm).
  - rewrite (eventMove_registry _ _ _ E).
    split; [exact (eventMove_consistent _ _ _ Cm E)|]. split; [exact Nm|lia].
  - rewrite (revert_registry _ _ E).
    split; [exact (revert_consistent _ _ Cm E)|]. split; [exact Nm|lia].
  - split; [exact (initializeEvent_consistent _ _ _ Cm E)|].
    destruct (initializeEvent_registry r m m' Cm E) as [[x [_ Hx]] _].
    destruct (Ins m Cm Nm) as [I1 I2].
    destruct (Node_eqb x (getRoot (_tree m))); rewrite Hx;
      (split; [assumption|lia]).
Qed.

(** X9.  Started in a consistent state whose Registry holds no event
    twice, any sequence of insertions, moves, reverts and records read
    leads to a consistent state whose Registry holds no event twice, and
    in which, as long as the Registry fits an [int], the recursive count
    of the events in the branch histories, from the root, returns without
    overflow the number of events of the Registry, which is what
    [getNumberOfEvents] gives. *)
Theorem countEventsInBranchHistory_registry (m0 m : Model) :
  Consistent m0 -> NoDup (_eventCollection m0) -> steps m0 m ->
  (Z.of_nat (List.length (_eventCollection m)) <= INT_MAX)%Z ->
  Consistent m /\ NoDup (_eventCollection m) /\
  countEventsInBranchHistory (_histories m) (getRoot (_tree m))
  = Ok (Z.of_nat (List.length (_eventCollection m))) /\
  getNumberOfEvents m = Z.of_nat (List.length (_eventCollection m)).
Proof.
  intros C0 N0 S Hb.
  assert (Inv : Consistent m /\ NoDup (_eventCollection m)).
  { clear Hb. induction S as [m|m m1 m2 S IH St]; [now split|].
    destruct (IH C0 N0) as [C1 N1].
    destruct (step_registry m1 m2 St C1 N1) as [C2 [N2 _]]. now split. }
  destruct Inv as [Cm Nm].
  split; [exact Cm|]. split; [exact Nm|].
  pose proof (eventsBelow_registry m Cm Nm) as E.
  destruct Cm as [Core _].
  pose proof (cons_tree _ _ _ _ _ _ Core) as [[NN _] _].
  split.
  - rewrite <- E. apply countEventsInBranchHistory_total; [exact NN|].
    now rewrite E.
  - unfold getNumberOfEvents. apply to_int_small. lia.
Qed.

(** ** Reading a whole event-data file *)

Lemma resolveEventNode_tree (r : EventRecord) (m m' : Model) :
  _tree m' = _tree m -> resolveEventNode r m' = resolveEventNode r m.
Proof. intros T. unfold resolveEventNode. now rewrite T. Qed.

Lemma initializeEvents_app (rs1 rs2 : list EventRecord) :
  forall m, initializeEvents (rs1 ++ rs2) m
            = (m1 <- initializeEvents rs1 m ;; initializeEvents rs2 m1).
Proof.
  induction rs1 as [|r rs1 IH]; intros m; [reflexivity|].
  simpl. destruct (initializeEvent r m) as [m1| |]; cbn [bind];
    [apply IH|reflexivity..].
Qed.

Lemma initializeEvents_consistent (rs : list EventRecord) :
  forall m m', Consistent m -> initializeEvents rs m = Ok m' ->
               Consistent m' /\ _tree m' = _tree m.
Proof.
  induction rs as [|r rs IH]; intros m m' Cm H.
  - injection H as <-. now split.
  - simpl in H. apply bind_Ok_inv in H. destruct H as [m1 [H1 H]].
    pose proof (initializeEvent_consistent _ _ _ Cm H1) as C1.
    destruct (initializeEvent_registry r m m1 Cm H1) as [_ T1].
    destruct (IH m1 m' C1 H) as [C' T']. split; [exact C'|congruence].
Qed.

Lemma initializeEvents_all (m0 : Model) (rs : list EventRecord) :
  forall m, Consistent m -> _tree m = _tree m0 ->
    (forall r, In r rs ->
       exists x, resolveEventNode r m0 = Ok x /\ isNULL x = false) ->
    exists m',
      initializeEvents rs m = Ok m' /\ Consistent m' /\
      List.length (_eventCollection m')
      = (List.length (_eventCollection m)
         + List.length (filter (nonRootRecord m0) rs))%nat /\
      _rng m' = _rng m /\ _lastEventModified m' = _lastEventModified m.
Proof.
  induction rs as [|r rs IH]; intros m Cm T Hall.
  - exists m. split; [reflexivity|]. split; [exact Cm|].
    split; [simpl; lia|]. split; reflexivity.
  - destruct (Hall r (or_introl eq_refl)) as [x [Hx Hn]].
    assert (Hx' : resolveEventNode r m = Ok x)
      by (rewrite (resolveEventNode_tree r m0 m T); exact Hx).
    assert (Step : exists m1,
               initializeEvent r m = Ok m1 /\
               List.length (_eventCollection m1)
               = (List.length (_eventCollection m)
                  + if nonRootRecord m0 r then 1 else 0)%nat /\
               _rng m1 = _rng m /\
               _lastEventModified m1 = _lastEventModified m).
    { unfold nonRootRecord. rewrite Hx, <- T.
      destruct (Node_eqb x (getRoot (_tree m))) eqn:Hr.
      - destruct Cm as [Core Last].
        destruct (cons_root _ _ _ _ _ _ Core) as [re [Hre _]].
        rewrite (initializeEvent_root r m x re Hx' Hr Hre).
        eexists. split; [reflexivity|]. cbn. split; [lia|]. split; reflexivity.
      - destruct (initializeEvent_proper r m x Cm Hx' Hr Hn)
          as [m1 [N' [h4 [E [_ [_ [_ [Ec [_ [_ [_ [_ [El Er]]]]]]]]]]]]].
        exists m1. split; [exact E|]. rewrite Ec.
        rewrite (Permutation_length
                   (insertEventSet_fresh _ _ (fresh_allocation m Cm))).
        cbn. split; [lia|]. now split. }
    destruct Step as [m1 [E1 [L1 [R1 M1]]]].
    pose proof (initializeEvent_consistent _ _ _ Cm E1) as C1.
    destruct (initializeEvent_registry r m m1 Cm E1) as [_ T1].
    destruct (IH m1 C1 (eq_trans T1 T)) as [m' [E' [C' [L' [R' M']]]]].
    { intros r' Hr'. apply Hall. now right. }
    exists m'. simpl. rewrite E1. cbn [bind].
    split; [exact E'|]. split; [exact C'|].
    split; [|split; congruence].
    rewrite L', L1. destruct (nonRootRecord m0 r); simpl; lia.
Qed.

Lemma last_In (r : EventRecord) (rs : list EventRecord) :
  In (last rs r) (r :: rs).
Proof.
  destruct rs as [|a rs]; [now left|]. right.
  revert a. induction rs as [|b rs IH]; intros a; [now left|].
  right. exact (IH b).
Qed.

Lemma passesOver_split (rs1 : list EventRecord) (r : EventRecord)
  (rs2 : list EventRecord) (m : Model) :
  exists tl, initializeModelFromEventDataFile (Some (rs1 ++ r :: rs2)) m
             = initializeEvents (rs1 ++ r :: tl) m.
Proof.
  destruct rs1 as [|a rs1]; cbn [app initializeModelFromEventDataFile];
    unfold passesOver.
  - eexists. reflexivity.
  - exists (rs2 ++ [last (rs1 ++ r :: rs2) a]).
    cbn [app]. now rewrite <- app_assoc.
Qed.

(** X10.  The outcomes of [initializeModelFromEventDataFile].  A file
    that cannot be opened ends the process.  The loop tests the stream
    before the reads only, so that on a file with records the body runs
    once more after the last record, on the values of that record: in a
    consistent state, records that all resolve to nodes are all read, the
    state returned is consistent, the Registry has grown by the number of
    records that resolve to a node other than the root, and by one more
    when the last record does, and neither the generator nor
    [_lastEventModified] was touched.  A record whose first species is
    "NA", reached after the records before it were read, ends the process;
    a record for which the lookup gives no node, reached in the same way,
    leads to a dereference of the null pointer. *)
Theorem initializeModelFromEventDataFile_outcomes (m : Model) :
  initializeModelFromEventDataFile None m = FatalExit /\
  (forall r rs,
      Consistent m ->
      (forall r', In r' (r :: rs) ->
         exists x, resolveEventNode r' m = Ok x /\ isNULL x = false) ->
      exists m',
        initializeModelFromEventDataFile (Some (r :: rs)) m = Ok m' /\
        Consistent m' /\
        List.length (_eventCollection m')
        = (List.length (_eventCollection m)
           + List.length (filter (nonRootRecord m) (r :: rs))
           + if nonRootRecord m (last rs r) then 1 else 0)%nat /\
        _rng m' = _rng m /\ _lastEventModified m' = _lastEventModified m) /\
  (forall rs1 r rs2 m1,
      initializeEvents rs1 m = Ok m1 -> species1 r = NA ->
      initializeModelFromEventDataFile (Some (rs1 ++ r :: rs2)) m
      = FatalExit) /\
  (forall rs1 r rs2 m1,
      Consistent m -> initializeEvents rs1 m = Ok m1 ->
      resolveEventNode r m = Ok NULL ->
      initializeModelFromEventDataFile (Some (rs1 ++ r :: rs2)) m
      = Undefined).
Proof.
  split; [reflexivity|]. split; [|split].
  - intros r rs Cm Hall. cbn [initializeModelFromEventDataFile].
    unfold passesOver.
    destruct (initializeEvents_all m ((r :: rs) ++ [last rs r]) m Cm eq_refl)
      as [m' [E [C [L [R M]]]]].
    { intros r' Hr'. apply in_app_or in Hr'. destruct Hr' as [Hr'|[<-|[]]].
      - now apply Hall.
      - apply Hall. apply last_In. }
    exists m'. split; [exact E|]. split; [exact C|].
    split; [|split; assumption].
    rewrite L, filter_app, length_app. cbn [filter].
    destruct (nonRootRecord m (last rs r)); simpl; lia.
  - intros rs1 r rs2 m1 E1 Hna.
    destruct (passesOver_split rs1 r rs2 m) as [tl ->].
    rewrite initializeEvents_app, E1. cbn [bind initializeEvents].
    unfold initializeEvent, resolveEventNode. rewrite Hna. reflexivity.
  - intros rs1 r rs2 m1 Cm E1 Hx.
    destruct (passesOver_split rs1 r rs2 m) as [tl ->].
    rewrite initializeEvents_app, E1. cbn [bind initializeEvents].
    destruct (initializeEvents_consistent rs1 m m1 Cm E1) as [[Core _] T].
    pose proof (cons_tree _ _ _ _ _ _ Core) as [[NN _] _].
    unfold initializeEvent.
    rewrite (resolveEventNode_tree r m m1 T), Hx. cbn [bind].
    destruct (getRoot (_tree m1)); [discriminate|]. reflexivity.
Qed.

(** ** A move and its revert, whatever the map positions *)

Lemma insertByMapTime_perm ev x l :
  Permutation (insertByMapTime ev x l) (x :: l).
Proof.
  induction l as [|y l IH]; [reflexivity|]. simpl.
  destruct (Qlt_bool (mapTime (ev x)) (mapTime (ev y))); [reflexivity|].
  rewrite IH. apply perm_swap.
Qed.

Lemma eraseEvent_perm x l : In x l -> Permutation l (x :: eraseEvent x l).
Proof.
  induction l as [|y l IH]; [contradiction|]. simpl. intros H.
  destruct (Nat.eqb y x) eqn:E.
  - apply Nat.eqb_eq in E. now subst.
  - destruct H as [H|H]; [subst; rewrite Nat.eqb_refl in E; discriminate|].
    rewrite (IH H) at 1. apply perm_swap.
Qed.

(** X11.  In a consistent state with events in a Registry that fits an
    [int], and the next draw in [0,1), a move followed by its revert
    returns a consistent state in which every event has the node, the map
    position and the parameters it had, the Registry is the same,
    [_lastEventModified] is cleared, every branch holds the events it held,
    and every branch but that of the moved event holds them in the same
    order; this needs no assumption on the map positions. *)
Theorem move_then_revert_restores_events (local : bool) (m : Model) :
  Consistent m ->
  (1 <= Z.of_nat (List.length (_eventCollection m)) <= INT_MAX)%Z ->
  0 <= draws (_rng m) (consumed (_rng m)) ->
  draws (_rng m) (consumed (_rng m)) < 1 ->
  exists e m1 m2,
    eventMove local m = Ok m1 /\ _lastEventModified m1 = Some e /\
    In e (_eventCollection m) /\
    revertMovedEventToPrevious m1 = Ok m2 /\ Consistent m2 /\
    (forall y, eventNode (_events m2 y) = eventNode (_events m y) /\
               mapTime (_events m2 y) = mapTime (_events m y) /\
               parameters (_events m2 y) = parameters (_events m y)) /\
    (forall j, Permutation (eventsOnBranch (_histories m2 j))
                 (eventsOnBranch (_histories m j))) /\
    (forall j, getIndex (eventNode (_events m e)) <> Some j ->
               eventsOnBranch (_histories m2 j)
               = eventsOnBranch (_histories m j)) /\
    _eventCollection m2 = _eventCollection m /\
    _lastEventModified m2 = None.
Proof.
  intros Cm Hn H0 H1.
  destruct (chooseEventAtRandom_nonempty m Hn H0 H1) as [e [_ [_ Hc]]].
  assert (Hpos : (getNumberOfEvents m >? 0)%Z = true).
  { unfold getNumberOfEvents. rewrite to_int_small by lia. apply Z.gtb_lt. lia. }
  destruct (eventMove_chosen local m e _ Cm Hpos Hc)
    as [m1 [N0 [N1 [E1 [C1 [He [HL1 [Ev1 [HN0 [HN1 [L1 [O1 [T1 [R1 [G1 _]]]]]]]]]]]]]]].
  destruct (revert_modified m1 e C1 HL1)
    as [m2 [Na [Nb [E2 [C2 [Ev2 [HNa [HNb [L2 [O2 [T2 [R2 [G2 LM2]]]]]]]]]]]]].
  set (m0' := with_rng _ m) in *.
  assert (Ecur : _events m1 e = movedEvent local m0' e)
    by (rewrite Ev1; apply update_same).
  assert (Erev : _events m2 e = revertedEvent m1 e)
    by (rewrite Ev2; apply update_same).
  assert (Eold1 : oldEventNode (_events m1 e) = eventNode (_events m e))
    by (rewrite Ecur; reflexivity).
  assert (Eself : eventNode (_events m2 e) = eventNode (_events m e) /\
                  mapTime (_events m2 e) = mapTime (_events m e) /\
                  parameters (_events m2 e) = parameters (_events m e)).
  { rewrite Erev. unfold revertedEvent. cbn. rewrite Ecur. cbn.
    split; [reflexivity|]. split; reflexivity. }
  assert (Eother : forall y, y <> e -> _events m2 y = _events m y).
  { intros y Hy. rewrite Ev2, update_other, Ev1, update_other by exact Hy.
    reflexivity. }
  assert (ENa : Na = N1) by (rewrite Ecur, HN1 in HNa; now inversion HNa).
  assert (ENb : Nb = N0).
  { unfold revertedEvent in HNb. cbn in HNb. rewrite Eold1, HN0 in HNb.
    now inversion HNb. }
  subst Na Nb.
  destruct Cm as [Core Last].
  assert (HinN0 : In e (eventsOnBranch (_histories m N0))).
  { destruct (cons_registry _ _ _ _ _ _ Core e He) as [_ [_ [_ [i [X1 X2]]]]].
    rewrite HN0 in X1. inversion X1. now subst. }
  assert (P1 : forall k, eventsOnBranch
                           (update N1 (popEventOffBranchHistory e)
                              (_histories m1) k)
                         = eventsOnBranch
                             (update N0 (popEventOffBranchHistory e)
                                (_histories m) k)).
  { intros k. rewrite events_update_pop.
    destruct (Nat.eqb k N1) eqn:E.
    - apply Nat.eqb_eq in E. subst k.
      rewrite L1, events_update_add, Nat.eqb_refl.
      apply eraseEvent_insertByMapTime.
      rewrite events_update_pop. destruct (Nat.eqb N1 N0) eqn:E'.
      + apply eraseEvent_removes. apply (cons_nodup _ _ _ _ _ _ Core).
      + intros X. destruct (cons_histories _ _ _ _ _ _ Core N1 e X) as [_ Y].
        rewrite HN0 in Y. inversion Y. subst.
        rewrite Nat.eqb_refl in E'. discriminate.
    - rewrite L1, events_update_add, E. reflexivity. }
  assert (Hlists : forall j,
             eventsOnBranch (_histories m2 j)
             = if Nat.eqb j N0
               then insertByMapTime (_events m2) e
                      (eraseEvent e (eventsOnBranch (_histories m N0)))
               else eventsOnBranch (_histories m j)).
  { intros j. rewrite L2, events_update_add.
    destruct (Nat.eqb j N0) eqn:E.
    - rewrite P1, events_update_pop, Nat.eqb_refl. reflexivity.
    - rewrite P1, events_update_pop, E. reflexivity. }
  exists e, m1, m2.
  split; [exact E1|]. split; [exact HL1|]. split; [exact He|].
  split; [exact E2|]. split; [exact C2|]. split.
  { intros y. destruct (Nat.eq_dec y e) as [->|Hy]; [exact Eself|].
    rewrite (Eother y Hy). split; [reflexivity|]. split; reflexivity. }
  split.
  { intros j. rewrite Hlists. destruct (Nat.eqb j N0) eqn:E; [|reflexivity].
    apply Nat.eqb_eq in E. subst j.
    rewrite insertByMapTime_perm. symmetry. now apply eraseEvent_perm. }
  split.
  { intros j Hj. rewrite Hlists. destruct (Nat.eqb j N0) eqn:E; [|reflexivity].
    apply Nat.eqb_eq in E. subst j. now rewrite HN0 in Hj. }
  split; [congruence|exact LM2].
Qed.

(** ** The index chosen and the exact product *)

(** X13.  With [n >= 1] events in a Registry that fits an [int] and a draw
    [u], a [double] in [0,1), the index [chooseEventAtRandom] computes from
    the binary64 product is the floor of the exact product [u * n], or one
    more, when the product rounds up to the next integer; it never passes
    [n - 1], and the element at that index is the one returned. *)
Theorem chooseEventAtRandom_near_floor (m : Model) :
  let n := Z.of_nat (List.length (_eventCollection m)) in
  let u := draws (_rng m) (consumed (_rng m)) in
  (1 <= n <= INT_MAX)%Z -> 0 <= u -> u < 1 -> isDouble u ->
  exists p e,
    double_mul u (inject_Z n) = Some p /\
    (Qfloor (u * inject_Z n) <= Qfloor p <= Qfloor (u * inject_Z n) + 1)%Z /\
    (Qfloor p <= n - 1)%Z /\
    nth_error (_eventCollection m) (Z.to_nat (Qfloor p)) = Some e /\
    chooseEventAtRandom m
    = Ok (e, with_rng (mkMbRandom (draws (_rng m)) (S (consumed (_rng m)))) m).
Proof.
  intros n u Hn H0 H1 Hd.
  destruct (chooseEventAtRandom_nonempty m Hn H0 H1)
    as [e [[p [Ep [_ [Hi [Near [En _]]]]]] [_ E3]]].
  fold u in Ep, Near. rewrite Hd in Ep, Near. fold n in Ep, Near, Hi.
  exists p, e. split; [exact Ep|]. split; [exact Near|].
  split; [exact (proj2 Hi)|]. split; [exact En|exact E3].
Qed.

(** ** The recursive descent in closed form *)

(** X14.  Called on a node [p] with an ancestor, in a subtree whose links
    are sound and whose indices are distinct, the recursive descent
    returns, and what it did is: every node it reaches from [p] through
    nodes with an empty branch history has the [nodeEvent] of the ancestor
    of [p] as its [ancestralNodeEvent], and, when its own branch history
    is empty, as its [nodeEvent] too; every other record is untouched. *)
Theorem forwardSetHistoriesRecursive_closed_form (p : Node) (a : nat)
  (h : nat -> BranchHistory) :
  linked (Some a) p -> isNULL p = false ->
  ~ In a (indices p) -> NoDup (indices p) ->
  exists h',
    forwardSetHistoriesRecursive p h = Ok h' /\
    forall j, h' j = if visitsb h p j then touch (nodeEvent (h a)) (h j)
                     else h j.
Proof.
  intros L NN Ha ND.
  destruct (forwardSetHistoriesRecursive_spec p a h L NN Ha ND) as [h' [E S]].
  exists h'. split; [exact E|].
  intros j. rewrite S. now apply spec_propagate_closed.
Qed.

(** ** The further properties on the scenario *)

Lemma twoMoved_steps : steps exampleStart twoMoved.
Proof.
  apply steps_more with (m1 := twoEvents);
    [|apply step_move with (local := false); exact twoMoved_moved].
  apply steps_more with (m1 := oneEvent);
    [|apply step_addAt with (x := 3 # 2); exact twoEvents_added].
  apply steps_more with (m1 := exampleStart);
    [apply steps_none|apply step_addAt with (x := 1 # 2); exact oneEvent_added].
Qed.

(** X9, on the scenario: the count after two insertions and a move. *)
Lemma countEventsInBranchHistory_registry_witness :
  countEventsInBranchHistory (_histories twoMoved) (getRoot (_tree twoMoved))
  = Ok 2%Z /\
  getNumberOfEvents twoMoved = 2%Z.
Proof.
  destruct (countEventsInBranchHistory_registry exampleStart twoMoved
              exampleStart_consistent (NoDup_nil nat) twoMoved_steps)
    as [_ [_ [H1 H2]]]; [by_computation|].
  split; [rewrite H1|rewrite H2]; vm_compute; reflexivity.
Defined.

(** X10, on the scenario: a file with a record for the root and a record
    for a leaf; the record for the leaf is worked on twice. *)
Lemma initializeModelFromEventDataFile_outcomes_witness :
  exists m',
    initializeModelFromEventDataFile (Some [recordRoot; recordLeaf])
      exampleStart = Ok m' /\
    Consistent m' /\ List.length (_eventCollection m') = 2%nat.
Proof.
  destruct (initializeModelFromEventDataFile_outcomes exampleStart)
    as [_ [H _]].
  destruct (H recordRoot [recordLeaf] exampleStart_consistent)
    as [m' [E [C [L _]]]].
  - intros r [<-|[<-|[]]]; eexists; (split; [vm_compute; reflexivity|]);
      reflexivity.
  - exists m'. split; [exact E|]. split; [exact C|].
    rewrite L. vm_compute. reflexivity.
Defined.

(** X11, on the scenario: the global move and the revert of one of two
    events at the same map position. *)
Lemma move_then_revert_restores_events_witness :
  exists e m1 m2,
    eventMove false twoTied = Ok m1 /\
    revertMovedEventToPrevious m1 = Ok m2 /\ Consistent m2 /\
    eventNode (_events m2 e) = eventNode (_events twoTied e) /\
    mapTime (_events m2 e) = mapTime (_events twoTied e) /\
    (forall j, Permutation (eventsOnBranch (_histories m2 j))
                 (eventsOnBranch (_histories twoTied j))) /\
    _eventCollection m2 = _eventCollection twoTied.
Proof.
  destruct (move_then_revert_restores_events false twoTied
              (reachable_consistent _ twoTied_reachable))
    as [e [m1 [m2 [E1 [_ [_ [E2 [C2 [Ev [P [_ [R _]]]]]]]]]]]];
    [by_computation..|].
  exists e, m1, m2. split; [exact E1|]. split; [exact E2|].
  split; [exact C2|]. split; [exact (proj1 (Ev e))|].
  split; [exact (proj1 (proj2 (Ev e)))|]. split; [exact P|exact R].
Defined.

(** X13, on the scenario: three events and the draw just below 1/3; the
    floor of the exact product is 0, the binary64 product is 1, and the
    event taken is the second one. *)
Lemma chooseEventAtRandom_near_floor_witness :
  Qfloor (boundaryDraw * inject_Z 3) = 0%Z /\
  exists p e,
    double_mul boundaryDraw (inject_Z 3) = Some p /\ Qfloor p = 1%Z /\
    nth_error (_eventCollection threeAtBoundary) 1 = Some e /\
    chooseEventAtRandom threeAtBoundary
    = Ok (e, with_rng (mkMbRandom (draws (_rng threeAtBoundary))
                         (S (consumed (_rng threeAtBoundary))))
               threeAtBoundary).
Proof.
  split; [vm_compute; reflexivity|].
  destruct (chooseEventAtRandom_near_floor threeAtBoundary)
    as [p [e [Ep [_ [_ [En E]]]]]]; [by_computation..|].
  assert (Ec : double_mul
                 (draws (_rng threeAtBoundary) (consumed (_rng threeAtBoundary)))
                 (inject_Z
                    (Z.of_nat (List.length (_eventCollection threeAtBoundary))))
               = Some (9007199254740992 # 9007199254740992))
    by (vm_compute; reflexivity).
  rewrite Ec in Ep. injection Ep as <-.
  exists (9007199254740992 # 9007199254740992), e.
  split; [vm_compute; reflexivity|]. split; [vm_compute; reflexivity|].
  split; [exact En|exact E].
Defined.

(** X14, on the scenario: the descent from node 1, whose leaf 3 has an
    event. *)
Lemma forwardSetHistoriesRecursive_closed_form_witness :
  exists h',
    forwardSetHistoriesRecursive nodeA (_histories oneOnLeaf) = Ok h' /\
    forall j, h' j = if visitsb (_histories oneOnLeaf) nodeA j
                     then touch (nodeEvent (_histories oneOnLeaf 0%nat))
                            (_histories oneOnLeaf j)
                     else _histories oneOnLeaf j.
Proof.
  apply (forwardSetHistoriesRecursive_closed_form nodeA 0%nat).
  - simpl. auto 12.
  - reflexivity.
  - simpl. lia.
  - simpl. repeat constructor; simpl; lia.
Defined.
